(** * The directory crawl worker: recursive fan-out and completion tracking

    A shallow embedding of [src/workers/directory.ts]: the BullMQ processor
    [directoryWorker], its helper [processFilesInBatches] and the two queue
    listeners ([failed], [completed]).

    The external collaborators (GitHub, Prisma, Redis, BullMQ, Pusher) are
    modelled by one record of state, [World], plus the log of the calls
    issued to them.  Asynchronous code becomes state passing in a small
    state-and-exception monad, [Async]; every [await] is a [bind]. *)

From Stdlib Require Import String Ascii ZArith Lia DecimalString Permutation.
From stdpp Require Import base strings list gmap.

Local Open Scope string_scope.
Local Open Scope nat_scope.
Local Open Scope list_scope.
Local Open Scope stdpp_scope.

(** ** JavaScript string helpers *)

(** [s.split(sep)] for a one-character separator: never the empty list. *)
Fixpoint split (sep : ascii) (s : string) : list string :=
  match s with
  | EmptyString => [EmptyString]
  | String c s' =>
      if Ascii.eqb c sep then EmptyString :: split sep s'
      else match split sep s' with
           | [] => [String c EmptyString]
           | seg :: segs => String c seg :: segs
           end
  end.

(** [parts.join(sep)] *)
Definition join (sep : string) (parts : list string) : string :=
  String.concat sep parts.

(** A number inside a template literal. *)
Definition Number_toString (n : nat) : string :=
  NilZero.string_of_uint (Nat.to_uint n).

(** [path || "root"] *)
Definition or_root (path : string) : string :=
  match path with EmptyString => "root" | _ => path end.

(** [x?.id || null]: the empty string is falsy. *)
Definition or_null (s : string) : option string :=
  match s with EmptyString => None | _ => Some s end.

(** [l.slice(i, j)] for [0 <= i <= j]. *)
Definition slice {A : Type} (i j : nat) (l : list A) : list A :=
  take (j - i) (drop i l).

(** ** Data model *)

Inductive RepositoryStatus := PENDING | PROCESSING | SUCCESS | FAILED.

#[global] Instance RepositoryStatus_eq_dec : EqDecision RepositoryStatus.
Proof. solve_decision. Defined.

(** Modelled from the spec: [interfaces/github] is not among the sources.
    One entry of a directory listing, [GitHubContent], carries a path, a
    name, a type ("dir" or "file") and an optional content; these are the
    fields the worker reads. *)
Module GitHubContent.
Record t := mk {
  path : string;
  name : string;
  type : string;
  content : option string;
}.
End GitHubContent.

(** The [data] argument of [prisma.directory.create]. *)
Module DirectoryCreate.
Record t := mk {
  path : string;
  repositoryId : string;
  parentId : option string;
}.
End DirectoryCreate.

(** A row of the [directory] table, as [create] returns it. *)
Module Directory.
Record t := mk {
  id : string;
  path : string;
  repositoryId : string;
  parentId : option string;
}.
End Directory.

(** The [data] argument of [prisma.file.create]; the row's own identifier
    is never read by this code. *)
Module File.
Record t := mk {
  path : string;
  name : string;
  content : string;
  repositoryId : string;
  directoryId : option string;
}.
End File.

(** [job.data] *)
Module JobData.
Record t := mk {
  owner : string;
  repo : string;
  repositoryId : string;
  path : string;
}.
End JobData.

(** The value a successful processor run returns. *)
Module JobResult.
Record t := mk {
  status : string;
  processed : nat;
}.
End JobResult.

(** What a rejected promise carries (the taxonomy of the error paths). *)
Inductive Error :=
| FetchError
| PersistenceError
| CounterStoreError
| QueueError.

(** Calls issued to the collaborators, in issue order.  [ok] records
    whether the call resolved. *)
Inductive Event :=
| Fetch (owner repo path repositoryId : string) (ok : bool)
| Update (repositoryId : string) (status : RepositoryStatus) (message : string)
| DirectoryTx (rows : list DirectoryCreate.t) (ok : bool)
| FileTx (rows : list File.t) (ok : bool)
| RepositoryUpdate (id : string) (status : RepositoryStatus) (ok : bool)
| RepositoryFind (id : string) (ok : bool)
| Incr (key : string) (ok : bool)
| Decr (key : string) (ok : bool)
| Add (jobName : string) (data : JobData.t) (ok : bool).

(** The state shared by all workers. *)
Record World := mkWorld {
  (** the content host: [None] when the listing cannot be fetched *)
  github : string -> string -> string -> option (list GitHubContent.t);
  (** [prisma.repository]: identifier to status *)
  repository : gmap string RepositoryStatus;
  (** [prisma.directory], in insertion order *)
  directory : list Directory.t;
  (** [prisma.file], in insertion order *)
  file : list File.t;
  (** the Redis keys holding integers *)
  redis : gmap string Z;
  (** the waiting jobs of [directoryQueue] *)
  directoryQueue : list JobData.t;
  (** every call issued so far *)
  trace : list Event;
}.

(** Outcomes of the calls a job makes that the code cannot influence:
    which of them fail, and the identifiers the database hands out. *)
Record Env := mkEnv {
  directory_tx_ok : bool;
  file_tx_ok : nat -> bool;        (* by batch index, from 0 *)
  incr_ok : nat -> bool;           (* by position of the subdirectory *)
  add_ok : nat -> bool;            (* by position of the subdirectory *)
  repository_update_ok : bool;
  repository_find_ok : bool;
  decr_ok : bool;
  new_id : nat -> string;          (* by position in the created batch *)
}.

(** ** Promises *)

Inductive Outcome (A : Type) :=
| Resolved (a : A)
| Rejected (e : Error).
Arguments Resolved {A} a.
Arguments Rejected {A} e.

Definition Async (A : Type) : Type := World -> Outcome A * World.

Definition resolve {A} (a : A) : Async A := fun w => (Resolved a, w).
Definition reject {A} (e : Error) : Async A := fun w => (Rejected e, w).

Definition bind {A B} (m : Async A) (k : A -> Async B) : Async B :=
  fun w =>
    match m w with
    | (Resolved a, w') => k a w'
    | (Rejected e, w') => (Rejected e, w')
    end.

Definition try_catch {A} (body : Async A) (handler : Error -> Async A) : Async A :=
  fun w =>
    match body w with
    | (Resolved a, w') => (Resolved a, w')
    | (Rejected e, w') => handler e w'
    end.

Notation "'await' x <- m ; k" := (bind m (fun x => k))
  (at level 10, x name, m at level 100, k at level 200).

(** ** The collaborators *)

Definition log (e : Event) (w : World) : World :=
  mkWorld (github w) (repository w) (directory w) (file w) (redis w)
          (directoryQueue w) (trace w ++ [e]).

(** Modelled from the spec: [lib/github] is not among the sources.
    [fetchGithubContent(owner, repo, path, repositoryId)] returns the
    immediate children of [path], or fails with a fetch error. *)
Definition fetchGithubContent (owner repo path repositoryId : string)
  : Async (list GitHubContent.t) :=
  fun w =>
    match github w owner repo path with
    | Some items => (Resolved items, log (Fetch owner repo path repositoryId true) w)
    | None => (Rejected FetchError, log (Fetch owner repo path repositoryId false) w)
    end.

(** Modelled from the spec: [lib/pusher/send-update] is not among the
    sources.  [sendProcessingUpdate(repositoryId, {status, message})]
    publishes the update, best effort: its failures are not surfaced to the
    caller, so it never rejects. *)
Definition sendProcessingUpdate (repositoryId : string)
    (status : RepositoryStatus) (message : string) : Async unit :=
  fun w => (Resolved tt, log (Update repositoryId status message) w).

Definition insert_directories (rows : list Directory.t) (w : World) : World :=
  mkWorld (github w) (repository w) (directory w ++ rows) (file w) (redis w)
          (directoryQueue w) (trace w).

Definition insert_files (rows : list File.t) (w : World) : World :=
  mkWorld (github w) (repository w) (directory w) (file w ++ rows) (redis w)
          (directoryQueue w) (trace w).

Definition set_repository (r : gmap string RepositoryStatus) (w : World) : World :=
  mkWorld (github w) r (directory w) (file w) (redis w)
          (directoryQueue w) (trace w).

Definition set_redis (r : gmap string Z) (w : World) : World :=
  mkWorld (github w) (repository w) (directory w) (file w) r
          (directoryQueue w) (trace w).

Definition set_directoryQueue (q : list JobData.t) (w : World) : World :=
  mkWorld (github w) (repository w) (directory w) (file w) (redis w)
          q (trace w).

(** The row [prisma.directory.create] makes of its [data]. *)
Definition created_directory (env : Env) (k : nat) (d : DirectoryCreate.t)
  : Directory.t :=
  Directory.mk (new_id env k) (DirectoryCreate.path d)
               (DirectoryCreate.repositoryId d) (DirectoryCreate.parentId d).

(** [prisma.$transaction(directoryData)]: all rows or none. *)
Definition prisma_transaction_directory (env : Env)
    (directoryData : list DirectoryCreate.t) : Async (list Directory.t) :=
  fun w =>
    if directory_tx_ok env then
      let rows := imap (created_directory env) directoryData in
      (Resolved rows, insert_directories rows (log (DirectoryTx directoryData true) w))
    else (Rejected PersistenceError, log (DirectoryTx directoryData false) w).

(** [prisma.$transaction(batch.map(file => prisma.file.create(..)))] for
    the batch of index [i]: all rows or none. *)
Definition prisma_transaction_file (env : Env) (i : nat)
    (rows : list File.t) : Async unit :=
  fun w =>
    if file_tx_ok env i then
      (Resolved tt, insert_files rows (log (FileTx rows true) w))
    else (Rejected PersistenceError, log (FileTx rows false) w).

(** [prisma.repository.update({where: {id}, data: {status}})]: rejects
    when no such record exists. *)
Definition prisma_repository_update (env : Env) (id : string)
    (status : RepositoryStatus) : Async unit :=
  fun w =>
    match repository w !! id with
    | Some _ =>
        if repository_update_ok env then
          (Resolved tt,
           set_repository (<[id := status]> (repository w))
                          (log (RepositoryUpdate id status true) w))
        else (Rejected PersistenceError, log (RepositoryUpdate id status false) w)
    | None => (Rejected PersistenceError, log (RepositoryUpdate id status false) w)
    end.

(** [prisma.repository.findUnique({where: {id}, select: {status: true}})]:
    [null] when no such record exists; the result is [repository?.status]. *)
Definition prisma_repository_findUnique (env : Env) (id : string)
  : Async (option RepositoryStatus) :=
  fun w =>
    if repository_find_ok env then
      (Resolved (repository w !! id), log (RepositoryFind id true) w)
    else (Rejected PersistenceError, log (RepositoryFind id false) w).

(** A key that was never set counts as 0. *)
Definition counter (w : World) (key : string) : Z :=
  default 0%Z (redis w !! key).

(** [redisConnection.incr(key)]: one atomic command, the new value. *)
Definition redis_incr (ok : bool) (key : string) : Async Z :=
  fun w =>
    if ok then
      let v := (counter w key + 1)%Z in
      (Resolved v, set_redis (<[key := v]> (redis w)) (log (Incr key true) w))
    else (Rejected CounterStoreError, log (Incr key false) w).

(** [redisConnection.decr(key)]: one atomic command, the new value. *)
Definition redis_decr (ok : bool) (key : string) : Async Z :=
  fun w =>
    if ok then
      let v := (counter w key - 1)%Z in
      (Resolved v, set_redis (<[key := v]> (redis w)) (log (Decr key true) w))
    else (Rejected CounterStoreError, log (Decr key false) w).

(** [directoryQueue.add(name, data)] *)
Definition directoryQueue_add (ok : bool) (jobName : string) (data : JobData.t)
  : Async unit :=
  fun w =>
    if ok then
      (Resolved tt,
       set_directoryQueue (directoryQueue w ++ [data]) (log (Add jobName data true) w))
    else (Rejected QueueError, log (Add jobName data false) w).

(** [`repo:${repositoryId}:pending_jobs`] *)
Definition pending_jobs (repositoryId : string) : string :=
  "repo:" +:+ repositoryId +:+ ":pending_jobs".

(** ** The worker *)

Section Workers.

(** The constant of [lib/constants] the helper reads; [lib/constants] is
    not among the sources, so the batch size is a parameter. *)
Variable FILE_BATCH_SIZE : nat.

(** [for (let i = 0; i < files.length; i += FILE_BATCH_SIZE)
      fileBatches.push(files.slice(i, i + FILE_BATCH_SIZE))].
    The loop runs at most [files.length] times when the batch size is
    positive, which is the fuel given to it.  With a batch size of 0 and
    at least one file the loop of the code never ends, which the fuel does
    not show: this definition is the loop of the code for a positive batch
    size only. *)
Fixpoint fileBatches_from {A : Type} (fuel : nat) (files : list A) (i : nat)
  : list (list A) :=
  match fuel with
  | O => []
  | S fuel' =>
      if i <? length files
      then slice i (i + FILE_BATCH_SIZE) files
           :: fileBatches_from fuel' files (i + FILE_BATCH_SIZE)
      else []
  end.

Definition fileBatches {A : Type} (files : list A) : list (list A) :=
  fileBatches_from (length files) files 0.

(** The [data] of one [prisma.file.create]. *)
Definition file_data (repositoryId : string) (directoryId : option string)
    (f : GitHubContent.t) : File.t :=
  File.mk (GitHubContent.path f) (GitHubContent.name f)
          (default "" (GitHubContent.content f)) repositoryId directoryId.

Definition saved_batch_message (i total size : nat) (currentPath : string) : string :=
  "Saved batch " +:+ Number_toString (i + 1) +:+ "/" +:+ Number_toString total
  +:+ " (" +:+ Number_toString size +:+ " files) for " +:+ or_root currentPath.

(** [for (let i = 0; i < fileBatches.length; i++) { .. }], from index [i]
    on, [batches] being the batches not yet saved. *)
Fixpoint save_batches (env : Env) (repositoryId currentPath : string)
    (directoryId : option string) (total : nat)
    (i : nat) (batches : list (list GitHubContent.t)) : Async unit :=
  match batches with
  | [] => resolve tt
  | batch :: rest =>
      await _ <- prisma_transaction_file env i
                   (map (file_data repositoryId directoryId) batch);
      await _ <- sendProcessingUpdate repositoryId PROCESSING
                   (saved_batch_message i total (length batch) currentPath);
      save_batches env repositoryId currentPath directoryId total (S i) rest
  end.

Definition processFilesInBatches (env : Env) (files : list GitHubContent.t)
    (repositoryId currentPath : string) (directoryId : option string)
  : Async unit :=
  try_catch
    (await _ <- sendProcessingUpdate repositoryId PROCESSING
                  ("Processing " +:+ Number_toString (length files)
                   +:+ " files in batches for " +:+ or_root currentPath);
     let batches := fileBatches files in
     await _ <- save_batches env repositoryId currentPath directoryId
                  (length batches) 0 batches;
     await _ <- sendProcessingUpdate repositoryId SUCCESS
                  ("Finished processing " +:+ Number_toString (length files)
                   +:+ " files in " +:+ or_root currentPath);
     resolve tt)
    (fun error =>
       await _ <- sendProcessingUpdate repositoryId FAILED
                    ("Failed to save files in " +:+ or_root currentPath
                     +:+ " --handleLargeFileSet");
       reject error).

(** The payload of the child job of one subdirectory. *)
Definition child_job (owner repo repositoryId : string) (dir : GitHubContent.t)
  : JobData.t :=
  JobData.mk owner repo repositoryId (GitHubContent.path dir).

(** [Promise.all(directories.map(async (dir) => { await incr; await add }))].
    [map] starts every callback, and each runs up to its first [await]: the
    INCR commands are all issued, in order, before any callback goes on.
    [issue_incrs] issues them from position [k] on and tells which ones
    resolved.  The calls are recorded in the order in which they are
    issued when every command is answered in turn. *)
Fixpoint issue_incrs (env : Env) (key : string) (k : nat)
    (directories : list GitHubContent.t) (w : World) : list bool * World :=
  match directories with
  | [] => ([], w)
  | _ :: rest =>
      let '(_, w1) := redis_incr (incr_ok env k) key w in
      let '(oks, w2) := issue_incrs env key (S k) rest w1 in
      (incr_ok env k :: oks, w2)
  end.

(** Then every callback whose INCR resolved adds its child job; a callback
    whose INCR rejected has rejected and adds nothing.  The result tells
    which callbacks resolved. *)
Fixpoint issue_adds (env : Env) (owner repo repositoryId : string) (k : nat)
    (directories : list GitHubContent.t) (w : World) : list bool * World :=
  match directories with
  | [] => ([], w)
  | dir :: rest =>
      if incr_ok env k then
        let '(_, w1) := directoryQueue_add (add_ok env k) "process-directory"
                          (child_job owner repo repositoryId dir) w in
        let '(oks, w2) := issue_adds env owner repo repositoryId (S k) rest w1 in
        (add_ok env k :: oks, w2)
      else
        let '(oks, w2) := issue_adds env owner repo repositoryId (S k) rest w in
        (false :: oks, w2)
  end.

(** The combined promise resolves when every callback did, and rejects
    otherwise; the callbacks already started are not cancelled.  In the
    code [Promise.all] rejects as soon as one callback does, so the [catch]
    block of the processor may issue its calls while the remaining
    callbacks still add their jobs; here the callbacks run to their end
    before the promise settles.  The two agree on every table, counter and
    queue, since the calls of the [catch] block and the remaining [add]s
    touch different parts of the world; only the place of the calls of the
    [catch] block among those [add]s in the record of the calls is left
    undetermined by the code, and fixed here as the last. *)
Definition queue_subdirectories (env : Env) (owner repo repositoryId : string)
    (directories : list GitHubContent.t) : Async unit :=
  fun w =>
    let '(incrs, w1) :=
      issue_incrs env (pending_jobs repositoryId) 0 directories w in
    let '(adds, w2) :=
      issue_adds env owner repo repositoryId 0 directories w1 in
    if forallb id incrs then
      if forallb id adds then (Resolved tt, w2) else (Rejected QueueError, w2)
    else (Rejected CounterStoreError, w2).

(** [dir.path.split("/").slice(0, -1).join("/")] *)
Definition parent_path (path : string) : string :=
  join "/" (removelast (split "/" path)).

(** [directories.map((dir) => { .. prisma.directory.create({data}) })]:
    the callback reads [directoryMap] while [map] runs. *)
Definition directoryData (directoryMap : gmap string Directory.t)
    (repositoryId : string) (directories : list GitHubContent.t)
  : list DirectoryCreate.t :=
  map (fun dir =>
         let parentPath := parent_path (GitHubContent.path dir) in
         let parentDir := directoryMap !! parentPath in
         DirectoryCreate.mk (GitHubContent.path dir) repositoryId
           (parentDir ≫= fun d => or_null (Directory.id d)))
      directories.

(** [createdDirectories.forEach((directory) =>
       directoryMap.set(directory.path, directory))] *)
Definition set_all (directoryMap : gmap string Directory.t)
    (createdDirectories : list Directory.t) : gmap string Directory.t :=
  foldl (fun m d => <[Directory.path d := d]> m) directoryMap createdDirectories.

(** [files[0]?.path.split("/") || []], then [pop()], then [join("/")] *)
Definition dirPath_of (files : list GitHubContent.t) : string :=
  let pathParts :=
    match head files with
    | Some f => split "/" (GitHubContent.path f)
    | None => []
    end in
  join "/" (removelast pathParts).

(** The [try] block of the processor. *)
Definition directoryWorker_try (env : Env) (data : JobData.t)
  : Async (option JobResult.t) :=
  let owner := JobData.owner data in
  let repo := JobData.repo data in
  let repositoryId := JobData.repositoryId data in
  let path := JobData.path data in
  await items <- fetchGithubContent owner repo path repositoryId;
  await _ <- sendProcessingUpdate repositoryId PROCESSING
               ("Processing directory: " +:+ or_root path);
  let directories :=
    filter (fun item => GitHubContent.type item = "dir") items in
  let files :=
    filter (fun item => GitHubContent.type item = "file") items in
  let directoryMap : gmap string Directory.t := ∅ in
  await createdDirectories <-
    prisma_transaction_directory env
      (directoryData directoryMap repositoryId directories);
  let directoryMap := set_all directoryMap createdDirectories in
  let dirPath := dirPath_of files in
  let directoryId :=
    directoryMap !! dirPath ≫= fun d => or_null (Directory.id d) in
  await _ <- processFilesInBatches env files repositoryId path directoryId;
  await _ <- queue_subdirectories env owner repo repositoryId directories;
  await _ <- sendProcessingUpdate repositoryId PROCESSING
               ("Finished processing directory: " +:+ or_root path);
  resolve (Some (JobResult.mk "SUCCESS" (length items))).

(** The [catch] block of the processor: it does not rethrow, so the
    processor resolves with [undefined]. *)
Definition directoryWorker_catch (env : Env) (data : JobData.t) (error : Error)
  : Async (option JobResult.t) :=
  let repositoryId := JobData.repositoryId data in
  let path := JobData.path data in
  await _ <- prisma_repository_update env repositoryId FAILED;
  await _ <- sendProcessingUpdate repositoryId FAILED
               ("Failed to process directory: " +:+ or_root path);
  resolve None.

(** The processor given to [new Worker(QUEUES.DIRECTORY, ..)]. *)
Definition directoryWorker (env : Env) (data : JobData.t)
  : Async (option JobResult.t) :=
  try_catch (directoryWorker_try env data) (directoryWorker_catch env data).

(** [directoryWorker.on("failed", ..)]: it writes to the process log only. *)
Definition on_failed (data : JobData.t) (error : Error) (w : World) : World := w.

(** [directoryWorker.on("completed", ..)] *)
Definition on_completed (env : Env) (data : JobData.t) : Async unit :=
  let repositoryId := JobData.repositoryId data in
  await remainingJobs <- redis_decr (decr_ok env) (pending_jobs repositoryId);
  await status <- prisma_repository_findUnique env repositoryId;
  if bool_decide (remainingJobs = 0%Z ∧ status = Some PROCESSING) then
    await _ <- prisma_repository_update env repositoryId SUCCESS;
    await _ <- sendProcessingUpdate repositoryId SUCCESS
                 "All directories and files have been processed.";
    resolve tt
  else resolve tt.

(** ** The queue

    BullMQ hands each waiting job to the processor once, in any order
    across the worker pool; when the processor's promise resolves the
    worker emits [completed], when it rejects the worker emits [failed].
    A job is processed in one step and its [completed] event is delivered
    in a later one, so that the events of several jobs interleave; the
    calls of one run of the processor are not interleaved with those of
    another.  A step runs a processor or a handler from its first call to
    its last: the states of the system are those in which no processor and
    no handler is between two of its calls, and the states the code goes
    through at each [await] inside a handler are not among them. *)

Record System := mkSystem {
  world : World;
  (** jobs whose processor resolved and whose [completed] event is due *)
  completing : list JobData.t;
}.

Inductive Label :=
| Process (n : nat) (env : Env)     (* the [n]-th waiting job is processed *)
| Completed (n : nat) (env : Env).  (* the [n]-th due event is delivered *)

Definition step (l : Label) (s : System) : option System :=
  match l with
  | Process n env =>
      match directoryQueue (world s) !! n with
      | None => None
      | Some data =>
          let w := set_directoryQueue (delete n (directoryQueue (world s)))
                                      (world s) in
          match directoryWorker env data w with
          | (Resolved _, w') => Some (mkSystem w' (completing s ++ [data]))
          | (Rejected e, w') => Some (mkSystem (on_failed data e w') (completing s))
          end
      end
  | Completed n env =>
      match completing s !! n with
      | None => None
      | Some data =>
          Some (mkSystem (on_completed env data (world s)).2
                         (delete n (completing s)))
      end
  end.

Fixpoint run (schedule : list Label) (s : System) : option System :=
  match schedule with
  | [] => Some s
  | l :: rest =>
      match step l s with
      | Some s' => run rest s'
      | None => None
      end
  end.

End Workers.


(** ** Vocabulary of the properties *)

(** [R] relates the world before any run of [m] to the world after it. *)
Definition preserves {A} (R : relation World) (m : Async A) : Prop :=
  ∀ w, R w (m w).2.

(** The component [f] of the world is left as it was. *)
Definition unchanged {X} (f : World -> X) : relation World :=
  fun w w' => f w' = f w.

(** The table or log [f] only grows, by entries that satisfy [P]. *)
Definition extends {X} (f : World -> list X) (P : X -> Prop) : relation World :=
  fun w w' => ∃ l, f w' = f w ++ l ∧ Forall P l.

(** The calls issued form a sequence that satisfies [G]. *)
Definition emits (G : list Event -> Prop) : relation World :=
  fun w w' => ∃ evs, trace w' = trace w ++ evs ∧ G evs.

(** Properties of call sequences that hold of the empty sequence and of
    the concatenation of two sequences that have them. *)
Class Sequential (G : list Event -> Prop) : Prop := {
  sequential_nil : G [];
  sequential_app : ∀ a b, G a -> G b -> G (a ++ b);
}.

(** The status of a run. *)
Definition status_of (w : World) (repositoryId : string) : option RepositoryStatus :=
  repository w !! repositoryId.

(** No status changes, except to [FAILED]. *)
Definition only_fails : relation World :=
  fun w w' =>
    ∀ r, status_of w' r = status_of w r ∨ status_of w' r = Some FAILED.

(** The update that declares a run complete. *)
Definition completion_message : string :=
  "All directories and files have been processed.".

Definition completion_update (repositoryId : string) : Event :=
  Update repositoryId SUCCESS completion_message.

(** An environment in which no call fails. *)
Definition faultless (env : Env) : Prop :=
  directory_tx_ok env = true ∧ (∀ i, file_tx_ok env i = true)
  ∧ (∀ k, incr_ok env k = true) ∧ (∀ k, add_ok env k = true)
  ∧ repository_update_ok env = true ∧ repository_find_ok env = true
  ∧ decr_ok env = true.

(** The path of the entry [name] of the directory [path]. *)
Definition child_path (path name : string) : string :=
  match path with EmptyString => name | _ => path +:+ "/" +:+ name end.

(** A name: not empty, and without a slash. *)
Definition segment (name : string) : Prop :=
  name ≠ "" ∧ split "/" name = [name].

(** [items] lists immediate children of [path], as the content host does. *)
Definition immediate_children (path : string) (items : list GitHubContent.t) : Prop :=
  Forall (fun item =>
            segment (GitHubContent.name item)
            ∧ GitHubContent.path item = child_path path (GitHubContent.name item))
         items.

Definition directories_of (items : list GitHubContent.t) : list GitHubContent.t :=
  filter (fun item => GitHubContent.type item = "dir") items.

Definition files_of (items : list GitHubContent.t) : list GitHubContent.t :=
  filter (fun item => GitHubContent.type item = "file") items.

(** The identifier the processor attaches to the files of a listing. *)
Definition directoryId_of (env : Env) (repositoryId : string)
    (items : list GitHubContent.t) : option string :=
  set_all ∅ (imap (created_directory env)
                  (directoryData ∅ repositoryId (directories_of items)))
  !! dirPath_of (files_of items)
  ≫= fun d => or_null (Directory.id d).

(** The [try] block from the point where the directories are persisted. *)
Definition after_directories (FILE_BATCH_SIZE : nat) (env : Env)
    (data : JobData.t) (items : list GitHubContent.t) : Async (option JobResult.t) :=
  let repositoryId := JobData.repositoryId data in
  let path := JobData.path data in
  await _ <- processFilesInBatches FILE_BATCH_SIZE env (files_of items)
               repositoryId path (directoryId_of env repositoryId items);
  await _ <- queue_subdirectories env (JobData.owner data) (JobData.repo data)
               repositoryId (directories_of items);
  await _ <- sendProcessingUpdate repositoryId PROCESSING
               ("Finished processing directory: " +:+ or_root path);
  resolve (Some (JobResult.mk "SUCCESS" (length items))).

(** The world once the listing is fetched and announced. *)
Definition fetched (data : JobData.t) (w : World) : World :=
  log (Update (JobData.repositoryId data) PROCESSING
         ("Processing directory: " +:+ or_root (JobData.path data)))
      (log (Fetch (JobData.owner data) (JobData.repo data) (JobData.path data)
              (JobData.repositoryId data) true) w).

(** The update that reports the batch of index [i], out of [total], as
    saved: "Saved batch i+1/total (size files) for path". *)
Definition saved_batch_update (repositoryId currentPath : string)
    (total i size : nat) : Event :=
  Update repositoryId PROCESSING
    ("Saved batch " +:+ Number_toString (i + 1) +:+ "/"
     +:+ Number_toString total +:+ " (" +:+ Number_toString size
     +:+ " files) for " +:+ or_root currentPath).

(** The calls of the saving loop when every batch commits: one
    transaction and one update per batch. *)
Fixpoint batch_events (repositoryId currentPath : string)
    (directoryId : option string) (total i : nat)
    (batches : list (list GitHubContent.t)) : list Event :=
  match batches with
  | [] => []
  | batch :: rest =>
      FileTx (map (file_data repositoryId directoryId) batch) true
      :: saved_batch_update repositoryId currentPath total i (length batch)
      :: batch_events repositoryId currentPath directoryId total (S i) rest
  end.

(** The updates among the calls, with their status and their text. *)
Definition updates_of (evs : list Event) : list (RepositoryStatus * string) :=
  omap (fun e => match e with
                 | Update _ status message => Some (status, message)
                 | _ => None
                 end) evs.

(** A world with more file rows and more calls, and nothing else changed. *)
Definition with_files (rows : list File.t) (evs : list Event) (w : World) : World :=
  mkWorld (github w) (repository w) (directory w) (file w ++ rows) (redis w)
          (directoryQueue w) (trace w ++ evs).

Definition processing_files_message (n : nat) (currentPath : string) : string :=
  "Processing " +:+ Number_toString n +:+ " files in batches for "
  +:+ or_root currentPath.

Definition finished_files_message (n : nat) (currentPath : string) : string :=
  "Finished processing " +:+ Number_toString n +:+ " files in "
  +:+ or_root currentPath.

Definition failed_files_message (currentPath : string) : string :=
  "Failed to save files in " +:+ or_root currentPath +:+ " --handleLargeFileSet".

Definition failed_directory_message (path : string) : string :=
  "Failed to process directory: " +:+ or_root path.

(** The world the [catch] block of the processor leaves when its own calls
    resolve. *)
Definition failed_run (data : JobData.t) (w : World) : World :=
  let repositoryId := JobData.repositoryId data in
  log (Update repositoryId FAILED (failed_directory_message (JobData.path data)))
      (set_repository (<[repositoryId := FAILED]> (repository w))
         (log (RepositoryUpdate repositoryId FAILED true) w)).

(** Counting the calls that matter to the pending-work counter. *)
Definition is_add (e : Event) : bool :=
  match e with Add _ _ _ => true | _ => false end.

Definition is_incr (key : string) (e : Event) : bool :=
  match e with Incr k true => String.eqb k key | _ => false end.

Definition adds (evs : list Event) : nat := length (List.filter is_add evs).

Definition incrs (key : string) (evs : list Event) : nat :=
  length (List.filter (is_incr key) evs).

(** At every point of the sequence, the calls to [add] issued so far are
    no more than the increments of [key] applied so far. *)
Definition increments_first (key : string) (evs : list Event) : Prop :=
  ∀ before after, evs = before ++ after -> adds before <= incrs key before.

(** The calls of [queue_subdirectories]: first the INCR commands, one per
    subdirectory; then one [add] per subdirectory whose INCR resolved. *)
Fixpoint incr_events (env : Env) (key : string) (k : nat)
    (directories : list GitHubContent.t) : list Event :=
  match directories with
  | [] => []
  | _ :: rest => Incr key (incr_ok env k) :: incr_events env key (S k) rest
  end.

Fixpoint add_events (env : Env) (owner repo repositoryId : string) (k : nat)
    (directories : list GitHubContent.t) : list Event :=
  match directories with
  | [] => []
  | dir :: rest =>
      if incr_ok env k then
        Add "process-directory" (child_job owner repo repositoryId dir)
            (add_ok env k)
        :: add_events env owner repo repositoryId (S k) rest
      else add_events env owner repo repositoryId (S k) rest
  end.

(** ** Runs *)

(** The jobs of a run that are not done with: waiting, or processed with
    their [completed] event still due. *)
Definition outstanding (s : System) : list JobData.t :=
  directoryQueue (world s) ++ completing s.

(** Modelled from the spec: the initiator of a run is not part of the
    sources at hand.  It creates the run and initialises the counter before
    it submits the root job; the counter counts the jobs enqueued and not
    yet completed, so it holds 1 for the root job, and the run is
    [PROCESSING], the only status the completion handler acts on. *)
Definition initial (gh : string -> string -> string -> option (list GitHubContent.t))
    (root : JobData.t) : System :=
  let repositoryId := JobData.repositoryId root in
  mkSystem
    (mkWorld gh {[ repositoryId := PROCESSING ]} [] []
             {[ pending_jobs repositoryId := 1%Z ]} [root] [])
    [].

(** The queue grows by no more jobs than the counter of [key] grows. *)
Definition queue_bounded (key : string) : relation World :=
  fun w w' =>
    (Z.of_nat (length (directoryQueue w')) + counter w key
     <= Z.of_nat (length (directoryQueue w)) + counter w' key)%Z.

(** The update that declares the run [repositoryId] complete, recognised. *)
Definition is_completion (repositoryId : string) (e : Event) : bool :=
  match e with
  | Update r SUCCESS message =>
      String.eqb r repositoryId && String.eqb message completion_message
  | _ => false
  end.

(** How many times the run was declared complete. *)
Definition completions (repositoryId : string) (evs : list Event) : nat :=
  length (List.filter (is_completion repositoryId) evs).

(** What holds of a run at any time. *)
Definition run_invariant (repositoryId : string) (s : System) : Prop :=
  Forall (fun j => JobData.repositoryId j = repositoryId) (outstanding s)
  ∧ (Z.of_nat (length (outstanding s))
     <= counter (world s) (pending_jobs repositoryId))%Z
  ∧ (status_of (world s) repositoryId = Some SUCCESS -> outstanding s = [])
  ∧ (completions repositoryId (trace (world s)) = 0
     ∨ completions repositoryId (trace (world s)) = 1
       ∧ status_of (world s) repositoryId ≠ Some PROCESSING).


(** ** Crawling a content tree *)

(** A directory row without the identifier the database gave it. *)
Definition row_view (d : Directory.t) : DirectoryCreate.t :=
  DirectoryCreate.mk (Directory.path d) (Directory.repositoryId d)
                     (Directory.parentId d).

(** [Crawl gh owner repo repositoryId path dirs files]: the part of the
    content tree below [path] is finite, every listing of it can be
    fetched and holds immediate children, and [dirs] and [files] are the
    rows that crawling it persists. *)
#[warnings="-register-all"]
Inductive Crawl (gh : string -> string -> string -> option (list GitHubContent.t))
    (owner repo repositoryId : string)
  : string -> list DirectoryCreate.t -> list File.t -> Prop :=
| Crawl_directory (path : string) (items : list GitHubContent.t)
    (below : list (list DirectoryCreate.t * list File.t)) :
    gh owner repo path = Some items ->
    immediate_children path items ->
    Forall2 (fun dir sub =>
               Crawl gh owner repo repositoryId (GitHubContent.path dir)
                     sub.1 sub.2)
            (directories_of items) below ->
    Crawl gh owner repo repositoryId path
      (directoryData ∅ repositoryId (directories_of items)
       ++ concat (map fst below))
      (map (file_data repositoryId None) (files_of items)
       ++ concat (map snd below)).

Definition faultless_label (l : Label) : Prop :=
  match l with
  | Process _ env => faultless env
  | Completed _ env => faultless env
  end.

(** A job of the crawl and the rows that are still to come from it. *)
Definition crawls gh (owner repo repositoryId : string) (job : JobData.t)
    (sub : list DirectoryCreate.t * list File.t) : Prop :=
  job = JobData.mk owner repo repositoryId (JobData.path job)
  ∧ Crawl gh owner repo repositoryId (JobData.path job) sub.1 sub.2.

(** What holds at any time of a run in which no call fails: the rows
    persisted and the rows still to come from the waiting jobs are the rows
    of the tree; the counter is the number of outstanding jobs; the status
    is [PROCESSING] until none is left. *)
Definition crawl_invariant gh (owner repo repositoryId : string)
    (dirs : list DirectoryCreate.t) (files : list File.t) (s : System) : Prop :=
  github (world s) = gh
  ∧ (∃ subs,
       Forall2 (crawls gh owner repo repositoryId) (directoryQueue (world s)) subs
       ∧ Permutation (map row_view (directory (world s)) ++ concat (map fst subs))
                     dirs
       ∧ Permutation (file (world s) ++ concat (map snd subs)) files)
  ∧ Forall (fun j => JobData.repositoryId j = repositoryId) (completing s)
  ∧ counter (world s) (pending_jobs repositoryId)
    = Z.of_nat (length (outstanding s))
  ∧ repository (world s)
    = {[ repositoryId :=
           if decide (outstanding s = []) then SUCCESS else PROCESSING ]}.

(** ** Scenarios *)

Definition no_faults : Env :=
  mkEnv true (fun _ => true) (fun _ => true) (fun _ => true) true true true
        (fun k => "dir-" +:+ Number_toString k).

(** A world with one run and nothing else. *)
Definition one_run (gh : string -> string -> string -> option (list GitHubContent.t))
    (repositoryId : string) (status : RepositoryStatus) (pending : Z) : World :=
  mkWorld gh {[ repositoryId := status ]} [] [] 
          {[ pending_jobs repositoryId := pending ]} [] [].

Definition no_content (owner repo path : string) : option (list GitHubContent.t) :=
  None.

(** The job of the directory [src], whose own row the root job has
    persisted under the identifier [dir-src]; it holds one subdirectory
    and one file. *)
Definition src_listing (owner repo path : string) : option (list GitHubContent.t) :=
  if String.eqb path "src" then
    Some [ GitHubContent.mk "src/lib" "lib" "dir" None;
           GitHubContent.mk "src/main.ts" "main.ts" "file" (Some "export {}") ]
  else None.

Definition src_world : World :=
  mkWorld src_listing {[ "r1" := PROCESSING ]}
          [ Directory.mk "dir-src" "src" "r1" None ] []
          {[ pending_jobs "r1" := 1%Z ]} [] [].

Definition src_job : JobData.t := JobData.mk "o" "p" "r1" "src".

(** Two hundred and fifty files. *)
Definition many_files : list GitHubContent.t :=
  map (fun k => GitHubContent.mk ("f" +:+ Number_toString k)
                  ("f" +:+ Number_toString k) "file" None)
      (seq 0 250).

(** A run whose root listing cannot be fetched: the root job is waiting,
    the counter holds 1 for it. *)
Definition root_job : JobData.t := JobData.mk "o" "p" "r1" "".

Definition unreachable_root : System :=
  mkSystem (set_directoryQueue [root_job] (one_run no_content "r1" PROCESSING 1)) [].


(** A run started without its counter: the root has one subdirectory,
    whose listing cannot be fetched. *)
Definition one_subdirectory (owner repo path : string)
  : option (list GitHubContent.t) :=
  if String.eqb path "" then Some [ GitHubContent.mk "src" "src" "dir" None ]
  else None.

Definition uncounted_run : System :=
  mkSystem (mkWorld one_subdirectory {[ "r1" := PROCESSING ]} [] [] ∅
                    [root_job] [])
           [].

(** The root holds two files and the directory [src]; [src] holds one
    file. *)
Definition small_tree (owner repo path : string) : option (list GitHubContent.t) :=
  if String.eqb path "" then
    Some [ GitHubContent.mk "a.txt" "a.txt" "file" (Some "A");
           GitHubContent.mk "b.txt" "b.txt" "file" None;
           GitHubContent.mk "src" "src" "dir" None ]
  else if String.eqb path "src" then
    Some [ GitHubContent.mk "src/c.txt" "c.txt" "file" None ]
  else None.

Definition small_schedule : list Label :=
  [ Process 0 no_faults; Completed 0 no_faults;
    Process 0 no_faults; Completed 0 no_faults ].

(** Two sibling directories, each with one file. *)
Definition two_siblings (owner repo path : string) : option (list GitHubContent.t) :=
  if String.eqb path "" then
    Some [ GitHubContent.mk "a" "a" "dir" None;
           GitHubContent.mk "b" "b" "dir" None ]
  else if String.eqb path "a" then
    Some [ GitHubContent.mk "a/x.txt" "x.txt" "file" (Some "x") ]
  else if String.eqb path "b" then
    Some [ GitHubContent.mk "b/y.txt" "y.txt" "file" (Some "y") ]
  else None.

(** The siblings are processed and completed in the order they were
    enqueued. *)
Definition in_enqueue_order : list Label :=
  [ Process 0 no_faults; Completed 0 no_faults;
    Process 0 no_faults; Completed 0 no_faults;
    Process 0 no_faults; Completed 0 no_faults ].

(** Another database numbering, to tell the two runs apart. *)
Definition other_ids : Env :=
  mkEnv true (fun _ => true) (fun _ => true) (fun _ => true) true true true
        (fun k => "row-" +:+ Number_toString k).

(** The siblings are processed and completed in the reverse order, and the
    root job is completed last. *)
Definition in_reverse_order : list Label :=
  [ Process 0 other_ids; Process 1 other_ids; Process 0 other_ids;
    Completed 1 other_ids; Completed 1 other_ids; Completed 0 other_ids ].

(** ** Vocabulary of the further properties *)

(** The entries of a listing that are neither directories nor files. *)
Definition others_of (items : list GitHubContent.t) : list GitHubContent.t :=
  filter (fun item => GitHubContent.type item ≠ "dir"
                      ∧ GitHubContent.type item ≠ "file") items.

(** The child jobs the queueing step adds, from position [k] on: one for
    each subdirectory whose INCR and whose [add] both resolved. *)
Fixpoint enqueued (env : Env) (owner repo repositoryId : string) (k : nat)
    (directories : list GitHubContent.t) : list JobData.t :=
  match directories with
  | [] => []
  | dir :: rest =>
      if incr_ok env k && add_ok env k
      then child_job owner repo repositoryId dir
           :: enqueued env owner repo repositoryId (S k) rest
      else enqueued env owner repo repositoryId (S k) rest
  end.

(** The number of INCR commands that resolved, from position [k] on. *)
Fixpoint applied (env : Env) (k : nat) (directories : list GitHubContent.t) : nat :=
  match directories with
  | [] => 0
  | _ :: rest =>
      (if incr_ok env k then 1 else 0) + applied env (S k) rest
  end.

(** Every callback resolved, from position [k] on. *)
Definition all_resolved (env : Env) (k : nat)
    (directories : list GitHubContent.t) : bool :=
  forallb (fun j => incr_ok env j && add_ok env j) (seq k (length directories)).

(** No counter goes down. *)
Definition counters_grow : relation World :=
  fun w w' => ∀ key, (counter w key <= counter w' key)%Z.

(** [m] neither reads nor writes the table of the runs: run on a world
    with another such table, it does the same and leaves that table. *)
Definition oblivious {A} (m : Async A) : Prop :=
  ∀ r w, m (set_repository r w) = ((m w).1, set_repository r (m w).2).

(** The statuses of the other runs are left as they were. *)
Definition other_statuses (repositoryId : string) : relation World :=
  fun w w' => ∀ r, r ≠ repositoryId -> status_of w' r = status_of w r.

(** The other counters are left as they were. *)
Definition other_counters (key : string) : relation World :=
  fun w w' => ∀ k, k ≠ key -> counter w' k = counter w k.

(** A call that failed; the read of the status of the run is left out. *)
Definition is_failure (e : Event) : bool :=
  match e with
  | Fetch _ _ _ _ ok => negb ok
  | DirectoryTx _ ok => negb ok
  | FileTx _ ok => negb ok
  | Incr _ ok => negb ok
  | Add _ _ ok => negb ok
  | Decr _ ok => negb ok
  | RepositoryUpdate _ _ ok => negb ok
  | RepositoryFind _ _ => false
  | Update _ _ _ => false
  end.

(** How many calls failed. *)
Definition failures (evs : list Event) : nat :=
  length (List.filter is_failure evs).

(** When [m] resolves, none of the calls it made has failed. *)
Definition quiet {A} (m : Async A) : Prop :=
  ∀ w, ∃ evs, trace (m w).2 = trace w ++ evs
              ∧ ∀ a, (m w).1 = Resolved a -> failures evs = 0.

(** What holds of the completion of a run at any time: a run that is
    [SUCCESS], or was declared complete, is both, with its counter at zero
    and no failed call; and after a failed call the run has left
    [PROCESSING], or its counter exceeds the jobs outstanding, or no job
    is outstanding. *)
Definition completion_invariant (repositoryId : string) (s : System) : Prop :=
  let w := world s in
  (status_of w repositoryId = Some SUCCESS
   ∨ completions repositoryId (trace w) = 1 ->
   status_of w repositoryId = Some SUCCESS
   ∧ completions repositoryId (trace w) = 1
   ∧ counter w (pending_jobs repositoryId) = 0%Z
   ∧ failures (trace w) = 0)
  ∧ (0 < failures (trace w) ->
     status_of w repositoryId ≠ Some PROCESSING
     ∨ (Z.of_nat (length (outstanding s))
        < counter w (pending_jobs repositoryId))%Z
     ∨ outstanding s = []).

(** A transaction on the table of the directories or of the files. *)
Definition is_transaction (e : Event) : bool :=
  match e with
  | DirectoryTx _ _ => true
  | FileTx _ _ => true
  | _ => false
  end.

(** A call to the counter of a run or to the queue. *)
Definition is_queueing (e : Event) : bool :=
  match e with
  | Incr _ _ => true
  | Add _ _ _ => true
  | _ => false
  end.

(** The calls of [m] come in two stages: first calls that are not to the
    counter or the queue, then calls that are not transactions. *)
Definition staged {A} (m : Async A) : Prop :=
  ∀ w, ∃ before after,
    trace (m w).2 = trace w ++ before ++ after
    ∧ Forall (fun e => is_queueing e = false) before
    ∧ Forall (fun e => is_transaction e = false) after.

(** A call that adds a job adds the child job of one of [directories],
    and of one whose INCR resolved. *)
Definition adds_child_of (env : Env) (owner repo repositoryId : string)
    (directories : list GitHubContent.t) (e : Event) : Prop :=
  match e with
  | Add jobName child ok =>
      ∃ k dir, directories !! k = Some dir
               ∧ incr_ok env k = true
               ∧ jobName = "process-directory"
               ∧ child = child_job owner repo repositoryId dir
  | _ => True
  end.

(** ** Further scenarios *)

(** A listing that is not one of immediate children: the first file lies
    in the subdirectory [a], the second one in [b]. *)
Definition nested_listing (owner repo path : string)
  : option (list GitHubContent.t) :=
  if String.eqb path "" then
    Some [ GitHubContent.mk "a" "a" "dir" None;
           GitHubContent.mk "b" "b" "dir" None;
           GitHubContent.mk "a/x.txt" "x.txt" "file" None;
           GitHubContent.mk "b/y.txt" "y.txt" "file" None ]
  else None.

(** The database is down: no transaction commits and no update is
    stored. *)
Definition database_down : Env :=
  mkEnv false (fun _ => false) (fun _ => true) (fun _ => true) false true true
        (fun k => "dir-" +:+ Number_toString k).

(** The second batch of files fails. *)
Definition second_batch_fails : Env :=
  mkEnv true (fun i => negb (Nat.eqb i 1)) (fun _ => true) (fun _ => true)
        true true true (fun k => "dir-" +:+ Number_toString k).

(** Three files and one subdirectory. *)
Definition three_files (owner repo path : string)
  : option (list GitHubContent.t) :=
  if String.eqb path "" then
    Some [ GitHubContent.mk "lib" "lib" "dir" None;
           GitHubContent.mk "a.txt" "a.txt" "file" None;
           GitHubContent.mk "b.txt" "b.txt" "file" None;
           GitHubContent.mk "c.txt" "c.txt" "file" None ]
  else None.

(** The counter store rejects the decrement. *)
Definition decrement_fails : Env :=
  mkEnv true (fun _ => true) (fun _ => true) (fun _ => true) true true false
        (fun k => "dir-" +:+ Number_toString k).

(** A directory with a file, a subdirectory, a symbolic link and a
    submodule. *)
Definition mixed_listing (owner repo path : string)
  : option (list GitHubContent.t) :=
  if String.eqb path "" then
    Some [ GitHubContent.mk "README.md" "README.md" "file" (Some "hello");
           GitHubContent.mk "link" "link" "symlink" None;
           GitHubContent.mk "src" "src" "dir" None;
           GitHubContent.mk "vendor" "vendor" "submodule" None ]
  else None.

(** The queue rejects the job of the second subdirectory. *)
Definition second_add_fails : Env :=
  mkEnv true (fun _ => true) (fun _ => true) (fun k => negb (Nat.eqb k 1))
        true true true (fun k => "dir-" +:+ Number_toString k).

Definition three_directories : list GitHubContent.t :=
  [ GitHubContent.mk "a" "a" "dir" None;
    GitHubContent.mk "b" "b" "dir" None;
    GitHubContent.mk "c" "c" "dir" None ].

(** * Properties *)

(** ** Reasoning about promises *)

#[global] Instance unchanged_preorder {X} (f : World -> X) : PreOrder (unchanged f).
Proof.
  split; unfold unchanged; [ now intros w | intros x y z H1 H2; congruence ].
Qed.

#[global] Instance extends_preorder {X} (f : World -> list X) P :
  PreOrder (extends f P).
Proof.
  split.
  - intros w. exists []. split; [ now rewrite app_nil_r | constructor ].
  - intros x y z (l1 & E1 & F1) (l2 & E2 & F2). exists (l1 ++ l2). split.
    + rewrite E2, E1. now rewrite app_assoc.
    + now apply Forall_app.
Qed.

#[global] Instance only_fails_preorder : PreOrder only_fails.
Proof.
  split.
  - intros w r. now left.
  - intros x y z H1 H2 r. destruct (H2 r) as [E|E]; [ | now right ].
    rewrite E. apply H1.
Qed.

Section Preserves.
Context (R : relation World) `{!PreOrder R}.

Lemma preserves_resolve {A} (a : A) : preserves R (resolve a).
Proof. intros w. simpl. reflexivity. Qed.

Lemma preserves_reject {A} e : preserves R (@reject A e).
Proof. intros w. simpl. reflexivity. Qed.

Lemma preserves_bind {A B} (m : Async A) (k : A -> Async B) :
  preserves R m -> (∀ a, preserves R (k a)) -> preserves R (bind m k).
Proof.
  intros Hm Hk w. unfold bind. specialize (Hm w).
  destruct (m w) as [[a|e] w1]; simpl in *; [ | exact Hm ].
  etransitivity; [ exact Hm | apply Hk ].
Qed.

Lemma preserves_try_catch {A} (m : Async A) h :
  preserves R m -> (∀ e, preserves R (h e)) -> preserves R (try_catch m h).
Proof.
  intros Hm Hh w. unfold try_catch. specialize (Hm w).
  destruct (m w) as [[a|e] w1]; simpl in *; [ exact Hm | ].
  etransitivity; [ exact Hm | apply Hh ].
Qed.
End Preserves.

Ltac unfold_calls :=
  unfold fetchGithubContent, sendProcessingUpdate, prisma_transaction_directory,
    prisma_transaction_file, prisma_repository_update,
    prisma_repository_findUnique, redis_incr, redis_decr, directoryQueue_add,
    resolve, reject, log, insert_directories, insert_files, set_repository,
    set_redis, set_directoryQueue in *.

(** The updates of the processor are not the one that declares a run
    complete. *)
Ltac not_completion :=
  unfold completion_message, saved_batch_message, or_root;
  simpl; repeat case_match; discriminate.

(** Splits a goal [preserves R m] along the binds of [m]. *)
Ltac preserves_struct :=
  cbv zeta;
  repeat lazymatch goal with
    | |- preserves _ (resolve _) => apply preserves_resolve; [ typeclasses eauto ]
    | |- preserves _ (reject _) => apply preserves_reject; [ typeclasses eauto ]
    | |- preserves _ (bind _ _) =>
        apply preserves_bind; [ typeclasses eauto | | intros ? ]
    | |- preserves _ (try_catch _ _) =>
        apply preserves_try_catch; [ typeclasses eauto | | intros ? ]
    end.

(** Closes [preserves R m] for a single call [m] that leaves alone what
    [R] speaks of. *)
Ltac call_frame :=
  let w := fresh "w" in
  intros w; unfold_calls; repeat case_match; simpl;
  first [ reflexivity
        | exists []; simpl; split; [ symmetry; apply app_nil_r | constructor ] ].

#[global] Instance Forall_sequential (P : Event -> Prop) : Sequential (Forall P).
Proof. split; [ constructor | intros a b Ha Hb; now apply Forall_app ]. Qed.

#[global] Instance emits_preorder G `{!Sequential G} : PreOrder (emits G).
Proof.
  split.
  - intros w. exists []. split; [ now rewrite app_nil_r | apply sequential_nil ].
  - intros x y z (l1 & E1 & F1) (l2 & E2 & F2). exists (l1 ++ l2). split.
    + rewrite E2, E1. now rewrite app_assoc.
    + now apply sequential_app.
Qed.

(** ** Frame rules for the loops and for the processor *)

Section Frames.
Context (R : relation World) `{!PreOrder R}.
Context (FILE_BATCH_SIZE : nat) (env : Env).

Lemma save_batches_preserves repositoryId currentPath directoryId total i batches :
  (∀ i batch, preserves R (prisma_transaction_file env i
                             (map (file_data repositoryId directoryId) batch))) ->
  (∀ status message,
      message ≠ completion_message ->
      preserves R (sendProcessingUpdate repositoryId status message)) ->
  preserves R (save_batches env repositoryId currentPath directoryId total i batches).
Proof.
  intros Hfile Hupd. revert i.
  induction batches as [|batch rest IH]; intros i; simpl.
  - now apply preserves_resolve.
  - preserves_struct; auto; apply Hupd; not_completion.
Qed.

Lemma processFilesInBatches_preserves files repositoryId currentPath directoryId :
  (∀ i batch, preserves R (prisma_transaction_file env i
                             (map (file_data repositoryId directoryId) batch))) ->
  (∀ status message,
      message ≠ completion_message ->
      preserves R (sendProcessingUpdate repositoryId status message)) ->
  preserves R (processFilesInBatches FILE_BATCH_SIZE env files repositoryId
                 currentPath directoryId).
Proof.
  intros Hfile Hupd. unfold processFilesInBatches.
  preserves_struct; auto using save_batches_preserves;
    apply Hupd; not_completion.
Qed.

Lemma issue_incrs_preserves key k directories w :
  (∀ ok, preserves R (redis_incr ok key)) ->
  R w (issue_incrs env key k directories w).2.
Proof.
  intros Hincr. revert k w.
  induction directories as [|dir rest IH]; intros k w; simpl.
  - reflexivity.
  - specialize (Hincr (incr_ok env k) w).
    destruct (redis_incr (incr_ok env k) key w) as [o w1]. simpl in Hincr.
    specialize (IH (S k) w1).
    destruct (issue_incrs env key (S k) rest w1) as [oks w2]. simpl in *.
    etransitivity; eassumption.
Qed.

Lemma issue_adds_preserves owner repo repositoryId k directories w :
  (∀ ok jobName data, preserves R (directoryQueue_add ok jobName data)) ->
  R w (issue_adds env owner repo repositoryId k directories w).2.
Proof.
  intros Hadd. revert k w.
  induction directories as [|dir rest IH]; intros k w; simpl.
  - reflexivity.
  - destruct (incr_ok env k).
    + specialize (Hadd (add_ok env k) "process-directory"
                    (child_job owner repo repositoryId dir) w).
      destruct (directoryQueue_add _ _ _ w) as [o w1]. simpl in Hadd.
      specialize (IH (S k) w1).
      destruct (issue_adds env owner repo repositoryId (S k) rest w1) as [oks w2].
      simpl in *. etransitivity; eassumption.
    + specialize (IH (S k) w).
      destruct (issue_adds env owner repo repositoryId (S k) rest w) as [oks w2].
      exact IH.
Qed.

Lemma queue_subdirectories_preserves owner repo repositoryId directories :
  (∀ ok, preserves R (redis_incr ok (pending_jobs repositoryId))) ->
  (∀ ok jobName data, preserves R (directoryQueue_add ok jobName data)) ->
  preserves R (queue_subdirectories env owner repo repositoryId directories).
Proof.
  intros Hincr Hadd w. unfold queue_subdirectories.
  pose proof (issue_incrs_preserves (pending_jobs repositoryId) 0 directories w
                Hincr) as H1.
  destruct (issue_incrs env (pending_jobs repositoryId) 0 directories w)
    as [incrs w1].
  pose proof (issue_adds_preserves owner repo repositoryId 0 directories w1
                Hadd) as H2.
  destruct (issue_adds env owner repo repositoryId 0 directories w1)
    as [adds w2].
  simpl in *. assert (R w w2) by (etransitivity; eassumption).
  repeat case_match; assumption.
Qed.

Context (data : JobData.t).
Let repositoryId := JobData.repositoryId data.

Hypothesis Hfetch :
  ∀ owner repo path, preserves R (fetchGithubContent owner repo path repositoryId).
Hypothesis Hupdate :
  ∀ status message,
    message ≠ completion_message ->
    preserves R (sendProcessingUpdate repositoryId status message).
Hypothesis Hdirectories :
  ∀ directories,
    preserves R (prisma_transaction_directory env
                   (directoryData ∅ repositoryId directories)).
Hypothesis Hfiles :
  ∀ directoryId i batch,
    preserves R (prisma_transaction_file env i
                   (map (file_data repositoryId directoryId) batch)).
Hypothesis Hqueue :
  ∀ owner repo directories,
    preserves R (queue_subdirectories env owner repo repositoryId directories).

Lemma directoryWorker_try_preserves :
  preserves R (directoryWorker_try FILE_BATCH_SIZE env data).
Proof.
  unfold directoryWorker_try. fold repositoryId.
  preserves_struct;
    auto using processFilesInBatches_preserves, save_batches_preserves;
    apply Hupdate; not_completion.
Qed.

Lemma after_directories_preserves items :
  preserves R (after_directories FILE_BATCH_SIZE env data items).
Proof.
  unfold after_directories. fold repositoryId.
  preserves_struct;
    auto using processFilesInBatches_preserves, save_batches_preserves;
    apply Hupdate; not_completion.
Qed.

Hypothesis Hfail :
  preserves R (prisma_repository_update env repositoryId FAILED).

Lemma directoryWorker_catch_preserves e :
  preserves R (directoryWorker_catch env data e).
Proof.
  unfold directoryWorker_catch. fold repositoryId. preserves_struct; auto;
    apply Hupdate; not_completion.
Qed.

Lemma directoryWorker_preserves :
  preserves R (directoryWorker FILE_BATCH_SIZE env data).
Proof.
  unfold directoryWorker. apply preserves_try_catch; [ assumption | | ].
  - apply directoryWorker_try_preserves.
  - intros e. unfold directoryWorker_catch. fold repositoryId.
    preserves_struct; auto; apply Hupdate; not_completion.
Qed.
End Frames.

(** The processor, up to the point where the directories are persisted. *)
Lemma directoryWorker_try_run FILE_BATCH_SIZE env data w items :
  github w (JobData.owner data) (JobData.repo data) (JobData.path data)
  = Some items ->
  directoryWorker_try FILE_BATCH_SIZE env data w =
  let directoryData :=
    directoryData ∅ (JobData.repositoryId data) (directories_of items) in
  if directory_tx_ok env then
    after_directories FILE_BATCH_SIZE env data items
      (insert_directories (imap (created_directory env) directoryData)
         (log (DirectoryTx directoryData true) (fetched data w)))
  else (Rejected PersistenceError,
        log (DirectoryTx directoryData false) (fetched data w)).
Proof.
  intros Hgh. unfold directoryWorker_try, bind at 1.
  unfold fetchGithubContent. rewrite Hgh.
  unfold bind at 1. unfold sendProcessingUpdate at 1.
  unfold bind at 1. unfold prisma_transaction_directory. cbv zeta.
  fold (directories_of items). fold (fetched data w).
  destruct (directory_tx_ok env); reflexivity.
Qed.

Lemma directoryWorker_try_unreachable FILE_BATCH_SIZE env data w :
  github w (JobData.owner data) (JobData.repo data) (JobData.path data) = None ->
  directoryWorker_try FILE_BATCH_SIZE env data w =
  (Rejected FetchError,
   log (Fetch (JobData.owner data) (JobData.repo data) (JobData.path data)
          (JobData.repositoryId data) false) w).
Proof.
  intros Hgh. unfold directoryWorker_try, bind at 1.
  unfold fetchGithubContent. now rewrite Hgh.
Qed.

Section CompletedFrames.
Context (R : relation World) `{!PreOrder R} (env : Env) (data : JobData.t).
Let repositoryId := JobData.repositoryId data.

Hypothesis Hfind : preserves R (prisma_repository_findUnique env repositoryId).
Hypothesis Hsuccess :
  preserves R (prisma_repository_update env repositoryId SUCCESS).
Hypothesis Hupdate :
  ∀ status message, preserves R (sendProcessingUpdate repositoryId status message).

(** The handler once the counter is decremented. *)
Lemma on_completed_after_decr remainingJobs :
  preserves R
    (await status <- prisma_repository_findUnique env repositoryId;
     if bool_decide (remainingJobs = 0%Z ∧ status = Some PROCESSING) then
       await _ <- prisma_repository_update env repositoryId SUCCESS;
       await _ <- sendProcessingUpdate repositoryId SUCCESS
                    "All directories and files have been processed.";
       resolve tt
     else resolve tt).
Proof.
  apply preserves_bind; [ assumption | assumption | ].
  intros status. case_bool_decide; preserves_struct; auto.
Qed.

Hypothesis Hdecr :
  preserves R (redis_decr (decr_ok env) (pending_jobs repositoryId)).

Lemma on_completed_preserves : preserves R (on_completed env data).
Proof.
  unfold on_completed. fold repositoryId.
  apply preserves_bind; [ assumption | assumption | ].
  intros v. apply on_completed_after_decr.
Qed.
End CompletedFrames.

(** ** The completion handler *)

(** C1. The completion handler first decrements the run's counter, which
    yields the value [v] left, and then reads the run's status.  When no
    call fails: if [v = 0] and the status read is [PROCESSING] it sets the
    status to [SUCCESS] and emits the [SUCCESS] update; in every other case
    it leaves every status alone and emits nothing.  Whatever fails, a
    status changes only under that same condition. *)
Theorem on_completed_transition_iff (env : Env) (data : JobData.t) (w : World) :
  let repositoryId := JobData.repositoryId data in
  let key := pending_jobs repositoryId in
  let v := (counter w key - 1)%Z in
  let w' := (on_completed env data w).2 in
  (repository w' ≠ repository w ->
   v = 0%Z ∧ status_of w repositoryId = Some PROCESSING
   ∧ repository w' = <[repositoryId := SUCCESS]> (repository w))
  ∧ (faultless env ->
     (on_completed env data w).1 = Resolved tt
     ∧ redis w' = <[key := v]> (redis w)
     ∧ (v = 0%Z ∧ status_of w repositoryId = Some PROCESSING ->
        repository w' = <[repositoryId := SUCCESS]> (repository w)
        ∧ trace w' = trace w ++ [Decr key true; RepositoryFind repositoryId true;
                                 RepositoryUpdate repositoryId SUCCESS true;
                                 completion_update repositoryId])
     ∧ (¬ (v = 0%Z ∧ status_of w repositoryId = Some PROCESSING) ->
        repository w' = repository w
        ∧ trace w' = trace w ++ [Decr key true; RepositoryFind repositoryId true])).
Proof.
  intros rid key v w'. subst w'. unfold on_completed, status_of. fold rid key.
  split.
  - unfold bind, redis_decr, prisma_repository_findUnique.
    destruct (decr_ok env); simpl; [ | congruence ].
    destruct (repository_find_ok env); simpl; [ | congruence ].
    fold v. case_bool_decide as Hc; simpl; [ | congruence ].
    destruct Hc as [Hv Hs]. unfold prisma_repository_update. simpl.
    rewrite Hs. destruct (repository_update_ok env); simpl; [ | congruence ].
    intros _. split; [ assumption | split; reflexivity ].
  - intros (_ & _ & _ & _ & Hu & Hf & Hd).
    unfold bind, redis_decr, prisma_repository_findUnique.
    rewrite Hd. simpl. rewrite Hf. simpl. fold v.
    case_bool_decide as Hc; simpl.
    + destruct Hc as [Hv Hs]. unfold prisma_repository_update. simpl.
      rewrite Hs, Hu. simpl.
      split; [ reflexivity | split; [ reflexivity | split ] ].
      * intros _. split; [ reflexivity | ]. now rewrite <- !app_assoc.
      * intros Hn. exfalso. apply Hn. now split.
    + split; [ reflexivity | split; [ reflexivity | split ] ].
      * intros Hn. contradiction.
      * intros _. split; [ reflexivity | ]. now rewrite <- !app_assoc.
Qed.

Lemma on_completed_transition_iff_witness :
  faultless no_faults
  ∧ status_of (on_completed no_faults (JobData.mk "o" "p" "r1" "")
                 (one_run no_content "r1" PROCESSING 1)).2 "r1" = Some SUCCESS.
Proof.
  assert (Hf : faultless no_faults) by (now repeat split).
  split; [ exact Hf | ].
  pose proof (on_completed_transition_iff no_faults (JobData.mk "o" "p" "r1" "")
                (one_run no_content "r1" PROCESSING 1)) as [_ H].
  destruct (H Hf) as (_ & _ & H1 & _).
  destruct H1 as [H1 _]; [ split; reflexivity | ].
  unfold status_of. rewrite H1. reflexivity.
Defined.

(** ** Parent and directory references *)

Lemma directoryData_empty_map repositoryId directories :
  Forall (fun d => DirectoryCreate.parentId d = None)
         (directoryData ∅ repositoryId directories).
Proof.
  unfold directoryData. apply Forall_forall. intros d Hd.
  apply list_elem_of_In, in_map_iff in Hd. destruct Hd as (dir & <- & _). simpl.
  now rewrite lookup_empty.
Qed.

Lemma created_directories_no_parent env repositoryId directories :
  Forall (fun d => Directory.parentId d = None)
         (imap (created_directory env)
               (directoryData ∅ repositoryId directories)).
Proof.
  apply Forall_forall. intros d Hd.
  apply elem_of_lookup_imap in Hd.
  destruct Hd as (i & c & -> & Hc). simpl.
  pose proof (directoryData_empty_map repositoryId directories) as HF.
  rewrite Forall_forall in HF. apply HF.
  eapply list_elem_of_lookup_2. exact Hc.
Qed.

Lemma directoryWorker_directory_rows FILE_BATCH_SIZE env data :
  preserves (extends directory (fun d => Directory.parentId d = None))
            (directoryWorker FILE_BATCH_SIZE env data).
Proof.
  apply directoryWorker_preserves; try typeclasses eauto; intros; try call_frame.
  - intros w. unfold prisma_transaction_directory.
    destruct (directory_tx_ok env); simpl.
    + eexists. split; [ reflexivity | apply created_directories_no_parent ].
    + exists []. simpl. split; [ symmetry; apply app_nil_r | constructor ].
  - apply queue_subdirectories_preserves; try typeclasses eauto;
      intros; call_frame.
Qed.

(** C3 (what the code does).  Every directory row a job creates has a null
    parent, whatever the job's path: the map the parent is looked up in is
    still empty when the rows are built.  For the job of [src], whose own
    row exists under the identifier [dir-src], the row of [src/lib] is
    created with a null parent. *)
Theorem directory_parent_is_always_null :
  (∀ FILE_BATCH_SIZE env data w,
      ∃ rows,
        directory (directoryWorker FILE_BATCH_SIZE env data w).2
        = directory w ++ rows
        ∧ Forall (fun d => Directory.parentId d = None) rows)
  ∧ directory (directoryWorker 100 no_faults src_job src_world).2
    = [ Directory.mk "dir-src" "src" "r1" None;
        Directory.mk "dir-0" "src/lib" "r1" None ].
Proof.
  split.
  - intros B env data w. apply directoryWorker_directory_rows.
  - vm_compute. reflexivity.
Qed.

(** *** Paths of immediate children *)

Lemma split_nonempty sep s : split sep s ≠ [].
Proof.
  destruct s as [|c s]; simpl; [ discriminate | ].
  destruct (Ascii.eqb c sep); [ discriminate | ].
  destruct (split sep s); discriminate.
Qed.

Lemma split_app sep s1 s2 :
  split sep (s1 +:+ String sep s2) = split sep s1 ++ split sep s2.
Proof.
  induction s1 as [|c s1 IH]; simpl.
  - now rewrite Ascii.eqb_refl.
  - destruct (Ascii.eqb c sep); [ now rewrite IH | ].
    rewrite IH. pose proof (split_nonempty sep s1) as Hne.
    destruct (split sep s1) as [|seg segs]; [ contradiction | reflexivity ].
Qed.

Lemma join_split (sep : ascii) s :
  join (String sep "") (split sep s) = s.
Proof.
  unfold join. induction s as [|c s IH]; simpl; [ reflexivity | ].
  destruct (Ascii.eqb_spec c sep) as [->|Hne].
  - pose proof (split_nonempty sep s) as Hn. simpl.
    destruct (split sep s) as [|seg segs]; [ contradiction | ].
    now rewrite IH.
  - pose proof (split_nonempty sep s) as Hn.
    destruct (split sep s) as [|seg segs]; [ contradiction | ].
    simpl in *. destruct segs; simpl in *; now rewrite <- IH.
Qed.

Lemma parent_path_child path name :
  segment name -> parent_path (child_path path name) = path.
Proof.
  intros [Hne Hseg]. unfold parent_path, child_path.
  destruct path as [|c path].
  - rewrite Hseg. reflexivity.
  - change (String c path +:+ "/" +:+ name)
      with (String c path +:+ String "/" name).
    rewrite split_app, Hseg, removelast_last. apply (join_split "/").
Qed.

Lemma length_append s1 s2 :
  String.length (s1 +:+ s2) = String.length s1 + String.length s2.
Proof. induction s1 as [|c s1 IH]; simpl; [ reflexivity | now rewrite IH ]. Qed.

Lemma child_path_not_parent path name :
  segment name -> child_path path name ≠ path.
Proof.
  intros [Hne _] E. unfold child_path in E. destruct path as [|c path].
  - contradiction.
  - apply (f_equal String.length) in E.
    rewrite !length_append in E. simpl in E. lia.
Qed.

Lemma child_path_not_empty path name :
  segment name -> child_path path name ≠ "".
Proof.
  intros [Hne _]. unfold child_path. destruct path; [ assumption | discriminate ].
Qed.

Lemma dirPath_of_children path files :
  immediate_children path files ->
  dirPath_of files = path ∨ dirPath_of files = "".
Proof.
  intros Hc. unfold dirPath_of. destruct files as [|f files]; simpl.
  - now right.
  - left. apply Forall_cons in Hc as [[Hseg Hp] _].
    fold (parent_path (GitHubContent.path f)). rewrite Hp.
    now apply parent_path_child.
Qed.

Lemma set_all_lookup_None (directoryMap : gmap string Directory.t) rows key :
  directoryMap !! key = None ->
  Forall (fun d => Directory.path d ≠ key) rows ->
  set_all directoryMap rows !! key = None.
Proof.
  unfold set_all. revert directoryMap.
  induction rows as [|d rows IH]; intros m Hm Hrows; simpl; [ assumption | ].
  apply Forall_cons in Hrows as [Hd Hrows].
  apply IH; [ | assumption ]. now rewrite lookup_insert_ne.
Qed.

Lemma immediate_children_filter path (P : GitHubContent.t -> Prop)
    `{!∀ x, Decision (P x)} items :
  immediate_children path items -> immediate_children path (filter P items).
Proof.
  unfold immediate_children. rewrite !Forall_forall. intros Hall x Hx.
  apply list_elem_of_filter in Hx as [_ Hx]. now apply Hall.
Qed.

(** The lookup that should give the job's own directory finds nothing. *)
Lemma directoryId_of_children env repositoryId path items :
  immediate_children path items ->
  directoryId_of env repositoryId items = None.
Proof.
  intros Hc. unfold directoryId_of.
  assert (Hrows : ∀ key, key = path ∨ key = "" ->
            Forall (fun d => Directory.path d ≠ key)
              (imap (created_directory env)
                 (directoryData ∅ repositoryId (directories_of items)))).
  { intros key Hkey. apply Forall_forall. intros d Hd.
    apply elem_of_lookup_imap in Hd as (i & c & -> & Hc').
    apply list_elem_of_lookup_2, list_elem_of_In, in_map_iff in Hc'.
    destruct Hc' as (dir & <- & Hdir). simpl.
    apply list_elem_of_In, list_elem_of_filter in Hdir as [_ Hdir].
    unfold immediate_children in Hc. rewrite Forall_forall in Hc.
    destruct (Hc dir Hdir) as [Hseg ->].
    destruct Hkey as [->| ->];
      [ now apply child_path_not_parent | now apply child_path_not_empty ]. }
  rewrite set_all_lookup_None; [ reflexivity | apply lookup_empty | ].
  apply Hrows. apply dirPath_of_children.
  now apply immediate_children_filter.
Qed.

Lemma file_rows_directoryId env i repositoryId directoryId batch :
  preserves (extends file (fun f => File.directoryId f = directoryId))
    (prisma_transaction_file env i (map (file_data repositoryId directoryId) batch)).
Proof.
  intros w. unfold prisma_transaction_file.
  destruct (file_tx_ok env i); simpl.
  - eexists. split; [ reflexivity | ].
    apply Forall_forall. intros f Hf.
    apply list_elem_of_In, in_map_iff in Hf. now destruct Hf as (x & <- & _).
  - exists []. simpl. split; [ symmetry; apply app_nil_r | constructor ].
Qed.

(** C4 (what the code does).  When the listing holds immediate children of
    the job's path, as the content host returns them, every file row the
    job persists has a null directory identifier, at the root and below
    it: the map the identifier is looked up in holds the rows of the
    subdirectories only, never the row of the job's own directory. *)
Theorem file_directoryId_is_always_null
    (FILE_BATCH_SIZE : nat) (env : Env) (data : JobData.t) (w : World)
    (items : list GitHubContent.t) :
  github w (JobData.owner data) (JobData.repo data) (JobData.path data)
  = Some items ->
  immediate_children (JobData.path data) items ->
  ∃ rows,
    file (directoryWorker FILE_BATCH_SIZE env data w).2 = file w ++ rows
    ∧ Forall (fun f => File.directoryId f = None) rows.
Proof.
  intros Hgh Hc.
  set (R := extends file (fun f => File.directoryId f = None)).
  change (R w (directoryWorker FILE_BATCH_SIZE env data w).2).
  assert (Hcatch : ∀ e, preserves R (directoryWorker_catch env data e)).
  { intros e. apply directoryWorker_catch_preserves; try typeclasses eauto;
      intros; call_frame. }
  assert (Hafter : preserves R (after_directories FILE_BATCH_SIZE env data items)).
  { unfold after_directories.
    rewrite (directoryId_of_children _ _ _ _ Hc).
    preserves_struct; try call_frame.
    - apply processFilesInBatches_preserves; try typeclasses eauto;
        intros; [ apply file_rows_directoryId | call_frame ].
    - apply queue_subdirectories_preserves; try typeclasses eauto;
        intros; call_frame. }
  unfold directoryWorker, try_catch.
  rewrite (directoryWorker_try_run _ _ _ _ _ Hgh). cbv zeta.
  destruct (directory_tx_ok env).
  - match goal with |- context [after_directories _ _ _ _ ?w0] =>
      assert (H0 : R w w0);
      [ exists []; simpl; split; [ symmetry; apply app_nil_r | constructor ] | ];
      specialize (Hafter w0);
      destruct (after_directories FILE_BATCH_SIZE env data items w0)
        as [[a|e'] w1]
    end; simpl in *.
    + etransitivity; eassumption.
    + etransitivity; [ exact H0 | ].
      etransitivity; [ exact Hafter | apply Hcatch ].
  - etransitivity; [ | apply Hcatch ].
    exists []. simpl. split; [ symmetry; apply app_nil_r | constructor ].
Qed.

Lemma src_listing_children :
  immediate_children "src"
    [ GitHubContent.mk "src/lib" "lib" "dir" None;
      GitHubContent.mk "src/main.ts" "main.ts" "file" (Some "export {}") ].
Proof.
  repeat constructor; simpl; discriminate.
Qed.

Lemma file_directoryId_is_always_null_witness :
  ∃ rows,
    file (directoryWorker 100 no_faults src_job src_world).2
    = file src_world ++ rows
    ∧ Forall (fun f => File.directoryId f = None) rows.
Proof.
  apply (file_directoryId_is_always_null 100 no_faults src_job src_world
           [ GitHubContent.mk "src/lib" "lib" "dir" None;
             GitHubContent.mk "src/main.ts" "main.ts" "file" (Some "export {}") ]).
  - reflexivity.
  - exact src_listing_children.
Defined.

(** The file of [src] is persisted with a null directory, although the row
    of [src] exists under the identifier [dir-src]. *)
Example src_file_has_no_directory :
  file (directoryWorker 100 no_faults src_job src_world).2
  = [ File.mk "src/main.ts" "main.ts" "export {}" "r1" None ].
Proof. vm_compute. reflexivity. Qed.

(** ** Batch persistence *)

Section Batches.
Context {A : Type} (B : nat) (HB : 0 < B) (files : list A).

Lemma fileBatches_from_concat fuel i :
  length files <= fuel + i ->
  concat (fileBatches_from B fuel files i) = drop i files.
Proof.
  revert i. induction fuel as [|fuel IH]; intros i Hfuel; simpl.
  - symmetry. apply drop_ge. lia.
  - destruct (Nat.ltb_spec i (length files)) as [Hlt|Hge].
    + simpl. rewrite IH by lia. unfold slice.
      replace (i + B - i) with B by lia.
      rewrite <- (drop_drop files B i). apply take_drop.
    + symmetry. apply drop_ge. lia.
Qed.

Lemma ceil_step n : 0 < n -> (n + B - 1) / B = S ((n - B + B - 1) / B).
Proof.
  intros Hn. destruct (Nat.le_gt_cases n B) as [Hle|Hgt].
  - replace (n - B + B - 1) with (B - 1) by lia.
    rewrite (Nat.div_small (B - 1) B) by lia.
    symmetry. apply (Nat.div_unique _ _ _ (n - 1)); lia.
  - replace (n + B - 1) with ((n - B + B - 1) + 1 * B) by lia.
    rewrite Nat.div_add by lia. lia.
Qed.

Lemma fileBatches_from_length fuel i :
  length files <= fuel + i ->
  length (fileBatches_from B fuel files i) = (length files - i + B - 1) / B.
Proof.
  revert i. induction fuel as [|fuel IH]; intros i Hfuel; simpl.
  - replace (length files - i + B - 1) with (B - 1) by lia.
    symmetry. apply Nat.div_small. lia.
  - destruct (Nat.ltb_spec i (length files)) as [Hlt|Hge].
    + simpl. rewrite IH by lia. rewrite (ceil_step (length files - i)) by lia.
      do 2 f_equal. lia.
    + simpl. replace (length files - i + B - 1) with (B - 1) by lia.
      symmetry. apply Nat.div_small. lia.
Qed.

Lemma fileBatches_from_lookup fuel i j batch :
  fileBatches_from B fuel files i !! j = Some batch ->
  i + j * B < length files
  ∧ length batch = Nat.min B (length files - (i + j * B)).
Proof.
  revert i j. induction fuel as [|fuel IH]; intros i j; simpl; [ discriminate | ].
  destruct (Nat.ltb_spec i (length files)) as [Hlt|Hge]; [ | discriminate ].
  destruct j as [|j]; simpl.
  - intros [= <-]. split; [ lia | ]. unfold slice.
    rewrite length_take, length_drop. lia.
  - intros Hj. apply IH in Hj. split; [ lia | ].
    destruct Hj as [_ ->]. f_equal. lia.
Qed.

Lemma fileBatches_concat : concat (fileBatches B files) = files.
Proof. unfold fileBatches. rewrite fileBatches_from_concat by lia. apply drop_0. Qed.

Lemma fileBatches_length :
  length (fileBatches B files) = (length files + B - 1) / B.
Proof.
  unfold fileBatches. rewrite fileBatches_from_length by lia.
  now rewrite Nat.sub_0_r.
Qed.

Lemma fileBatches_sizes j batch :
  fileBatches B files !! j = Some batch ->
  0 < length batch <= B
  ∧ (S j < length (fileBatches B files) -> length batch = B).
Proof.
  intros Hj. pose proof (fileBatches_from_lookup _ _ _ _ Hj) as [Hlt Hlen].
  split; [ lia | ]. intros Hnext.
  destruct (lookup_lt_is_Some_2 (fileBatches B files) (S j) Hnext) as [b' Hb'].
  apply fileBatches_from_lookup in Hb' as [Hlt' _]. simpl in *. lia.
Qed.
End Batches.

Section SaveBatches.
Context (env : Env) (repositoryId currentPath : string)
        (directoryId : option string) (total : nat).

Let rows_of (batches : list (list GitHubContent.t)) : list File.t :=
  concat (map (map (file_data repositoryId directoryId)) batches).

(** Every batch commits: the loop runs to its end. *)
Lemma save_batches_ok batches i w :
  (∀ j, j < length batches -> file_tx_ok env (i + j) = true) ->
  save_batches env repositoryId currentPath directoryId total i batches w
  = (Resolved tt,
     with_files (rows_of batches)
       (batch_events repositoryId currentPath directoryId total i batches) w).
Proof.
  revert i w. induction batches as [|batch rest IH]; intros i w Hok.
  - simpl. unfold resolve, with_files. destruct w. simpl.
    now rewrite !app_nil_r.
  - simpl. unfold bind at 1. unfold prisma_transaction_file.
    rewrite <- (Nat.add_0_r i) at 1. rewrite (Hok 0) by (simpl; lia).
    unfold bind at 1. unfold sendProcessingUpdate.
    rewrite IH.
    + f_equal. subst rows_of. cbv beta. destruct w.
      unfold with_files, log, insert_files. simpl.
      now rewrite <- !app_assoc.
    + intros j Hj. rewrite <- (Hok (S j)) by (simpl; lia). f_equal. lia.
Qed.

(** The batch of index [k] is the first that fails: the batches before it
    are committed, the failed one is attempted, no later one is. *)
Lemma save_batches_fail batches i k batch w :
  batches !! k = Some batch ->
  (∀ j, j < k -> file_tx_ok env (i + j) = true) ->
  file_tx_ok env (i + k) = false ->
  save_batches env repositoryId currentPath directoryId total i batches w
  = (Rejected PersistenceError,
     with_files (rows_of (take k batches))
       (batch_events repositoryId currentPath directoryId total i (take k batches)
        ++ [FileTx (map (file_data repositoryId directoryId) batch) false]) w).
Proof.
  revert i k w. induction batches as [|b rest IH]; intros i k w Hk Hok Hfail.
  - discriminate.
  - destruct k as [|k]; simpl in Hk.
    + injection Hk as ->. simpl. unfold bind at 1. unfold prisma_transaction_file.
      rewrite Nat.add_0_r in Hfail. rewrite Hfail.
      f_equal. destruct w. unfold with_files, log. simpl.
      now rewrite !app_nil_r.
    + simpl. unfold bind at 1. unfold prisma_transaction_file.
      rewrite <- (Nat.add_0_r i) at 1. rewrite (Hok 0) by lia.
      unfold bind at 1. unfold sendProcessingUpdate.
      rewrite (IH (S i) k _ Hk).
      * f_equal. subst rows_of. cbv beta. destruct w.
        unfold with_files, log, insert_files. simpl.
        now rewrite <- !app_assoc.
      * intros j Hj. rewrite <- (Hok (S j)) by lia. f_equal. lia.
      * rewrite <- Hfail. f_equal. lia.
Qed.
End SaveBatches.

Section ProcessFiles.
Context (B : nat) (env : Env) (files : list GitHubContent.t)
        (repositoryId currentPath : string) (directoryId : option string).

Let batches := fileBatches B files.
Let total := length batches.
Let rows_of (batches : list (list GitHubContent.t)) : list File.t :=
  concat (map (map (file_data repositoryId directoryId)) batches).

Lemma processFilesInBatches_ok w :
  (∀ j, j < total -> file_tx_ok env j = true) ->
  processFilesInBatches B env files repositoryId currentPath directoryId w
  = (Resolved tt,
     with_files (rows_of batches)
       (Update repositoryId PROCESSING
          (processing_files_message (length files) currentPath)
        :: batch_events repositoryId currentPath directoryId total 0 batches
        ++ [Update repositoryId SUCCESS
              (finished_files_message (length files) currentPath)]) w).
Proof.
  intros Hok. unfold processFilesInBatches, try_catch.
  unfold bind at 1. unfold sendProcessingUpdate at 1. cbv zeta.
  unfold bind at 1. fold batches. fold total.
  rewrite save_batches_ok by (intros j Hj; apply Hok; assumption).
  unfold bind, sendProcessingUpdate, resolve.
  f_equal. destruct w. unfold with_files, log. simpl.
  now rewrite <- !app_assoc.
Qed.

Lemma processFilesInBatches_fail k batch w :
  batches !! k = Some batch ->
  (∀ j, j < k -> file_tx_ok env j = true) ->
  file_tx_ok env k = false ->
  processFilesInBatches B env files repositoryId currentPath directoryId w
  = (Rejected PersistenceError,
     with_files (rows_of (take k batches))
       (Update repositoryId PROCESSING
          (processing_files_message (length files) currentPath)
        :: batch_events repositoryId currentPath directoryId total 0
             (take k batches)
        ++ [FileTx (map (file_data repositoryId directoryId) batch) false;
            Update repositoryId FAILED (failed_files_message currentPath)]) w).
Proof.
  intros Hk Hok Hfail. unfold processFilesInBatches, try_catch.
  unfold bind at 1. unfold sendProcessingUpdate at 1. cbv zeta.
  unfold bind at 1. fold batches. fold total.
  rewrite (save_batches_fail _ _ _ _ _ batches 0 k batch) by assumption.
  unfold bind, sendProcessingUpdate, reject.
  f_equal. destruct w. unfold with_files, log. simpl.
  now rewrite <- !app_assoc.
Qed.
End ProcessFiles.

(** ** The error path of the processor *)

Lemma directoryWorker_try_repository B env data :
  preserves (unchanged repository) (directoryWorker_try B env data).
Proof.
  apply directoryWorker_try_preserves; try typeclasses eauto;
    intros; try call_frame.
  apply queue_subdirectories_preserves; try typeclasses eauto; intros; call_frame.
Qed.

(** An error raised in the [try] block is caught and not rethrown: the
    processor resolves, with no value. *)
Lemma directoryWorker_swallows B env data w e w1 :
  directoryWorker_try B env data w = (Rejected e, w1) ->
  repository_update_ok env = true ->
  is_Some (status_of w (JobData.repositoryId data)) ->
  directoryWorker B env data w = (Resolved None, failed_run data w1).
Proof.
  intros Htry Hok [st Hst]. unfold directoryWorker, try_catch. rewrite Htry.
  pose proof (directoryWorker_try_repository B env data w) as Hrepo.
  rewrite Htry in Hrepo. unfold unchanged in Hrepo. simpl in Hrepo.
  unfold directoryWorker_catch, bind, prisma_repository_update.
  unfold status_of in Hst. rewrite <- Hrepo in Hst. rewrite Hst, Hok. reflexivity.
Qed.

Lemma failed_run_status data w :
  status_of (failed_run data w) (JobData.repositoryId data) = Some FAILED.
Proof. unfold status_of, failed_run. simpl. apply lookup_insert_eq. Qed.

Lemma batch_events_lookup repositoryId currentPath directoryId total i batches
    j batch :
  batches !! j = Some batch ->
  batch_events repositoryId currentPath directoryId total i batches !! (2 * j)
  = Some (FileTx (map (file_data repositoryId directoryId) batch) true)
  ∧ batch_events repositoryId currentPath directoryId total i batches
    !! (2 * j + 1)
    = Some (saved_batch_update repositoryId currentPath total (i + j)
              (length batch)).
Proof.
  revert i j. induction batches as [|b rest IH]; intros i j Hj; [ discriminate | ].
  destruct j as [|j]; simpl in Hj.
  - injection Hj as ->. simpl. rewrite Nat.add_0_r. now split.
  - replace (2 * S j) with (S (S (2 * j))) by lia. simpl.
    replace (i + S j) with (S i + j) by lia.
    destruct (IH (S i) j Hj) as [H1 H2]. split; [ exact H1 | ].
    replace (j + (j + 0)) with (2 * j) by lia. exact H2.
Qed.

Lemma batch_events_length repositoryId currentPath directoryId total i batches :
  length (batch_events repositoryId currentPath directoryId total i batches)
  = 2 * length batches.
Proof.
  revert i. induction batches as [|b rest IH]; intros i; simpl; [ reflexivity | ].
  rewrite IH. lia.
Qed.

(** C6. With a positive batch size [B], [n] files make [ceil(n / B)]
    batches that together are the files in order, each of [B] files except
    a last one that may hold fewer.  When every transaction commits, the
    helper issues, for the batch of index [i], one transaction with the
    rows of the batch followed by one update whose text is
    "Saved batch i+1/total (size files) for path", and nothing else
    between its first update and its last, and resolves.  When the batch
    of index [k] is the first to fail,
    the batches before it are committed, no later batch is attempted, a
    [FAILED] update is emitted and the error is rethrown; the processor,
    when this happens in the job of a listing, then sets the run to
    [FAILED]. *)
Theorem batch_persistence (B : nat) (env : Env) (files : list GitHubContent.t)
    (repositoryId currentPath : string) (directoryId : option string)
    (w : World) :
  0 < B ->
  let batches := fileBatches B files in
  let total := length batches in
  let row := file_data repositoryId directoryId in
  let start :=
    Update repositoryId PROCESSING
      (processing_files_message (length files) currentPath) in
  let saved := batch_events repositoryId currentPath directoryId total 0 in
  let run :=
    processFilesInBatches B env files repositoryId currentPath directoryId in
  (total = (length files + B - 1) / B
   ∧ concat batches = files
   ∧ ∀ j batch, batches !! j = Some batch ->
       0 < length batch <= B ∧ (S j < total -> length batch = B))
  ∧ (length (saved batches) = 2 * total
     ∧ ∀ i batch, batches !! i = Some batch ->
         saved batches !! (2 * i) = Some (FileTx (map row batch) true)
         ∧ saved batches !! (2 * i + 1)
           = Some (Update repositoryId PROCESSING
                     ("Saved batch " +:+ Number_toString (i + 1) +:+ "/"
                      +:+ Number_toString total +:+ " ("
                      +:+ Number_toString (length batch) +:+ " files) for "
                      +:+ match currentPath with
                          | EmptyString => "root"
                          | _ => currentPath
                          end)))
  ∧ ((∀ j, j < total -> file_tx_ok env j = true) ->
     run w = (Resolved tt,
              with_files (map row files)
                (start :: saved batches
                 ++ [Update repositoryId SUCCESS
                       (finished_files_message (length files) currentPath)]) w))
  ∧ (∀ k batch,
       batches !! k = Some batch ->
       (∀ j, j < k -> file_tx_ok env j = true) ->
       file_tx_ok env k = false ->
       run w = (Rejected PersistenceError,
                with_files (map row (concat (take k batches)))
                  (start :: saved (take k batches)
                   ++ [FileTx (map row batch) false;
                       Update repositoryId FAILED
                         (failed_files_message currentPath)]) w)
       ∧ ∀ data items w0,
           JobData.repositoryId data = repositoryId ->
           JobData.path data = currentPath ->
           github w0 (JobData.owner data) (JobData.repo data) currentPath
           = Some items ->
           files_of items = files ->
           directoryId_of env repositoryId items = directoryId ->
           directory_tx_ok env = true ->
           repository_update_ok env = true ->
           is_Some (status_of w0 repositoryId) ->
           (directoryWorker B env data w0).1 = Resolved None
           ∧ status_of (directoryWorker B env data w0).2 repositoryId
             = Some FAILED).
Proof.
  intros HB batches total row start saved run.
  split; [ | split; [ | split ] ].
  - split; [ apply fileBatches_length; assumption | ].
    split; [ apply fileBatches_concat; assumption | ].
    intros j batch Hj. now apply fileBatches_sizes.
  - split; [ apply batch_events_length | ].
    intros i batch Hi.
    exact (batch_events_lookup repositoryId currentPath directoryId total 0
             batches i batch Hi).
  - intros Hok. subst run. rewrite processFilesInBatches_ok by assumption.
    subst batches total row start saved. cbv beta.
    rewrite <- concat_map, (fileBatches_concat B HB files). reflexivity.
  - intros k batch Hk Hok Hfail.
    assert (Hrun : ∀ w',
      run w' = (Rejected PersistenceError,
                with_files (map row (concat (take k batches)))
                  (start :: saved (take k batches)
                   ++ [FileTx (map row batch) false;
                       Update repositoryId FAILED
                         (failed_files_message currentPath)]) w')).
    { intros w'. subst run.
      rewrite (processFilesInBatches_fail B env files repositoryId currentPath
                 directoryId k batch w' Hk Hok Hfail).
      subst batches total row start saved. cbv beta.
      now rewrite <- concat_map. }
    split; [ apply Hrun | ].
    intros data items w0 Hid Hpath Hgh Hfiles Hdid Htx Hupd Hrun0.
    assert (Htry : ∃ w1, directoryWorker_try B env data w0
                         = (Rejected PersistenceError, w1)).
    { rewrite <- Hpath in Hgh.
      rewrite (directoryWorker_try_run B env data w0 items Hgh). cbv zeta.
      rewrite Htx. unfold after_directories. unfold bind at 1.
      rewrite Hid, Hpath, Hfiles, Hdid. fold run. rewrite Hrun.
      eexists. reflexivity. }
    destruct Htry as [w1 Htry].
    rewrite (directoryWorker_swallows B env data w0 _ w1 Htry Hupd)
      by (rewrite Hid; assumption).
    simpl. split; [ reflexivity | ]. rewrite <- Hid. apply failed_run_status.
Qed.

Lemma batch_persistence_witness :
  let run := processFilesInBatches 100 no_faults many_files "r1" "" None
               (one_run no_content "r1" PROCESSING 1) in
  0 < 100
  ∧ run.1 = Resolved tt
  ∧ updates_of (trace run.2)
    = [ (PROCESSING, "Processing 250 files in batches for root");
        (PROCESSING, "Saved batch 1/3 (100 files) for root");
        (PROCESSING, "Saved batch 2/3 (100 files) for root");
        (PROCESSING, "Saved batch 3/3 (50 files) for root");
        (SUCCESS, "Finished processing 250 files in root") ].
Proof.
  destruct (batch_persistence 100 no_faults many_files "r1" "" None
              (one_run no_content "r1" PROCESSING 1) ltac:(lia))
    as (_ & _ & Hok & _).
  cbv zeta in *. rewrite Hok by reflexivity.
  split; [ lia | ]. split; [ reflexivity | ]. vm_compute. reflexivity.
Defined.

(** Two hundred and fifty files with batches of a hundred: three batches,
    of 100, 100 and 50 files. *)
Example three_batches :
  map length (fileBatches 100 many_files) = [100; 100; 50].
Proof. vm_compute. reflexivity. Qed.

(** ** Updates of the helper *)

Lemma save_batches_trace env repositoryId currentPath directoryId total i batches :
  preserves (extends trace (fun _ => True))
    (save_batches env repositoryId currentPath directoryId total i batches).
Proof.
  apply save_batches_preserves; try typeclasses eauto; intros; intros w;
    unfold_calls; repeat case_match; simpl;
    (eexists; split; [ reflexivity | repeat constructor ]).
Qed.

Lemma processFilesInBatches_repository B env files repositoryId currentPath directoryId :
  preserves (unchanged repository)
    (processFilesInBatches B env files repositoryId currentPath directoryId).
Proof.
  apply processFilesInBatches_preserves; try typeclasses eauto;
    intros; call_frame.
Qed.

(** C10. Whenever the file phase of a job ends without error, the helper
    has emitted, as its last call, an update of status [SUCCESS]
    ("Finished processing N files in ..") and has left the status of every
    run as it was: a run that was [PROCESSING] still is.  The phase ends
    without error whenever every batch commits, and always when there is
    no file at all.  The batch size is positive, as the loop that forms
    the batches requires. *)
Theorem file_phase_reports_success (B : nat) (env : Env)
    (files : list GitHubContent.t) (repositoryId currentPath : string)
    (directoryId : option string) (w : World) :
  0 < B ->
  let run :=
    processFilesInBatches B env files repositoryId currentPath directoryId in
  (∀ w', run w = (Resolved tt, w') ->
     repository w' = repository w
     ∧ ∃ evs, trace w' = trace w ++ evs
                ++ [Update repositoryId SUCCESS
                      (finished_files_message (length files) currentPath)])
  ∧ ((∀ j, j < length (fileBatches B files) -> file_tx_ok env j = true) ->
     ∃ w', run w = (Resolved tt, w'))
  ∧ (files = [] ->
     run w = (Resolved tt,
              with_files []
                [Update repositoryId PROCESSING
                   (processing_files_message 0 currentPath);
                 Update repositoryId SUCCESS
                   (finished_files_message 0 currentPath)] w)).
Proof.
  intros _ run. split; [ | split ].
  - intros w' Hrun. split.
    + pose proof (processFilesInBatches_repository B env files repositoryId
                    currentPath directoryId w) as H.
      fold run in H. rewrite Hrun in H. exact H.
    + subst run. revert Hrun. unfold processFilesInBatches, try_catch.
      unfold bind at 1. unfold sendProcessingUpdate at 1. cbv zeta.
      unfold bind at 1.
      match goal with |- context [save_batches ?e ?r ?p ?d ?t ?i ?b ?w0] =>
        pose proof (save_batches_trace e r p d t i b w0) as Ht;
        destruct (save_batches e r p d t i b w0) as [[[]|err] w1]
      end; simpl in *.
      * unfold bind, sendProcessingUpdate, resolve. intros [= <-].
        destruct Ht as (evs & Ht & _). simpl.
        rewrite Ht. simpl. eexists (_ :: evs).
        now rewrite <- !app_assoc.
      * unfold bind, sendProcessingUpdate, reject. discriminate.
  - intros Hok. eexists. apply processFilesInBatches_ok. exact Hok.
  - intros ->. subst run. rewrite processFilesInBatches_ok.
    + reflexivity.
    + intros j Hj. exfalso. unfold fileBatches in Hj. simpl in Hj. lia.
Qed.

Lemma file_phase_reports_success_witness :
  let w' := (processFilesInBatches 100 no_faults [] "r1" "" None
               (one_run no_content "r1" PROCESSING 1)).2 in
  status_of w' "r1" = Some PROCESSING
  ∧ ∃ evs, trace w' = evs ++ [Update "r1" SUCCESS "Finished processing 0 files in root"].
Proof.
  destruct (file_phase_reports_success 100 no_faults [] "r1" "" None
              (one_run no_content "r1" PROCESSING 1) ltac:(lia))
    as (H1 & _ & H3).
  specialize (H3 eq_refl). cbv zeta. rewrite H3. cbn [snd].
  destruct (H1 _ H3) as [Hrepo [evs Htrace]].
  split.
  - unfold status_of. rewrite Hrepo. reflexivity.
  - exists evs. rewrite Htrace. reflexivity.
Defined.

(** ** A failing job and the queue *)

Lemma on_completed_redis env data w :
  decr_ok env = true ->
  redis (on_completed env data w).2
  = <[pending_jobs (JobData.repositoryId data) :=
        (counter w (pending_jobs (JobData.repositoryId data)) - 1)%Z]> (redis w).
Proof.
  intros Hd. unfold on_completed. unfold bind at 1. unfold redis_decr.
  rewrite Hd.
  match goal with |- redis (?m ?w0).2 = _ =>
    assert (H : preserves (unchanged redis) m)
  end.
  { apply on_completed_after_decr; try typeclasses eauto; intros; call_frame. }
  rewrite H. reflexivity.
Qed.

(** C2 (what the code does).  When a step of the [try] block raises an
    error, and the [catch] block's own calls resolve, the processor sets
    the run to [FAILED], emits the [FAILED] update and then resolves with no
    value: the error is not rethrown.  The queue therefore reports the job
    as completed, not failed, and the completion handler decrements the
    counter for it. *)
Theorem failed_job_is_reported_completed (B : nat) (env : Env)
    (data : JobData.t) (w : World) (e : Error) (w1 : World) :
  directoryWorker_try B env data w = (Rejected e, w1) ->
  repository_update_ok env = true ->
  is_Some (status_of w (JobData.repositoryId data)) ->
  let repositoryId := JobData.repositoryId data in
  let key := pending_jobs repositoryId in
  directoryWorker B env data w = (Resolved None, failed_run data w1)
  ∧ status_of (failed_run data w1) repositoryId = Some FAILED
  ∧ trace (failed_run data w1)
    = trace w1 ++ [RepositoryUpdate repositoryId FAILED true;
                   Update repositoryId FAILED
                     (failed_directory_message (JobData.path data))]
  ∧ (∀ s n,
       directoryQueue (world s) !! n = Some data ->
       set_directoryQueue (delete n (directoryQueue (world s))) (world s) = w ->
       step B (Process n env) s
       = Some (mkSystem (failed_run data w1) (completing s ++ [data])))
  ∧ (∀ env',
       decr_ok env' = true ->
       counter (on_completed env' data (failed_run data w1)).2 key
       = (counter w1 key - 1)%Z).
Proof.
  intros Htry Hupd Hrun rid key.
  assert (Hw : directoryWorker B env data w = (Resolved None, failed_run data w1))
    by (eapply directoryWorker_swallows; eassumption).
  split; [ exact Hw | ].
  split; [ apply failed_run_status | ].
  split; [ unfold failed_run; simpl; now rewrite <- app_assoc | ].
  split.
  - intros s n Hn Hs. unfold step. rewrite Hn, Hs, Hw. reflexivity.
  - intros env' Hd. unfold counter at 1.
    rewrite (on_completed_redis env' data _ Hd). fold rid key.
    rewrite lookup_insert_eq. reflexivity.
Qed.

Lemma failed_job_is_reported_completed_witness :
  directoryWorker 100 no_faults root_job (one_run no_content "r1" PROCESSING 1)
  = (Resolved None,
     failed_run root_job
       (log (Fetch "o" "p" "" "r1" false) (one_run no_content "r1" PROCESSING 1))).
Proof.
  refine (proj1 (failed_job_is_reported_completed 100 no_faults root_job
                   (one_run no_content "r1" PROCESSING 1) FetchError _ _ _ _)).
  - apply directoryWorker_try_unreachable. reflexivity.
  - reflexivity.
  - exists PROCESSING. reflexivity.
Defined.

(** The root listing cannot be fetched: the job is processed, reported as
    completed, and its [completed] event takes the counter from 1 to 0
    while the run is [FAILED]. *)
Example unreachable_root_is_decremented :
  match run 100 [Process 0 no_faults; Completed 0 no_faults] unreachable_root with
  | Some s =>
      status_of (world s) "r1" = Some FAILED
      ∧ counter (world s) (pending_jobs "r1") = 0%Z
      ∧ completing s = []
      ∧ trace (world s)
        = [ Fetch "o" "p" "" "r1" false;
            RepositoryUpdate "r1" FAILED true;
            Update "r1" FAILED "Failed to process directory: root";
            Decr "repo:r1:pending_jobs" true;
            RepositoryFind "r1" true ]
  | None => False
  end.
Proof. vm_compute. repeat split; reflexivity. Qed.

(** ** Increment before enqueue *)

Lemma adds_app a b : adds (a ++ b) = adds a + adds b.
Proof. unfold adds. now rewrite List.filter_app, length_app. Qed.

Lemma incrs_app key a b : incrs key (a ++ b) = incrs key a + incrs key b.
Proof. unfold incrs. now rewrite List.filter_app, length_app. Qed.

#[global] Instance increments_first_sequential key :
  Sequential (increments_first key).
Proof.
  split.
  - intros before after E. symmetry in E. apply app_eq_nil in E as [-> _].
    reflexivity.
  - intros a b Ha Hb before after E.
    apply List.app_eq_app in E as [l [[Ea _]|[-> Eb]]].
    + now apply (Ha before l).
    + rewrite adds_app, incrs_app.
      pose proof (Ha a [] (eq_sym (app_nil_r a))).
      pose proof (Hb l after Eb). lia.
Qed.

Lemma increments_first_single key e :
  is_add e = false -> increments_first key [e].
Proof.
  intros He before after E. destruct before as [|x before].
  - unfold adds. simpl. lia.
  - injection E as -> E. symmetry in E. apply app_eq_nil in E as [-> _].
    unfold adds. simpl. rewrite He. simpl. lia.
Qed.

Lemma issue_incrs_trace env key k directories w :
  trace (issue_incrs env key k directories w).2
  = trace w ++ incr_events env key k directories.
Proof.
  revert k w. induction directories as [|dir rest IH]; intros k w; simpl.
  - now rewrite app_nil_r.
  - specialize (IH (S k)). unfold redis_incr.
    destruct (incr_ok env k);
      match goal with |- context [issue_incrs _ _ _ _ ?w0] =>
        specialize (IH w0); destruct (issue_incrs env key (S k) rest w0)
      end; simpl in *; rewrite IH; now rewrite <- app_assoc.
Qed.

Lemma issue_adds_trace env owner repo repositoryId k directories w :
  trace (issue_adds env owner repo repositoryId k directories w).2
  = trace w ++ add_events env owner repo repositoryId k directories.
Proof.
  revert k w. induction directories as [|dir rest IH]; intros k w; simpl.
  - now rewrite app_nil_r.
  - specialize (IH (S k)). unfold directoryQueue_add.
    destruct (incr_ok env k); [ destruct (add_ok env k) | ];
      match goal with |- context [issue_adds _ _ _ _ _ _ ?w0] =>
        specialize (IH w0);
        destruct (issue_adds env owner repo repositoryId (S k) rest w0)
      end; simpl in *; rewrite IH; try now rewrite <- app_assoc.
    reflexivity.
Qed.

Lemma queue_subdirectories_trace env owner repo repositoryId directories w :
  trace (queue_subdirectories env owner repo repositoryId directories w).2
  = trace w ++ incr_events env (pending_jobs repositoryId) 0 directories
    ++ add_events env owner repo repositoryId 0 directories.
Proof.
  unfold queue_subdirectories.
  pose proof (issue_incrs_trace env (pending_jobs repositoryId) 0 directories w)
    as H1.
  destruct (issue_incrs env (pending_jobs repositoryId) 0 directories w)
    as [incrs0 w1].
  pose proof (issue_adds_trace env owner repo repositoryId 0 directories w1)
    as H2.
  destruct (issue_adds env owner repo repositoryId 0 directories w1)
    as [adds0 w2].
  simpl in *. assert (trace w2 = trace w
    ++ incr_events env (pending_jobs repositoryId) 0 directories
    ++ add_events env owner repo repositoryId 0 directories)
    by (rewrite H2, H1; now rewrite <- app_assoc).
  repeat case_match; assumption.
Qed.

Lemma incr_events_adds env key k directories :
  adds (incr_events env key k directories) = 0.
Proof.
  revert k. induction directories as [|dir rest IH]; intros k; [ reflexivity | ].
  simpl. unfold adds in *. simpl. apply IH.
Qed.

Lemma add_events_adds env owner repo repositoryId k directories :
  adds (add_events env owner repo repositoryId k directories)
  = incrs (pending_jobs repositoryId)
      (incr_events env (pending_jobs repositoryId) k directories).
Proof.
  revert k. induction directories as [|dir rest IH]; intros k; [ reflexivity | ].
  simpl. specialize (IH (S k)). unfold adds, incrs in *. simpl.
  destruct (incr_ok env k); simpl.
  - rewrite String.eqb_refl. simpl. now rewrite IH.
  - exact IH.
Qed.

Lemma adds_prefix before after : adds before <= adds (before ++ after).
Proof. rewrite adds_app. lia. Qed.

Lemma queue_subdirectories_increments_first env owner repo repositoryId directories :
  increments_first (pending_jobs repositoryId)
    (incr_events env (pending_jobs repositoryId) 0 directories
     ++ add_events env owner repo repositoryId 0 directories).
Proof.
  intros before after E.
  apply List.app_eq_app in E as [l [[Ei _]|[-> Ea]]].
  - pose proof (adds_prefix before l) as Hl.
    rewrite <- Ei, incr_events_adds in Hl. lia.
  - rewrite adds_app, incrs_app, incr_events_adds.
    pose proof (adds_prefix l after) as Hl.
    rewrite <- Ea, add_events_adds in Hl. lia.
Qed.

Lemma directoryWorker_increments_first B env data :
  preserves (emits (increments_first (pending_jobs (JobData.repositoryId data))))
            (directoryWorker B env data).
Proof.
  apply directoryWorker_preserves; try typeclasses eauto; intros;
    try (intros w; unfold_calls; repeat case_match; simpl;
         eexists; (split; [ reflexivity | ]);
         apply increments_first_single; reflexivity).
  intros w. eexists. split.
  - apply queue_subdirectories_trace.
  - apply queue_subdirectories_increments_first.
Qed.

(** ** The status of a run *)

Ltac frame_status :=
  let w := fresh "w" in
  let r := fresh "r" in
  intros w; unfold_calls; repeat case_match; simpl; intros r; left; reflexivity.

Lemma directoryWorker_only_fails B env data :
  preserves only_fails (directoryWorker B env data).
Proof.
  apply directoryWorker_preserves; try typeclasses eauto; intros;
    try frame_status.
  - apply queue_subdirectories_preserves; try typeclasses eauto;
      intros; frame_status.
  - intros w. unfold_calls. repeat case_match; simpl; intros run;
      try (left; reflexivity).
    unfold status_of. simpl.
    destruct (decide (run = JobData.repositoryId data)) as [->|Hne].
    + right. apply lookup_insert_eq.
    + left. now apply lookup_insert_ne.
Qed.

Lemma completions_app r a b :
  completions r (a ++ b) = completions r a + completions r b.
Proof. unfold completions. now rewrite List.filter_app, length_app. Qed.

(** What the completion handler can do to a world. *)
Lemma on_completed_cases env data w r :
  let repositoryId := JobData.repositoryId data in
  let key := pending_jobs repositoryId in
  let w' := (on_completed env data w).2 in
  directoryQueue w' = directoryQueue w
  ∧ github w' = github w
  ∧ directory w' = directory w
  ∧ file w' = file w
  ∧ (redis w' = redis w
     ∨ decr_ok env = true ∧ redis w' = <[key := (counter w key - 1)%Z]> (redis w))
  ∧ (repository w' = repository w
     ∧ completions r (trace w') = completions r (trace w)
     ∨ status_of w repositoryId = Some PROCESSING
       ∧ (counter w key - 1)%Z = 0%Z
       ∧ redis w' = <[key := 0%Z]> (redis w)
       ∧ repository w' = <[repositoryId := SUCCESS]> (repository w)
       ∧ completions r (trace w')
         = completions r (trace w) + (if String.eqb repositoryId r then 1 else 0)).
Proof.
  intros rid key w'. subst w'. unfold on_completed. fold rid key.
  unfold bind, redis_decr, prisma_repository_findUnique.
  destruct (decr_ok env); simpl.
  2: { repeat split; try reflexivity; [ now left | left ].
       split; [ reflexivity | ]. rewrite !completions_app. unfold completions. simpl. lia. }
  destruct (repository_find_ok env); simpl.
  2: { repeat split; try reflexivity; [ right; now split | left ].
       split; [ reflexivity | ]. rewrite !completions_app. unfold completions. simpl. lia. }
  case_bool_decide as Hc; simpl.
  2: { repeat split; try reflexivity; [ right; now split | left ].
       split; [ reflexivity | ]. rewrite !completions_app. unfold completions. simpl. lia. }
  destruct Hc as [Hv Hs]. unfold prisma_repository_update. simpl.
  rewrite Hs. destruct (repository_update_ok env); simpl.
  2: { repeat split; try reflexivity; [ right; now split | left ].
       split; [ reflexivity | ]. rewrite !completions_app. unfold completions. simpl. lia. }
  repeat split; try reflexivity; [ right; now split | right ].
  repeat split; try assumption; try reflexivity.
  - now rewrite Hv.
  - rewrite !completions_app. unfold completions. simpl.
    destruct (String.eqb rid r); simpl; lia.
Qed.

(** ** The counter and the queue *)

Lemma issue_incrs_effect env key k directories w :
  let w' := (issue_incrs env key k directories w).2 in
  directoryQueue w' = directoryQueue w
  ∧ counter w' key
    = (counter w key + Z.of_nat (incrs key (incr_events env key k directories)))%Z.
Proof.
  revert k w. induction directories as [|dir rest IH]; intros k w; simpl.
  - split; [ reflexivity | unfold incrs; simpl; lia ].
  - specialize (IH (S k)). unfold redis_incr.
    destruct (incr_ok env k);
      match goal with |- context [issue_incrs _ _ _ _ ?w0] =>
        specialize (IH w0); destruct (issue_incrs env key (S k) rest w0)
      end; simpl in *; destruct IH as [IHq IHc]; (split; [ exact IHq | ]);
      rewrite IHc; unfold incrs; simpl.
    + rewrite String.eqb_refl. simpl. unfold counter at 1. simpl.
      rewrite lookup_insert_eq. simpl. unfold incrs. lia.
    + unfold counter at 1. simpl. reflexivity.
Qed.

Lemma issue_adds_effect env owner repo repositoryId k directories w :
  let w' := (issue_adds env owner repo repositoryId k directories w).2 in
  redis w' = redis w
  ∧ length (directoryQueue w')
    <= length (directoryQueue w)
       + adds (add_events env owner repo repositoryId k directories)
  ∧ ∃ jobs, directoryQueue w' = directoryQueue w ++ jobs
            ∧ Forall (fun j => JobData.repositoryId j = repositoryId) jobs.
Proof.
  revert k w. induction directories as [|dir rest IH]; intros k w; simpl.
  - split; [ reflexivity | split; [ lia | ] ].
    exists []. split; [ now rewrite app_nil_r | constructor ].
  - specialize (IH (S k)). unfold directoryQueue_add.
    destruct (incr_ok env k); [ destruct (add_ok env k) | ];
      match goal with |- context [issue_adds _ _ _ _ _ _ ?w0] =>
        specialize (IH w0);
        destruct (issue_adds env owner repo repositoryId (S k) rest w0)
      end; simpl in *; destruct IH as (IHr & IHq & jobs & IHj & IHF);
      (split; [ exact IHr | ]); unfold adds in *; simpl.
    + split; [ rewrite length_app in IHq; simpl in IHq; lia | ].
      exists (child_job owner repo repositoryId dir :: jobs).
      split; [ rewrite IHj; now rewrite <- app_assoc | ].
      constructor; [ reflexivity | assumption ].
    + split; [ lia | ]. exists jobs. now split.
    + split; [ lia | ]. exists jobs. now split.
Qed.

Lemma queue_subdirectories_effect env owner repo repositoryId directories w :
  let w' := (queue_subdirectories env owner repo repositoryId directories w).2 in
  queue_bounded (pending_jobs repositoryId) w w'
  ∧ ∃ jobs, directoryQueue w' = directoryQueue w ++ jobs
            ∧ Forall (fun j => JobData.repositoryId j = repositoryId) jobs.
Proof.
  unfold queue_subdirectories.
  pose proof (issue_incrs_effect env (pending_jobs repositoryId) 0 directories w)
    as [H1q H1c].
  destruct (issue_incrs env (pending_jobs repositoryId) 0 directories w)
    as [incrs0 w1].
  pose proof (issue_adds_effect env owner repo repositoryId 0 directories w1)
    as (H2r & H2q & jobs & H2j & H2F).
  destruct (issue_adds env owner repo repositoryId 0 directories w1)
    as [adds0 w2].
  simpl in *.
  assert (queue_bounded (pending_jobs repositoryId) w w2
          ∧ ∃ jobs, directoryQueue w2 = directoryQueue w ++ jobs
              ∧ Forall (fun j => JobData.repositoryId j = repositoryId) jobs).
  { split.
    - unfold queue_bounded. rewrite add_events_adds in H2q.
      assert (Hc : counter w2 (pending_jobs repositoryId)
                   = counter w1 (pending_jobs repositoryId))
        by (unfold counter; now rewrite H2r).
      rewrite Hc, H1c. rewrite H1q in H2q. lia.
    - exists jobs. split; [ now rewrite H2j, H1q | assumption ]. }
  repeat case_match; assumption.
Qed.

#[global] Instance queue_bounded_preorder key : PreOrder (queue_bounded key).
Proof.
  split.
  - intros w. unfold queue_bounded. lia.
  - intros x y z. unfold queue_bounded. lia.
Qed.

Lemma directoryWorker_queue_bounded B env data :
  preserves (queue_bounded (pending_jobs (JobData.repositoryId data)))
            (directoryWorker B env data).
Proof.
  apply directoryWorker_preserves; try typeclasses eauto; intros;
    try (intros w; unfold_calls; repeat case_match; simpl;
         unfold queue_bounded, counter; simpl; lia).
  intros w. apply queue_subdirectories_effect.
Qed.

Lemma directoryWorker_queue_jobs B env data :
  preserves (extends directoryQueue
               (fun j => JobData.repositoryId j = JobData.repositoryId data))
            (directoryWorker B env data).
Proof.
  apply directoryWorker_preserves; try typeclasses eauto; intros;
    try call_frame.
  intros w. apply queue_subdirectories_effect.
Qed.

Lemma directoryWorker_no_completion B env data r :
  preserves (emits (Forall (fun e => is_completion r e = false)))
            (directoryWorker B env data).
Proof.
  apply directoryWorker_preserves; try typeclasses eauto; intros;
    try (intros w; unfold_calls; repeat case_match; simpl;
         eexists; (split; [ reflexivity | ]); repeat constructor).
  - simpl. destruct status; try reflexivity.
    apply andb_false_iff. right. now apply String.eqb_neq.
  - intros w. eexists. split; [ apply queue_subdirectories_trace | ].
    apply Forall_app. split.
    + generalize 0. induction directories as [|d rest IH]; intros k; simpl;
        constructor; auto.
    + generalize 0. induction directories as [|d rest IH]; intros k; simpl;
        [ constructor | ].
      destruct (incr_ok env k); [ constructor; auto | auto ].
Qed.

(** ** The invariant of a run *)

Lemma initial_invariant gh root :
  run_invariant (JobData.repositoryId root) (initial gh root).
Proof.
  unfold run_invariant, initial, outstanding, status_of, counter. simpl.
  split; [ repeat constructor | ].
  split; [ rewrite lookup_singleton_eq; simpl; lia | ].
  split; [ rewrite lookup_singleton_eq; discriminate | now left ].
Qed.

Lemma process_invariant B repositoryId n env s data :
  run_invariant repositoryId s ->
  directoryQueue (world s) !! n = Some data ->
  let w0 := set_directoryQueue (delete n (directoryQueue (world s))) (world s) in
  let w' := (directoryWorker B env data w0).2 in
  ∀ done,
    (done = completing s ∨ done = completing s ++ [data]) ->
    run_invariant repositoryId (mkSystem w' done).
Proof.
  intros (HJ & HK & HS & HC) Hn w0 w' done Hdone.
  assert (Hdata : JobData.repositoryId data = repositoryId).
  { unfold outstanding in HJ. rewrite Forall_app in HJ. destruct HJ as [HJ _].
    rewrite Forall_forall in HJ. apply HJ. eapply list_elem_of_lookup_2. exact Hn. }
  pose proof (directoryWorker_only_fails B env data w0 repositoryId) as F1.
  pose proof (directoryWorker_queue_bounded B env data w0) as F2.
  pose proof (directoryWorker_queue_jobs B env data w0) as (jobs & F3 & F3').
  pose proof (directoryWorker_no_completion B env data repositoryId w0)
    as (evs & F4 & F4').
  fold w' in F1, F2, F3, F4. rewrite Hdata in F2, F3'.
  assert (Hlen : length (delete n (directoryQueue (world s)))
                 = length (directoryQueue (world s)) - 1)
    by (apply length_delete; eauto).
  assert (Hpos : 0 < length (directoryQueue (world s)))
    by (apply lookup_lt_Some in Hn; lia).
  assert (Hnot : status_of (world s) repositoryId ≠ Some SUCCESS).
  { intros E. apply HS in E. unfold outstanding in E.
    apply app_eq_nil in E as [E _]. rewrite E in Hn. discriminate. }
  unfold run_invariant, outstanding in *. simpl.
  split; [ | split; [ | split ] ].
  - rewrite F3. simpl. rewrite Forall_app in HJ. destruct HJ as [HJq HJc].
    rewrite !Forall_app. split; [ split | ].
    + now apply Forall_delete.
    + exact F3'.
    + destruct Hdone as [->| ->]; [ assumption | ].
      apply Forall_app. split; [ assumption | now constructor ].
  - unfold queue_bounded in F2. simpl in F2.
    change (counter w0 (pending_jobs repositoryId))
      with (counter (world s) (pending_jobs repositoryId)) in F2.
    rewrite length_app in *.
    assert (length done <= length (completing s) + 1)
      by (destruct Hdone as [->| ->]; [ | rewrite length_app; simpl ]; lia).
    lia.
  - intros E. exfalso. destruct F1 as [F1|F1].
    + apply Hnot. rewrite F1 in E. exact E.
    + rewrite F1 in E. discriminate.
  - assert (Hcount : completions repositoryId (trace w')
                     = completions repositoryId (trace (world s))).
    { rewrite F4, completions_app. simpl.
      assert (completions repositoryId evs = 0); [ | lia ].
      unfold completions. clear F4. induction evs as [|e evs IH]; [ reflexivity | ].
      apply Forall_cons in F4' as [He Hevs]. simpl. rewrite He. now apply IH. }
    rewrite Hcount. destruct HC as [HC|[HC HP]]; [ now left | right ].
    split; [ assumption | ]. intros E. destruct F1 as [F1|F1].
    + apply HP. rewrite F1 in E. exact E.
    + rewrite F1 in E. discriminate.
Qed.

Lemma completed_invariant repositoryId n env s data :
  run_invariant repositoryId s ->
  completing s !! n = Some data ->
  run_invariant repositoryId
    (mkSystem (on_completed env data (world s)).2 (delete n (completing s))).
Proof.
  intros (HJ & HK & HS & HC) Hn.
  assert (Hdata : JobData.repositoryId data = repositoryId).
  { unfold outstanding in HJ. rewrite Forall_app in HJ. destruct HJ as [_ HJ].
    rewrite Forall_forall in HJ. apply HJ. eapply list_elem_of_lookup_2. exact Hn. }
  pose proof (on_completed_cases env data (world s) repositoryId)
    as (Cq & _ & _ & _ & Cr & Cs).
  rewrite Hdata in Cr, Cs. cbv zeta in Cr, Cs.
  set (w' := (on_completed env data (world s)).2) in *.
  set (key := pending_jobs repositoryId) in *.
  assert (Hlen : length (delete n (completing s)) = length (completing s) - 1)
    by (apply length_delete; eauto).
  assert (Hpos : 0 < length (completing s))
    by (apply lookup_lt_Some in Hn; lia).
  assert (Hnot : status_of (world s) repositoryId ≠ Some SUCCESS).
  { intros E. apply HS in E. unfold outstanding in E.
    apply app_eq_nil in E as [_ E]. rewrite E in Hn. discriminate. }
  assert (Hcounter : (counter (world s) key - 1 <= counter w' key)%Z).
  { destruct Cr as [Cr|[_ Cr]]; unfold counter at 2; rewrite Cr.
    - fold (counter (world s) key). lia.
    - rewrite lookup_insert_eq. simpl. lia. }
  assert (HK' : (Z.of_nat (length (directoryQueue w' ++ delete n (completing s)))
                 <= counter w' key)%Z).
  { unfold outstanding in HK. rewrite length_app in *. rewrite Cq. lia. }
  unfold run_invariant, outstanding in *. simpl.
  split; [ | split; [ exact HK' | split ] ].
  - rewrite Cq. rewrite Forall_app in HJ. destruct HJ as [HJq HJc].
    apply Forall_app. split; [ assumption | now apply Forall_delete ].
  - intros E. destruct Cs as [[Cs _]|(_ & _ & Cz & _)].
    + exfalso. apply Hnot. unfold status_of in *. now rewrite <- Cs.
    + unfold counter in HK'. rewrite Cz, lookup_insert_eq in HK'. simpl in HK'.
      apply length_zero_iff_nil. lia.
  - destruct Cs as [[Cs Cc]|(Cp & _ & _ & Cs & Cc)].
    + rewrite Cc. unfold status_of in *. rewrite Cs. exact HC.
    + right. rewrite Cc, String.eqb_refl.
      destruct HC as [HC|[_ HP]]; [ | contradiction ].
      split; [ lia | ]. unfold status_of. rewrite Cs, lookup_insert_eq.
      discriminate.
Qed.

Lemma step_invariant B repositoryId l s s' :
  run_invariant repositoryId s -> step B l s = Some s' ->
  run_invariant repositoryId s'.
Proof.
  intros Hinv Hstep. destruct l as [n env|n env]; simpl in Hstep.
  - destruct (directoryQueue (world s) !! n) as [data|] eqn:Hn; [ | discriminate ].
    pose proof (process_invariant B repositoryId n env s data Hinv Hn) as H.
    cbv zeta in H.
    destruct (directoryWorker B env data _) as [[a|e] w']; simpl in *;
      injection Hstep as <-; apply H; auto.
  - destruct (completing s !! n) as [data|] eqn:Hn; [ | discriminate ].
    injection Hstep as <-. now apply completed_invariant.
Qed.

Lemma run_preserves_invariant B repositoryId schedule s s' :
  run_invariant repositoryId s -> run B schedule s = Some s' ->
  run_invariant repositoryId s'.
Proof.
  revert s. induction schedule as [|l rest IH]; intros s Hinv Hrun; simpl in Hrun.
  - now injection Hrun as <-.
  - destruct (step B l s) as [s1|] eqn:Hstep; [ | discriminate ].
    eapply IH; [ | exact Hrun ]. eapply step_invariant; eassumption.
Qed.







(** The same within a run: started without its counter, the run is
    declared complete when the root job completes, while the job of [src]
    is still waiting; that job then fails. *)
Example uncounted_run_succeeds_then_fails :
  match run 100 [Process 0 no_faults; Completed 0 no_faults] uncounted_run with
  | Some s =>
      status_of (world s) "r1" = Some SUCCESS
      ∧ match step 100 (Process 0 no_faults) s with
        | Some s' => status_of (world s') "r1" = Some FAILED
        | None => False
        end
  | None => False
  end.
Proof. vm_compute. split; reflexivity. Qed.

(** ** The counter of a run *)

(** C8. In a run started with its counter at 1 for the root job, the
    counter is never negative: it is at least the number of jobs that are
    waiting or whose completion is due.  The run is declared complete at
    most once.  A completion that finds the status other than
    [PROCESSING], whatever value the decrement returns, changes no status
    and declares nothing. *)
Theorem counter_and_single_completion (B : nat)
    (gh : string -> string -> string -> option (list GitHubContent.t))
    (root : JobData.t) (schedule : list Label) (s : System) :
  run B schedule (initial gh root) = Some s ->
  let r := JobData.repositoryId root in
  (0 <= Z.of_nat (length (outstanding s)) <= counter (world s) (pending_jobs r))%Z
  ∧ completions r (trace (world s)) <= 1
  ∧ (completions r (trace (world s)) = 1 ->
     status_of (world s) r ≠ Some PROCESSING)
  ∧ ∀ env data w,
      JobData.repositoryId data = r ->
      status_of w r ≠ Some PROCESSING ->
      repository (on_completed env data w).2 = repository w
      ∧ completions r (trace (on_completed env data w).2)
        = completions r (trace w).
Proof.
  intros Hrun r.
  pose proof (run_preserves_invariant B r schedule _ s
                (initial_invariant gh root) Hrun) as (_ & HK & _ & HC).
  split; [ lia | ].
  split; [ destruct HC as [HC|[HC _]]; lia | ].
  split; [ intros E; destruct HC as [HC|[_ HC]]; [ lia | exact HC ] | ].
  intros env data w Hdata Hnot.
  pose proof (on_completed_cases env data w r) as (_ & _ & _ & _ & _ & C).
  cbv zeta in C. rewrite Hdata in C.
  destruct C as [C|(Cp & _)]; [ exact C | contradiction ].
Qed.

Lemma counter_and_single_completion_witness :
  ∃ s, run 100 small_schedule (initial small_tree root_job) = Some s
       ∧ (0 <= counter (world s) (pending_jobs "r1"))%Z
       ∧ completions "r1" (trace (world s)) <= 1.
Proof.
  eexists. split; [ vm_compute; reflexivity | ].
  pose proof (counter_and_single_completion 100 small_tree root_job
                small_schedule _ ltac:(vm_compute; reflexivity)) as H.
  cbv zeta in H. destruct H as (H1 & H2 & _).
  split; [ | exact H2 ].
  exact (Z.le_trans _ _ _ (proj1 H1) (proj2 H1)).
Defined.

(** ** Runs in which no call fails *)

Lemma issue_incrs_faultless env key k directories w :
  (∀ k, incr_ok env k = true) ->
  forallb id (issue_incrs env key k directories w).1 = true
  ∧ incrs key (incr_events env key k directories) = length directories.
Proof.
  intros Hok. revert k w.
  induction directories as [|dir rest IH]; intros k w; simpl; [ now split | ].
  unfold redis_incr. rewrite Hok.
  match goal with |- context [issue_incrs _ _ _ _ ?w0] =>
    specialize (IH (S k) w0); destruct (issue_incrs env key (S k) rest w0)
  end. simpl in *. destruct IH as [IH1 IH2]. split; [ exact IH1 | ].
  unfold incrs in *. simpl. rewrite ?Hok, String.eqb_refl. simpl. now rewrite IH2.
Qed.

Lemma issue_adds_faultless env owner repo repositoryId k directories w :
  (∀ k, incr_ok env k = true) -> (∀ k, add_ok env k = true) ->
  forallb id (issue_adds env owner repo repositoryId k directories w).1 = true
  ∧ directoryQueue (issue_adds env owner repo repositoryId k directories w).2
    = directoryQueue w ++ map (child_job owner repo repositoryId) directories.
Proof.
  intros Hincr Hadd. revert k w.
  induction directories as [|dir rest IH]; intros k w; simpl.
  - split; [ reflexivity | now rewrite app_nil_r ].
  - rewrite Hincr. unfold directoryQueue_add. rewrite Hadd.
    match goal with |- context [issue_adds _ _ _ _ _ _ ?w0] =>
      specialize (IH (S k) w0);
      destruct (issue_adds env owner repo repositoryId (S k) rest w0)
    end. simpl in *. destruct IH as [IH1 IH2]. split; [ exact IH1 | ].
    rewrite IH2. now rewrite <- app_assoc.
Qed.

Lemma queue_subdirectories_unchanged {X} (f : World -> X)
    env owner repo repositoryId directories :
  (∀ ok key, preserves (unchanged f) (redis_incr ok key)) ->
  (∀ ok jobName data, preserves (unchanged f) (directoryQueue_add ok jobName data)) ->
  ∀ w, f (queue_subdirectories env owner repo repositoryId directories w).2 = f w.
Proof.
  intros Hincr Hadd w.
  apply (queue_subdirectories_preserves (unchanged f)); auto.
Qed.

Lemma queue_subdirectories_faultless env owner repo repositoryId directories w :
  faultless env ->
  ∃ w',
    queue_subdirectories env owner repo repositoryId directories w
    = (Resolved tt, w')
    ∧ github w' = github w
    ∧ repository w' = repository w
    ∧ directory w' = directory w
    ∧ file w' = file w
    ∧ directoryQueue w'
      = directoryQueue w ++ map (child_job owner repo repositoryId) directories
    ∧ counter w' (pending_jobs repositoryId)
      = (counter w (pending_jobs repositoryId)
         + Z.of_nat (length directories))%Z.
Proof.
  intros (_ & _ & Hincr & Hadd & _).
  pose proof (queue_subdirectories_unchanged github env owner repo repositoryId
                directories ltac:(intros; call_frame) ltac:(intros; call_frame) w)
    as Hg.
  pose proof (queue_subdirectories_unchanged repository env owner repo repositoryId
                directories ltac:(intros; call_frame) ltac:(intros; call_frame) w)
    as Hr.
  pose proof (queue_subdirectories_unchanged directory env owner repo repositoryId
                directories ltac:(intros; call_frame) ltac:(intros; call_frame) w)
    as Hd.
  pose proof (queue_subdirectories_unchanged file env owner repo repositoryId
                directories ltac:(intros; call_frame) ltac:(intros; call_frame) w)
    as Hf.
  revert Hg Hr Hd Hf. unfold queue_subdirectories.
  pose proof (issue_incrs_effect env (pending_jobs repositoryId) 0 directories w)
    as [H1q H1c].
  pose proof (issue_incrs_faultless env (pending_jobs repositoryId) 0 directories w
                Hincr) as [H1o H1n].
  destruct (issue_incrs env (pending_jobs repositoryId) 0 directories w)
    as [incrs0 w1].
  pose proof (issue_adds_effect env owner repo repositoryId 0 directories w1)
    as (H2r & _).
  pose proof (issue_adds_faultless env owner repo repositoryId 0 directories w1
                Hincr Hadd) as [H2o H2q].
  destruct (issue_adds env owner repo repositoryId 0 directories w1)
    as [adds0 w2].
  simpl in *. rewrite H1o, H2o. intros Hg Hr Hd Hf. simpl in *.
  exists w2. repeat split; try assumption.
  - now rewrite H2q, H1q.
  - unfold counter at 1. rewrite H2r. fold (counter w1 (pending_jobs repositoryId)).
    now rewrite H1c, H1n.
Qed.

Lemma map_row_view_created env rows :
  map row_view (imap (created_directory env) rows) = rows.
Proof.
  assert (H : ∀ g : nat -> DirectoryCreate.t -> Directory.t,
             (∀ i d, row_view (g i d) = d) -> map row_view (imap g rows) = rows).
  { induction rows as [|d rows IH]; intros g Hg; [ reflexivity | ].
    simpl. rewrite Hg. f_equal. apply IH. intros i d'. apply Hg. }
  apply H. intros i d. now destruct d.
Qed.

(** The processor when no call fails: the subdirectories and the files of
    the listing are persisted, and one child job per subdirectory is
    counted and added. *)
Lemma directoryWorker_faultless B env data w items :
  0 < B ->
  faultless env ->
  github w (JobData.owner data) (JobData.repo data) (JobData.path data)
  = Some items ->
  immediate_children (JobData.path data) items ->
  let repositoryId := JobData.repositoryId data in
  ∃ result w',
    directoryWorker B env data w = (Resolved result, w')
    ∧ github w' = github w
    ∧ repository w' = repository w
    ∧ directory w'
      = directory w
        ++ imap (created_directory env)
             (directoryData ∅ repositoryId (directories_of items))
    ∧ file w' = file w ++ map (file_data repositoryId None) (files_of items)
    ∧ directoryQueue w'
      = directoryQueue w
        ++ map (child_job (JobData.owner data) (JobData.repo data) repositoryId)
             (directories_of items)
    ∧ counter w' (pending_jobs repositoryId)
      = (counter w (pending_jobs repositoryId)
         + Z.of_nat (length (directories_of items)))%Z.
Proof.
  intros HB Henv Hgh Hchildren rid.
  pose proof Henv as (Htx & Hfiles & _).
  unfold directoryWorker, try_catch.
  rewrite (directoryWorker_try_run B env data w items Hgh). cbv zeta.
  rewrite Htx. unfold after_directories. fold rid.
  rewrite (directoryId_of_children env rid _ items Hchildren).
  unfold bind at 1. rewrite processFilesInBatches_ok by (intros; apply Hfiles).
  unfold bind at 1.
  match goal with |- context [queue_subdirectories ?e ?o ?r ?i ?d ?w0] =>
    destruct (queue_subdirectories_faultless e o r i d w0 Henv)
      as (w3 & Hq & Hg3 & Hr3 & Hd3 & Hf3 & Hq3 & Hc3)
  end.
  rewrite Hq. unfold bind, sendProcessingUpdate, resolve.
  eexists _, _. split; [ reflexivity | ]. simpl.
  rewrite Hg3, Hr3, Hd3, Hf3, Hq3. simpl.
  repeat split; try reflexivity.
  - now rewrite <- concat_map, (fileBatches_concat B HB).
  - unfold counter in *. simpl in *. exact Hc3.
Qed.

(** The completion handler when no call fails. *)
Lemma on_completed_faultless env data w :
  faultless env ->
  let repositoryId := JobData.repositoryId data in
  let key := pending_jobs repositoryId in
  let v := (counter w key - 1)%Z in
  let w' := (on_completed env data w).2 in
  github w' = github w
  ∧ directory w' = directory w
  ∧ file w' = file w
  ∧ directoryQueue w' = directoryQueue w
  ∧ counter w' key = v
  ∧ repository w'
    = if bool_decide (v = 0%Z ∧ status_of w repositoryId = Some PROCESSING)
      then <[repositoryId := SUCCESS]> (repository w)
      else repository w.
Proof.
  intros (_ & _ & _ & _ & Hu & Hf & Hd) rid key v w'. subst w'.
  unfold on_completed, status_of. fold rid key.
  unfold bind, redis_decr, prisma_repository_findUnique.
  rewrite Hd. simpl. rewrite Hf. simpl. fold v.
  case_bool_decide as Hc; simpl.
  - destruct Hc as [Hv Hs]. unfold prisma_repository_update. simpl.
    rewrite Hs, Hu. simpl. unfold counter. simpl.
    rewrite lookup_insert_eq. repeat split; reflexivity.
  - unfold counter at 1. simpl. rewrite lookup_insert_eq.
    repeat split; reflexivity.
Qed.

Lemma concat_map_delete {X Y} (f : X -> list Y) (l : list X) n x :
  l !! n = Some x ->
  Permutation (concat (map f l)) (f x ++ concat (map f (delete n l))).
Proof.
  revert n. induction l as [|y l IH]; intros n Hn; [ discriminate | ].
  destruct n as [|n]; simpl in *.
  - now injection Hn as ->.
  - rewrite (IH n Hn). apply Permutation_app_swap_app.
Qed.

Lemma children_crawl gh owner repo repositoryId directories below :
  Forall2 (fun dir sub =>
             Crawl gh owner repo repositoryId (GitHubContent.path dir)
                   sub.1 sub.2) directories below ->
  Forall2 (crawls gh owner repo repositoryId)
          (map (child_job owner repo repositoryId) directories) below.
Proof.
  induction 1 as [|dir sub directories below H _ IH]; simpl; constructor.
  - split; [ reflexivity | exact H ].
  - exact IH.
Qed.

Lemma crawl_initial gh root dirs files :
  Crawl gh (JobData.owner root) (JobData.repo root) (JobData.repositoryId root)
        (JobData.path root) dirs files ->
  crawl_invariant gh (JobData.owner root) (JobData.repo root)
    (JobData.repositoryId root) dirs files (initial gh root).
Proof.
  intros Hcrawl. unfold crawl_invariant, initial, outstanding. simpl.
  split; [ reflexivity | ]. split.
  - exists [(dirs, files)]. simpl. rewrite !app_nil_r.
    split; [ | split; reflexivity ].
    constructor; [ | constructor ]. split; [ now destruct root | exact Hcrawl ].
  - split; [ constructor | ].
    split; [ unfold counter; simpl; now rewrite lookup_singleton_eq | reflexivity ].
Qed.

Lemma crawl_process B gh owner repo repositoryId dirs files n env s data :
  0 < B ->
  faultless env ->
  crawl_invariant gh owner repo repositoryId dirs files s ->
  directoryQueue (world s) !! n = Some data ->
  ∃ s', step B (Process n env) s = Some s'
        ∧ crawl_invariant gh owner repo repositoryId dirs files s'.
Proof.
  intros HB Henv (Hgh & (subs & HF2 & HPd & HPf) & HJc & Hcount & Hrepo) Hn.
  destruct (Forall2_lookup_l _ _ _ _ _ HF2 Hn) as ([sd sf] & Hsub & Edata & Hcrawl).
  simpl in Hcrawl.
  inversion Hcrawl as [path items below Hitems Hchildren Hbelow Epath Esd Esf].
  subst sd sf. clear Epath Hcrawl.
  assert (Eowner : JobData.owner data = owner) by now rewrite Edata.
  assert (Erepo : JobData.repo data = repo) by now rewrite Edata.
  assert (Eid : JobData.repositoryId data = repositoryId) by now rewrite Edata.
  set (w0 := set_directoryQueue (delete n (directoryQueue (world s))) (world s)).
  assert (Hgh0 : github w0 (JobData.owner data) (JobData.repo data)
                   (JobData.path data) = Some items).
  { rewrite Eowner, Erepo. simpl. now rewrite Hgh. }
  destruct (directoryWorker_faultless B env data w0 items HB Henv Hgh0 Hchildren)
    as (result & w' & Hrun & Hg' & Hr' & Hd' & Hf' & Hq' & Hc').
  rewrite Eowner, Erepo, Eid in *.
  exists (mkSystem w' (completing s ++ [data])). split.
  { unfold step. rewrite Hn. fold w0. now rewrite Hrun. }
  assert (Hlen : length (delete n (directoryQueue (world s)))
                 = length (directoryQueue (world s)) - 1)
    by (apply length_delete; eauto).
  assert (Hpos : 0 < length (directoryQueue (world s)))
    by (apply lookup_lt_Some in Hn; lia).
  unfold crawl_invariant, outstanding in *. simpl.
  split; [ now rewrite Hg' | ]. split; [ | split; [ | split ] ].
  - exists (delete n subs ++ below). rewrite Hq', Hd', Hf'. simpl.
    split; [ | split ].
    + apply Forall2_app; [ now apply Forall2_delete | now apply children_crawl ].
    + rewrite map_app, map_row_view_created, map_app, concat_app.
      rewrite <- HPd. rewrite (concat_map_delete fst subs n _ Hsub). simpl.
      rewrite <- !app_assoc. apply Permutation_app_head, Permutation_app_head.
      apply Permutation_app_comm.
    + rewrite map_app, concat_app.
      rewrite <- HPf. rewrite (concat_map_delete snd subs n _ Hsub). simpl.
      rewrite <- !app_assoc. apply Permutation_app_head, Permutation_app_head.
      apply Permutation_app_comm.
  - apply Forall_app. split; [ assumption | now constructor ].
  - rewrite Hc'. change (counter w0 (pending_jobs repositoryId))
      with (counter (world s) (pending_jobs repositoryId)).
    rewrite Hcount, Hq'. simpl. rewrite !length_app, length_map. simpl.
    rewrite ?length_app. simpl. lia.
  - rewrite Hr'. simpl. rewrite Hrepo.
    destruct (directoryQueue (world s)) as [|j q] eqn:Eq; [ simpl in Hpos; lia | ].
    simpl. repeat case_decide; try reflexivity; exfalso;
      repeat match goal with
        | E : (_ :: _) ++ _ = [] |- _ => discriminate E
        | E : _ :: _ = [] |- _ => discriminate E
        | E : _ ++ _ = [] |- _ => apply app_eq_nil in E as [_ E]
        end.
Qed.

Lemma crawl_completed gh owner repo repositoryId dirs files n env s data :
  faultless env ->
  crawl_invariant gh owner repo repositoryId dirs files s ->
  completing s !! n = Some data ->
  crawl_invariant gh owner repo repositoryId dirs files
    (mkSystem (on_completed env data (world s)).2 (delete n (completing s))).
Proof.
  intros Henv (Hgh & Hsubs & HJc & Hcount & Hrepo) Hn.
  assert (Eid : JobData.repositoryId data = repositoryId).
  { rewrite Forall_forall in HJc. apply HJc.
    eapply list_elem_of_lookup_2. exact Hn. }
  pose proof (on_completed_faultless env data (world s) Henv)
    as (Hg' & Hd' & Hf' & Hq' & Hc' & Hr'). cbv zeta in Hc', Hr'.
  rewrite Eid in Hc', Hr'.
  set (w' := (on_completed env data (world s)).2) in *.
  assert (Hlen : length (delete n (completing s)) = length (completing s) - 1)
    by (apply length_delete; eauto).
  assert (Hpos : 0 < length (completing s))
    by (apply lookup_lt_Some in Hn; lia).
  assert (Hout : outstanding s ≠ []).
  { unfold outstanding. intros E. apply app_eq_nil in E as [_ E].
    rewrite E in Hpos. simpl in Hpos. lia. }
  assert (Hstatus : status_of (world s) repositoryId = Some PROCESSING).
  { unfold status_of. rewrite Hrepo. rewrite decide_False by assumption.
    apply lookup_singleton_eq. }
  assert (Hrepo' : repository (world s) = {[ repositoryId := PROCESSING ]})
    by (rewrite Hrepo; now rewrite decide_False).
  clear Hrepo.
  unfold crawl_invariant, outstanding in *. simpl.
  rewrite Hg', Hd', Hf', Hq'.
  split; [ assumption | ]. split; [ assumption | ].
  split; [ now apply Forall_delete | ].
  split.
  - rewrite Hc', Hcount. rewrite !length_app. lia.
  - rewrite Hr', Hrepo'.
    destruct (decide (directoryQueue (world s) ++ delete n (completing s) = []))
      as [Hd|Hd].
    + rewrite bool_decide_true; [ apply insert_singleton_eq | ].
      split; [ | assumption ].
      apply (f_equal length) in Hd. rewrite length_app in Hd. simpl in Hd.
      rewrite Hcount, length_app. lia.
    + rewrite bool_decide_false; [ reflexivity | ].
      intros [Hv _]. apply Hd. apply length_zero_iff_nil.
      rewrite Hcount, length_app in Hv. rewrite length_app. lia.
Qed.

Lemma crawl_run B gh owner repo repositoryId dirs files schedule s s' :
  0 < B ->
  Forall faultless_label schedule ->
  crawl_invariant gh owner repo repositoryId dirs files s ->
  run B schedule s = Some s' ->
  crawl_invariant gh owner repo repositoryId dirs files s'.
Proof.
  intros HB Hsched. revert s.
  induction Hsched as [|l rest Hl _ IH]; intros s Hinv Hrun; simpl in Hrun.
  - now injection Hrun as <-.
  - destruct (step B l s) as [s1|] eqn:Hstep; [ | discriminate ].
    apply (IH s1); [ | exact Hrun ].
    destruct l as [n env|n env]; simpl in Hl.
    + destruct (directoryQueue (world s) !! n) as [data|] eqn:Hn.
      * destruct (crawl_process B _ _ _ _ _ _ n env s data HB Hl Hinv Hn)
          as (s2 & Hs2 & Hinv2).
        rewrite Hstep in Hs2. now injection Hs2 as <-.
      * simpl in Hstep. rewrite Hn in Hstep. discriminate.
    + simpl in Hstep.
      destruct (completing s !! n) as [data|] eqn:Hn; [ | discriminate ].
      injection Hstep as <-. now apply crawl_completed.
Qed.

(** C9. Take a finite content tree whose listings hold immediate
    children, a positive batch size, and two runs over it in which no call
    fails, each started with its counter at 1 for the root job and carried
    on, in any order of processing and of completion, until no job is
    outstanding.  Both runs end with the same directory rows, up to the
    identifiers the database gave them and the order of insertion, and
    with the same file rows, up to that order: the rows of the tree, with
    a null parent and a null directory.  Both end with the status
    [SUCCESS]. *)
Theorem completion_order_is_irrelevant (B : nat)
    (gh : string -> string -> string -> option (list GitHubContent.t))
    (root : JobData.t) (dirs : list DirectoryCreate.t) (files : list File.t)
    (schedule1 schedule2 : list Label) (s1 s2 : System) :
  0 < B ->
  Crawl gh (JobData.owner root) (JobData.repo root) (JobData.repositoryId root)
        (JobData.path root) dirs files ->
  Forall faultless_label schedule1 ->
  Forall faultless_label schedule2 ->
  run B schedule1 (initial gh root) = Some s1 ->
  run B schedule2 (initial gh root) = Some s2 ->
  outstanding s1 = [] ->
  outstanding s2 = [] ->
  Permutation (map row_view (directory (world s1)))
              (map row_view (directory (world s2)))
  ∧ Permutation (file (world s1)) (file (world s2))
  ∧ repository (world s1) = repository (world s2)
  ∧ status_of (world s1) (JobData.repositoryId root) = Some SUCCESS
  ∧ Permutation (map row_view (directory (world s1))) dirs
  ∧ Permutation (file (world s1)) files.
Proof.
  intros HB Hcrawl Hf1 Hf2 Hrun1 Hrun2 Hout1 Hout2.
  pose proof (crawl_initial gh root dirs files Hcrawl) as Hinit.
  pose proof (crawl_run B _ _ _ _ _ _ schedule1 _ s1 HB Hf1 Hinit Hrun1)
    as (_ & (subs1 & HF1 & HPd1 & HPf1) & _ & _ & Hr1).
  pose proof (crawl_run B _ _ _ _ _ _ schedule2 _ s2 HB Hf2 Hinit Hrun2)
    as (_ & (subs2 & HF2 & HPd2 & HPf2) & _ & _ & Hr2).
  rewrite decide_True in Hr1 by assumption.
  rewrite decide_True in Hr2 by assumption.
  assert (subs1 = []) as ->.
  { unfold outstanding in Hout1. apply app_eq_nil in Hout1 as [Hq _].
    rewrite Hq in HF1. now inversion HF1. }
  assert (subs2 = []) as ->.
  { unfold outstanding in Hout2. apply app_eq_nil in Hout2 as [Hq _].
    rewrite Hq in HF2. now inversion HF2. }
  simpl in *. rewrite !app_nil_r in *.
  split; [ now rewrite HPd1, HPd2 | ].
  split; [ now rewrite HPf1, HPf2 | ].
  split; [ now rewrite Hr1, Hr2 | ].
  split; [ unfold status_of; rewrite Hr1; apply lookup_singleton_eq | ].
  split; assumption.
Qed.

Lemma two_siblings_crawl :
  Crawl two_siblings "o" "p" "r1" ""
    [ DirectoryCreate.mk "a" "r1" None; DirectoryCreate.mk "b" "r1" None ]
    [ File.mk "a/x.txt" "x.txt" "x" "r1" None;
      File.mk "b/y.txt" "y.txt" "y" "r1" None ].
Proof.
  refine (Crawl_directory two_siblings "o" "p" "r1" ""
            [ GitHubContent.mk "a" "a" "dir" None;
              GitHubContent.mk "b" "b" "dir" None ]
            [ ([], [ File.mk "a/x.txt" "x.txt" "x" "r1" None ]);
              ([], [ File.mk "b/y.txt" "y.txt" "y" "r1" None ]) ] _ _ _).
  - reflexivity.
  - repeat constructor; simpl; discriminate.
  - repeat constructor.
    + refine (Crawl_directory two_siblings "o" "p" "r1" "a"
                [ GitHubContent.mk "a/x.txt" "x.txt" "file" (Some "x") ] [] _ _ _).
      * reflexivity.
      * repeat constructor; simpl; discriminate.
      * constructor.
    + refine (Crawl_directory two_siblings "o" "p" "r1" "b"
                [ GitHubContent.mk "b/y.txt" "y.txt" "file" (Some "y") ] [] _ _ _).
      * reflexivity.
      * repeat constructor; simpl; discriminate.
      * constructor.
Qed.

Lemma faultless_no_faults : faultless no_faults.
Proof. repeat split. Qed.

Lemma faultless_other_ids : faultless other_ids.
Proof. repeat split. Qed.

Lemma completion_order_is_irrelevant_witness :
  ∃ s1 s2,
    run 100 in_enqueue_order (initial two_siblings root_job) = Some s1
    ∧ run 100 in_reverse_order (initial two_siblings root_job) = Some s2
    ∧ Permutation (map row_view (directory (world s1)))
                  (map row_view (directory (world s2)))
    ∧ Permutation (file (world s1)) (file (world s2))
    ∧ repository (world s1) = repository (world s2).
Proof.
  eexists _, _.
  split; [ vm_compute; reflexivity | ].
  split; [ vm_compute; reflexivity | ].
  pose proof (completion_order_is_irrelevant 100 two_siblings root_job _ _
                in_enqueue_order in_reverse_order _ _
                ltac:(lia) two_siblings_crawl
                ltac:(repeat constructor; apply faultless_no_faults)
                ltac:(repeat constructor; apply faultless_other_ids)
                ltac:(vm_compute; reflexivity) ltac:(vm_compute; reflexivity)
                ltac:(vm_compute; reflexivity) ltac:(vm_compute; reflexivity))
    as (H1 & H2 & H3 & _).
  split; [ exact H1 | split; [ exact H2 | exact H3 ] ].
Defined.

(** The two orders end with the files inserted in different orders and
    with the rows numbered differently. *)
Example siblings_in_both_orders :
  match run 100 in_enqueue_order (initial two_siblings root_job),
        run 100 in_reverse_order (initial two_siblings root_job) with
  | Some s1, Some s2 =>
      map File.path (file (world s1)) = [ "a/x.txt"; "b/y.txt" ]
      ∧ map File.path (file (world s2)) = [ "b/y.txt"; "a/x.txt" ]
      ∧ map Directory.id (directory (world s1)) = [ "dir-0"; "dir-1" ]
      ∧ map Directory.id (directory (world s2)) = [ "row-0"; "row-1" ]
      ∧ status_of (world s1) "r1" = Some SUCCESS
      ∧ status_of (world s2) "r1" = Some SUCCESS
  | _, _ => False
  end.
Proof. vm_compute. repeat split; reflexivity. Qed.

(** * Further properties of the worker *)

(** ** What a job leaves behind when it fails *)

Lemma directoryWorker_catch_fields env data e w :
  let w' := (directoryWorker_catch env data e w).2 in
  github w' = github w ∧ directory w' = directory w ∧ file w' = file w
  ∧ redis w' = redis w ∧ directoryQueue w' = directoryQueue w.
Proof.
  cbv zeta.
  repeat split;
    match goal with |- ?f _ = ?f _ =>
      apply (directoryWorker_catch_preserves (unchanged f));
        try typeclasses eauto; intros; call_frame
    end.
Qed.

Lemma directoryWorker_after_rejection B env data w e w1 :
  directoryWorker_try B env data w = (Rejected e, w1) ->
  let w' := (directoryWorker B env data w).2 in
  github w' = github w1 ∧ directory w' = directory w1 ∧ file w' = file w1
  ∧ redis w' = redis w1 ∧ directoryQueue w' = directoryQueue w1.
Proof.
  intros Htry. cbv zeta. unfold directoryWorker, try_catch. rewrite Htry.
  apply directoryWorker_catch_fields.
Qed.

(** X1. When the listing cannot be fetched, or when the transaction that
    creates the subdirectories fails, the job persists no row, applies no
    increment and enqueues no job; when the run exists and the write of
    its status is stored, the job ends resolved, with no value, and the
    run [FAILED]. *)
Theorem early_failure_persists_nothing (B : nat) (env : Env)
    (data : JobData.t) (w : World) :
  github w (JobData.owner data) (JobData.repo data) (JobData.path data) = None
  ∨ directory_tx_ok env = false ->
  let run := directoryWorker B env data w in
  let repositoryId := JobData.repositoryId data in
  directory run.2 = directory w
  ∧ file run.2 = file w
  ∧ redis run.2 = redis w
  ∧ directoryQueue run.2 = directoryQueue w
  ∧ (is_Some (status_of w repositoryId) ->
     repository_update_ok env = true ->
     run.1 = Resolved None ∧ status_of run.2 repositoryId = Some FAILED).
Proof.
  intros Hearly run rid.
  assert (Htry : ∃ e w1,
             directoryWorker_try B env data w = (Rejected e, w1)
             ∧ directory w1 = directory w ∧ file w1 = file w
             ∧ redis w1 = redis w ∧ directoryQueue w1 = directoryQueue w).
  { destruct (github w (JobData.owner data) (JobData.repo data)
                (JobData.path data)) as [items|] eqn:Hgh.
    - destruct Hearly as [Hnone|Htx]; [ discriminate | ].
      rewrite (directoryWorker_try_run B env data w items Hgh). cbv zeta.
      rewrite Htx. eexists _, _. split; [ reflexivity | ].
      repeat split; reflexivity.
    - rewrite (directoryWorker_try_unreachable B env data w Hgh).
      eexists _, _. split; [ reflexivity | ]. repeat split; reflexivity. }
  destruct Htry as (e & w1 & Htry & Hd & Hf & Hr & Hq).
  pose proof (directoryWorker_after_rejection B env data w e w1 Htry)
    as (_ & Hd' & Hf' & Hr' & Hq'). cbv zeta in *. fold run in Hd', Hf', Hr', Hq'.
  split; [ congruence | ]. split; [ congruence | ].
  split; [ congruence | ]. split; [ congruence | ].
  intros Hrun Hupd. subst run.
  rewrite (directoryWorker_swallows B env data w e w1 Htry Hupd Hrun).
  simpl. split; [ reflexivity | apply failed_run_status ].
Qed.

Lemma early_failure_persists_nothing_witness :
  let run := directoryWorker 100 no_faults root_job
               (one_run no_content "r1" PROCESSING 1) in
  directoryQueue run.2 = [] ∧ status_of run.2 "r1" = Some FAILED.
Proof.
  pose proof (early_failure_persists_nothing 100 no_faults root_job
                (one_run no_content "r1" PROCESSING 1) (or_introl eq_refl))
    as (_ & _ & _ & Hq & Hs).
  cbv zeta in *. split; [ exact Hq | ].
  apply Hs; [ exists PROCESSING; reflexivity | reflexivity ].
Defined.

(** X2. When a batch of files is the first to fail, the rows of the
    subdirectories, created before the files, stay committed, as do the
    batches saved before the failing one; but no increment is applied and
    no child job is enqueued: the subdirectories are never crawled. *)
Theorem file_failure_leaves_directories (B : nat) (env : Env)
    (data : JobData.t) (w : World) (items : list GitHubContent.t)
    (k : nat) (batch : list GitHubContent.t) :
  0 < B ->
  github w (JobData.owner data) (JobData.repo data) (JobData.path data)
  = Some items ->
  directory_tx_ok env = true ->
  fileBatches B (files_of items) !! k = Some batch ->
  (∀ j, j < k -> file_tx_ok env j = true) ->
  file_tx_ok env k = false ->
  let run := directoryWorker B env data w in
  let repositoryId := JobData.repositoryId data in
  directory run.2
  = directory w
    ++ imap (created_directory env)
         (directoryData ∅ repositoryId (directories_of items))
  ∧ file run.2
    = file w
      ++ map (file_data repositoryId (directoryId_of env repositoryId items))
           (concat (take k (fileBatches B (files_of items))))
  ∧ redis run.2 = redis w
  ∧ directoryQueue run.2 = directoryQueue w.
Proof.
  intros _ Hgh Htx Hk Hok Hfail run rid.
  assert (Htry : ∃ w1,
             directoryWorker_try B env data w = (Rejected PersistenceError, w1)
             ∧ directory w1
               = directory w
                 ++ imap (created_directory env)
                      (directoryData ∅ rid (directories_of items))
             ∧ file w1
               = file w
                 ++ map (file_data rid (directoryId_of env rid items))
                      (concat (take k (fileBatches B (files_of items))))
             ∧ redis w1 = redis w ∧ directoryQueue w1 = directoryQueue w).
  { rewrite (directoryWorker_try_run B env data w items Hgh). cbv zeta.
    rewrite Htx. unfold after_directories. fold rid. unfold bind at 1.
    rewrite (processFilesInBatches_fail B env (files_of items) rid
               (JobData.path data) (directoryId_of env rid items) k batch _
               Hk Hok Hfail).
    eexists. split; [ reflexivity | ]. simpl.
    rewrite <- concat_map. repeat split; reflexivity. }
  destruct Htry as (w1 & Htry & Hd & Hf & Hr & Hq).
  pose proof (directoryWorker_after_rejection B env data w _ w1 Htry)
    as (_ & Hd' & Hf' & Hr' & Hq'). cbv zeta in *. fold run in Hd', Hf', Hr', Hq'.
  repeat split; congruence.
Qed.

Lemma file_failure_leaves_directories_witness :
  let run := directoryWorker 2 second_batch_fails root_job
               (one_run three_files "r1" PROCESSING 1) in
  map Directory.path (directory run.2) = [ "lib" ]
  ∧ map File.path (file run.2) = [ "a.txt"; "b.txt" ]
  ∧ directoryQueue run.2 = [].
Proof.
  pose proof (file_failure_leaves_directories 2 second_batch_fails root_job
                (one_run three_files "r1" PROCESSING 1)
                [ GitHubContent.mk "lib" "lib" "dir" None;
                  GitHubContent.mk "a.txt" "a.txt" "file" None;
                  GitHubContent.mk "b.txt" "b.txt" "file" None;
                  GitHubContent.mk "c.txt" "c.txt" "file" None ]
                1 [ GitHubContent.mk "c.txt" "c.txt" "file" None ]
                Nat.lt_0_2 eq_refl eq_refl eq_refl) as H.
  cbv zeta in H. destruct H as (Hd & Hf & _ & Hq).
  - intros j Hj. destruct j; [ reflexivity | lia ].
  - reflexivity.
  - cbv zeta. rewrite Hd, Hf, Hq. repeat split; reflexivity.
Defined.

(** ** What a job does when nothing fails *)

Lemma listing_partition items :
  length items
  = length (directories_of items) + length (files_of items)
    + length (others_of items).
Proof.
  unfold directories_of, files_of, others_of.
  induction items as [|item items IH]; [ reflexivity | ].
  rewrite !filter_cons.
  destruct (decide (GitHubContent.type item = "dir")) as [Hd|Hd];
    destruct (decide (GitHubContent.type item = "file")) as [Hf|Hf];
    destruct (decide (GitHubContent.type item ≠ "dir"
                      ∧ GitHubContent.type item ≠ "file")) as [[H1 H2]|Hn];
    simpl; try lia; try contradiction.
  - rewrite Hd in Hf. discriminate.
  - exfalso. apply Hn. now split.
Qed.

Lemma directoryData_paths directoryMap repositoryId directories :
  map DirectoryCreate.path (directoryData directoryMap repositoryId directories)
  = map GitHubContent.path directories
  ∧ Forall (fun d => DirectoryCreate.repositoryId d = repositoryId)
      (directoryData directoryMap repositoryId directories).
Proof.
  unfold directoryData. split.
  - rewrite map_map. reflexivity.
  - apply Forall_forall. intros d Hd.
    apply list_elem_of_In, in_map_iff in Hd. now destruct Hd as (x & <- & _).
Qed.

Lemma created_directory_paths env rows :
  map Directory.path (imap (created_directory env) rows)
  = map DirectoryCreate.path rows.
Proof.
  rewrite <- (map_row_view_created env rows) at 2.
  rewrite map_map. reflexivity.
Qed.

(** The processor when no call fails, for any listing. *)
Lemma directoryWorker_succeeds B env data w items :
  0 < B ->
  faultless env ->
  github w (JobData.owner data) (JobData.repo data) (JobData.path data)
  = Some items ->
  let repositoryId := JobData.repositoryId data in
  ∃ w',
    directoryWorker B env data w
    = (Resolved (Some (JobResult.mk "SUCCESS" (length items))), w')
    ∧ repository w' = repository w
    ∧ directory w'
      = directory w
        ++ imap (created_directory env)
             (directoryData ∅ repositoryId (directories_of items))
    ∧ file w'
      = file w
        ++ map (file_data repositoryId (directoryId_of env repositoryId items))
             (files_of items).
Proof.
  intros HB Henv Hgh rid.
  pose proof Henv as (Htx & Hfiles & _).
  unfold directoryWorker, try_catch.
  rewrite (directoryWorker_try_run B env data w items Hgh). cbv zeta.
  rewrite Htx. unfold after_directories. fold rid.
  unfold bind at 1. rewrite processFilesInBatches_ok by (intros; apply Hfiles).
  unfold bind at 1.
  match goal with |- context [queue_subdirectories ?e ?o ?r ?i ?d ?w0] =>
    destruct (queue_subdirectories_faultless e o r i d w0 Henv)
      as (w3 & Hq & Hg3 & Hr3 & Hd3 & Hf3 & Hq3 & Hc3)
  end.
  rewrite Hq. unfold bind, sendProcessingUpdate, resolve.
  eexists. split; [ reflexivity | ]. simpl.
  rewrite Hr3, Hd3, Hf3. simpl.
  repeat split; try reflexivity.
  now rewrite <- concat_map, (fileBatches_concat B HB).
Qed.

(** X3. When no call fails, a job creates one directory row for each
    entry of type "dir" of the listing and one file row for each entry of
    type "file", in the order of the listing, with the path of the entry
    and the run of the job; entries of any other type leave no row, though
    the count the job returns, [processed], includes them.  The job does
    not write the status of the run. *)
Theorem faultless_job_persists_the_listing (B : nat) (env : Env)
    (data : JobData.t) (w : World) (items : list GitHubContent.t) :
  0 < B ->
  faultless env ->
  github w (JobData.owner data) (JobData.repo data) (JobData.path data)
  = Some items ->
  let run := directoryWorker B env data w in
  let repositoryId := JobData.repositoryId data in
  run.1 = Resolved (Some (JobResult.mk "SUCCESS" (length items)))
  ∧ length items
    = length (directories_of items) + length (files_of items)
      + length (others_of items)
  ∧ (∃ rows,
       directory run.2 = directory w ++ rows
       ∧ map Directory.path rows = map GitHubContent.path (directories_of items)
       ∧ Forall (fun d => Directory.repositoryId d = repositoryId) rows)
  ∧ (∃ rows,
       file run.2 = file w ++ rows
       ∧ map File.path rows = map GitHubContent.path (files_of items)
       ∧ map File.name rows = map GitHubContent.name (files_of items)
       ∧ map File.content rows
         = map (fun f => default "" (GitHubContent.content f)) (files_of items)
       ∧ Forall (fun f => File.repositoryId f = repositoryId) rows)
  ∧ repository run.2 = repository w.
Proof.
  intros HB Henv Hgh run rid.
  destruct (directoryWorker_succeeds B env data w items HB Henv Hgh)
    as (w' & Hrun & Hr & Hd & Hf).
  subst run. rewrite Hrun. simpl.
  split; [ reflexivity | ]. split; [ apply listing_partition | ].
  split; [ | split; [ | exact Hr ] ].
  - eexists. split; [ exact Hd | ]. split.
    + rewrite created_directory_paths. apply directoryData_paths.
    + apply Forall_forall. intros d Hd'.
      apply elem_of_lookup_imap in Hd' as (i & c & -> & Hc). simpl.
      pose proof (directoryData_paths ∅ rid (directories_of items)) as [_ HF].
      rewrite Forall_forall in HF. apply HF.
      eapply list_elem_of_lookup_2. exact Hc.
  - eexists. split; [ exact Hf | ]. rewrite !map_map. simpl.
    repeat split; try reflexivity.
    apply Forall_forall. intros f Hf'.
    apply list_elem_of_In, in_map_iff in Hf'. now destruct Hf' as (x & <- & _).
Qed.

Lemma faultless_job_persists_the_listing_witness :
  let run := directoryWorker 100 no_faults root_job
               (one_run mixed_listing "r1" PROCESSING 1) in
  run.1 = Resolved (Some (JobResult.mk "SUCCESS" 4))
  ∧ map Directory.path (directory run.2) = [ "src" ]
  ∧ map File.path (file run.2) = [ "README.md" ].
Proof.
  pose proof (faultless_job_persists_the_listing 100 no_faults root_job
                (one_run mixed_listing "r1" PROCESSING 1) _
                ltac:(lia) faultless_no_faults eq_refl)
    as (H1 & _ & (drows & Hd & Hdp & _) & (frows & Hf & Hfp & _) & _).
  cbv zeta in *. split; [ exact H1 | ].
  rewrite Hd, Hf. simpl. rewrite Hdp, Hfp. split; reflexivity.
Defined.

(** ** How a job ends *)

Lemma directoryWorker_try_result B env data w result w' :
  directoryWorker_try B env data w = (Resolved result, w') ->
  ∃ items,
    github w (JobData.owner data) (JobData.repo data) (JobData.path data)
    = Some items
    ∧ result = Some (JobResult.mk "SUCCESS" (length items)).
Proof.
  destruct (github w (JobData.owner data) (JobData.repo data)
              (JobData.path data)) as [items|] eqn:Hgh.
  - rewrite (directoryWorker_try_run B env data w items Hgh). cbv zeta.
    destruct (directory_tx_ok env); [ | discriminate ].
    unfold after_directories, bind.
    destruct (processFilesInBatches _ _ _ _ _ _ _) as [[[]|e1] w1];
      [ | discriminate ].
    destruct (queue_subdirectories _ _ _ _ _ _) as [[[]|e2] w2];
      [ | discriminate ].
    unfold sendProcessingUpdate, resolve. intros [= <- <-]. now exists items.
  - rewrite (directoryWorker_try_unreachable B env data w Hgh). discriminate.
Qed.

Lemma directoryWorker_try_trace B env data :
  preserves (extends trace (fun _ => True)) (directoryWorker_try B env data).
Proof.
  assert (Hcall : ∀ A (m : Async A),
            (∀ w, ∃ evs, trace (m w).2 = trace w ++ evs) ->
            preserves (extends trace (fun _ => True)) m).
  { intros A m H w. destruct (H w) as [evs E]. exists evs.
    split; [ exact E | apply Forall_forall; auto ]. }
  apply directoryWorker_try_preserves; try typeclasses eauto; intros;
    try (apply Hcall; intros w; unfold_calls; repeat case_match; simpl;
         eexists; reflexivity).
  apply Hcall. intros w. eexists. apply queue_subdirectories_trace.
Qed.

(** X4. A run of the processor ends in one of three ways.  It resolves
    with a result, [SUCCESS] and the number of entries of the listing, and
    then it has written no status.  Or it resolves with no value, and then
    the run is [FAILED].  Or it rejects, which is the only way for the queue
    to report the job as failed: then the job has issued the write of
    [FAILED], that write was rejected, because the database refused it or
    because the run does not exist, and no status has changed. *)
Theorem processor_outcome (B : nat) (env : Env) (data : JobData.t) (w : World) :
  0 < B ->
  let run := directoryWorker B env data w in
  let repositoryId := JobData.repositoryId data in
  match run.1 with
  | Resolved (Some result) =>
      (∃ items,
         github w (JobData.owner data) (JobData.repo data) (JobData.path data)
         = Some items
         ∧ result = JobResult.mk "SUCCESS" (length items))
      ∧ repository run.2 = repository w
  | Resolved None =>
      is_Some (status_of w repositoryId)
      ∧ repository run.2 = <[repositoryId := FAILED]> (repository w)
  | Rejected e =>
      e = PersistenceError
      ∧ (repository_update_ok env = false ∨ status_of w repositoryId = None)
      ∧ repository run.2 = repository w
      ∧ ∃ evs, trace run.2 = trace w ++ evs
               ∧ RepositoryUpdate repositoryId FAILED false ∈ evs
  end.
Proof.
  intros _ run rid. subst run. unfold directoryWorker, try_catch.
  pose proof (directoryWorker_try_repository B env data w) as Hrepo.
  pose proof (directoryWorker_try_trace B env data w) as (evs & Htrace & _).
  destruct (directoryWorker_try B env data w) as [[result|e] w1] eqn:Htry;
    unfold unchanged in Hrepo; simpl in Hrepo, Htrace.
  - apply directoryWorker_try_result in Htry as (items & Hgh & ->). simpl.
    split; [ | exact Hrepo ]. now exists items.
  - unfold directoryWorker_catch, bind, prisma_repository_update.
    fold rid. rewrite Hrepo. unfold status_of.
    destruct (repository w !! rid) as [st|] eqn:Hst.
    + destruct (repository_update_ok env) eqn:Hok; simpl.
      * split; [ now exists st | reflexivity ].
      * split; [ reflexivity | ]. split; [ now left | ].
        split; [ exact Hrepo | ]. eexists. rewrite Htrace.
        split; [ now rewrite <- app_assoc | ].
        apply elem_of_app. right. apply list_elem_of_here.
    + simpl. split; [ reflexivity | ]. split; [ now right | ].
      split; [ exact Hrepo | ]. eexists. rewrite Htrace.
      split; [ now rewrite <- app_assoc | ].
      apply elem_of_app. right. apply list_elem_of_here.
Qed.

Lemma processor_outcome_witness :
  (directoryWorker 100 database_down root_job
     (one_run small_tree "r1" PROCESSING 1)).1
  = Rejected PersistenceError.
Proof.
  pose proof (processor_outcome 100 database_down root_job
                (one_run small_tree "r1" PROCESSING 1) ltac:(lia)) as H.
  cbv zeta in H.
  destruct (directoryWorker 100 database_down root_job
              (one_run small_tree "r1" PROCESSING 1)) as [[[res|]|e] w'] eqn:E;
    simpl in H.
  - vm_compute in E. discriminate E.
  - vm_compute in E. discriminate E.
  - destruct H as [-> _]. reflexivity.
Defined.

(** ** The directory of the files *)

Lemma set_all_lookup_None_inv (directoryMap : gmap string Directory.t) rows key :
  set_all directoryMap rows !! key = None ->
  directoryMap !! key = None ∧ Forall (fun d => Directory.path d ≠ key) rows.
Proof.
  unfold set_all. revert directoryMap.
  induction rows as [|d rows IH]; intros m Hnone; simpl in *.
  - split; [ assumption | constructor ].
  - apply IH in Hnone as [Hm Hrows].
    destruct (decide (Directory.path d = key)) as [E|E].
    + rewrite E, lookup_insert_eq in Hm. discriminate.
    + rewrite lookup_insert_ne in Hm by assumption.
      split; [ assumption | now constructor ].
Qed.

Lemma directoryId_of_some env repositoryId items :
  directoryId_of env repositoryId items ≠ None ->
  ∃ dir, dir ∈ directories_of items
         ∧ GitHubContent.path dir = dirPath_of (files_of items).
Proof.
  intros Hsome. unfold directoryId_of in Hsome.
  destruct (decide (Exists (fun d => Directory.path d = dirPath_of (files_of items))
                      (imap (created_directory env)
                         (directoryData ∅ repositoryId (directories_of items)))))
    as [Hex|Hex].
  - apply Exists_exists in Hex as (d & Hd & Hp).
    apply elem_of_lookup_imap in Hd as (i & c & -> & Hc). simpl in Hp.
    apply list_elem_of_lookup_2, list_elem_of_In, in_map_iff in Hc.
    destruct Hc as (dir & <- & Hdir). simpl in Hp.
    exists dir. split; [ now apply list_elem_of_In | exact Hp ].
  - exfalso. apply Hsome. rewrite set_all_lookup_None; [ reflexivity | | ].
    + apply lookup_empty.
    + apply Forall_forall. intros d Hd Hp. apply Hex.
      apply Exists_exists. now exists d.
Qed.

(** X5. All the file rows a job persists carry the same directory
    identifier, which is computed once, from the path of the first file
    alone.  It is non-null only when the containing path of that first file
    is the path of a subdirectory of the same listing. *)
Theorem files_share_one_directoryId (B : nat) (env : Env) (data : JobData.t)
    (w : World) (items : list GitHubContent.t) :
  0 < B ->
  github w (JobData.owner data) (JobData.repo data) (JobData.path data)
  = Some items ->
  let repositoryId := JobData.repositoryId data in
  let directoryId := directoryId_of env repositoryId items in
  (∃ rows,
     file (directoryWorker B env data w).2 = file w ++ rows
     ∧ Forall (fun f => File.directoryId f = directoryId) rows)
  ∧ (directoryId ≠ None ->
     ∃ dir, dir ∈ directories_of items
            ∧ GitHubContent.path dir = dirPath_of (files_of items)).
Proof.
  intros _ Hgh rid did. split; [ | apply directoryId_of_some ].
  set (R := extends file (fun f => File.directoryId f = did)).
  change (R w (directoryWorker B env data w).2).
  assert (Hcatch : ∀ e, preserves R (directoryWorker_catch env data e)).
  { intros e. apply directoryWorker_catch_preserves; try typeclasses eauto;
      intros; call_frame. }
  assert (Hafter : preserves R (after_directories B env data items)).
  { unfold after_directories. fold rid did.
    preserves_struct; try call_frame.
    - apply processFilesInBatches_preserves; try typeclasses eauto;
        intros; [ apply file_rows_directoryId | call_frame ].
    - apply queue_subdirectories_preserves; try typeclasses eauto;
        intros; call_frame. }
  unfold directoryWorker, try_catch.
  rewrite (directoryWorker_try_run _ _ _ _ _ Hgh). cbv zeta.
  destruct (directory_tx_ok env).
  - match goal with |- context [after_directories _ _ _ _ ?w0] =>
      assert (H0 : R w w0);
      [ exists []; simpl; split; [ symmetry; apply app_nil_r | constructor ] | ];
      specialize (Hafter w0);
      destruct (after_directories B env data items w0) as [[a|e'] w1]
    end; simpl in *.
    + etransitivity; eassumption.
    + etransitivity; [ exact H0 | ].
      etransitivity; [ exact Hafter | apply Hcatch ].
  - etransitivity; [ | apply Hcatch ].
    exists []. simpl. split; [ symmetry; apply app_nil_r | constructor ].
Qed.

Lemma files_share_one_directoryId_witness :
  map File.directoryId
    (file (directoryWorker 100 no_faults root_job
             (one_run nested_listing "r1" PROCESSING 1)).2)
  = [ Some "dir-0"; Some "dir-0" ].
Proof.
  destruct (files_share_one_directoryId 100 no_faults root_job
              (one_run nested_listing "r1" PROCESSING 1) _ ltac:(lia) eq_refl)
    as [(rows & Hrows & Hall) _].
  rewrite Hrows. simpl.
  assert (Hlen : map File.path rows = [ "a/x.txt"; "b/y.txt" ]).
  { change rows with (file (one_run nested_listing "r1" PROCESSING 1) ++ rows).
    rewrite <- Hrows. vm_compute. reflexivity. }
  destruct rows as [|f1 [|f2 [|f3 rows]]]; try discriminate Hlen.
  apply Forall_cons in Hall as [H1 Hall].
  apply Forall_cons in Hall as [H2 _].
  simpl. rewrite H1, H2. reflexivity.
Defined.

(** ** Paths *)

(** X6. For a listing of immediate children of the path of the job, the
    path the code computes as the parent of each subdirectory is the path
    of the job, and so is the path it computes from the first file; with no
    file at all, that path is the empty one.  Splitting a path at the
    slashes and joining the parts again gives the path back. *)
Theorem computed_paths_are_the_job_path (path : string)
    (items : list GitHubContent.t) :
  immediate_children path items ->
  Forall (fun dir => parent_path (GitHubContent.path dir) = path)
         (directories_of items)
  ∧ (files_of items ≠ [] -> dirPath_of (files_of items) = path)
  ∧ (files_of items = [] -> dirPath_of (files_of items) = "")
  ∧ ∀ s, join "/" (split "/" s) = s.
Proof.
  intros Hc. split; [ | split; [ | split ] ].
  - apply Forall_forall. intros dir Hdir.
    apply list_elem_of_filter in Hdir as [_ Hdir].
    unfold immediate_children in Hc. rewrite Forall_forall in Hc.
    destruct (Hc dir Hdir) as [Hseg ->]. now apply parent_path_child.
  - intros Hne.
    pose proof (immediate_children_filter path
                  (fun item => GitHubContent.type item = "file") items Hc) as Hf.
    fold (files_of items) in Hf.
    destruct (files_of items) as [|f fs]; [ contradiction | ].
    apply Forall_cons in Hf as [[Hseg Hp] _].
    unfold dirPath_of. simpl. fold (parent_path (GitHubContent.path f)).
    rewrite Hp. now apply parent_path_child.
  - intros ->. reflexivity.
  - intros s. apply (join_split "/").
Qed.

Lemma computed_paths_are_the_job_path_witness :
  Forall (fun dir => parent_path (GitHubContent.path dir) = "src")
    (directories_of
       [ GitHubContent.mk "src/lib" "lib" "dir" None;
         GitHubContent.mk "src/main.ts" "main.ts" "file" (Some "export {}") ]).
Proof.
  exact (proj1 (computed_paths_are_the_job_path "src" _ src_listing_children)).
Defined.

(** ** Queueing the subdirectories *)

Lemma applied_incrs env key k directories :
  incrs key (incr_events env key k directories) = applied env k directories.
Proof.
  revert k. induction directories as [|dir rest IH]; intros k; [ reflexivity | ].
  simpl. specialize (IH (S k)). unfold incrs in *. simpl.
  destruct (incr_ok env k); simpl.
  - rewrite String.eqb_refl. simpl. now rewrite IH.
  - exact IH.
Qed.

Lemma issue_incrs_outcomes env key k directories w :
  forallb id (issue_incrs env key k directories w).1
  = forallb (incr_ok env) (seq k (length directories)).
Proof.
  revert k w. induction directories as [|dir rest IH]; intros k w; simpl;
    [ reflexivity | ].
  unfold redis_incr.
  destruct (incr_ok env k);
    match goal with |- context [issue_incrs _ _ _ _ ?w0] =>
      specialize (IH (S k) w0); destruct (issue_incrs env key (S k) rest w0)
    end; simpl in *; first [ exact IH | reflexivity ].
Qed.

Lemma issue_adds_exact env owner repo repositoryId k directories w :
  directoryQueue (issue_adds env owner repo repositoryId k directories w).2
  = directoryQueue w ++ enqueued env owner repo repositoryId k directories
  ∧ forallb id (issue_adds env owner repo repositoryId k directories w).1
    = all_resolved env k directories.
Proof.
  unfold all_resolved. revert k w.
  induction directories as [|dir rest IH]; intros k w; simpl.
  - split; [ now rewrite app_nil_r | reflexivity ].
  - unfold directoryQueue_add.
    destruct (incr_ok env k); [ destruct (add_ok env k) | ];
      match goal with |- context [issue_adds _ _ _ _ _ _ ?w0] =>
        specialize (IH (S k) w0);
        destruct (issue_adds env owner repo repositoryId (S k) rest w0)
      end; simpl in *; destruct IH as [IHq IHo];
      (split;
       [ rewrite IHq; first [ reflexivity | now rewrite <- app_assoc ]
       | first [ exact IHo | reflexivity ] ]).
Qed.

Lemma all_resolved_incrs env k directories :
  all_resolved env k directories = true ->
  forallb (incr_ok env) (seq k (length directories)) = true.
Proof.
  unfold all_resolved. generalize (seq k (length directories)). intros l.
  induction l as [|j l IH]; simpl; [ reflexivity | ].
  intros H. apply andb_true_iff in H as [Hj Hl].
  apply andb_true_iff in Hj as [Hj _]. rewrite Hj. now apply IH.
Qed.

Lemma enqueued_applied env owner repo repositoryId k directories :
  length (enqueued env owner repo repositoryId k directories)
  <= applied env k directories.
Proof.
  revert k. induction directories as [|dir rest IH]; intros k; simpl; [ lia | ].
  specialize (IH (S k)).
  destruct (incr_ok env k), (add_ok env k); simpl; lia.
Qed.

Lemma enqueued_member env owner repo repositoryId k directories j dir :
  directories !! j = Some dir ->
  incr_ok env (k + j) = true -> add_ok env (k + j) = true ->
  child_job owner repo repositoryId dir
  ∈ enqueued env owner repo repositoryId k directories.
Proof.
  revert k j. induction directories as [|d rest IH]; intros k j Hj Hi Ha;
    [ discriminate | ].
  destruct j as [|j]; simpl in *.
  - injection Hj as ->. rewrite Nat.add_0_r in Hi, Ha. rewrite Hi, Ha. simpl.
    apply list_elem_of_here.
  - assert (Hin : child_job owner repo repositoryId dir
                  ∈ enqueued env owner repo repositoryId (S k) rest).
    { apply (IH (S k) j Hj); [ now rewrite <- Hi; f_equal; lia
                             | now rewrite <- Ha; f_equal; lia ]. }
    destruct (incr_ok env k && add_ok env k); [ now apply list_elem_of_further | ].
    exact Hin.
Qed.

(** X7. The queueing step does not stop at a failure.  Whatever calls
    fail, it adds the child job of every subdirectory whose INCR and whose
    [add] both resolved, in the order of the listing, and it increments
    the counter once for every INCR that resolved; so the counter grows by
    at least the number of jobs added, and by more when an [add] fails
    after its INCR.  The step resolves exactly when every call did. *)
Theorem queueing_outlives_a_failure (env : Env) (owner repo repositoryId : string)
    (directories : list GitHubContent.t) (w : World) :
  let run := queue_subdirectories env owner repo repositoryId directories w in
  let key := pending_jobs repositoryId in
  directoryQueue run.2
  = directoryQueue w ++ enqueued env owner repo repositoryId 0 directories
  ∧ counter run.2 key = (counter w key + Z.of_nat (applied env 0 directories))%Z
  ∧ length (enqueued env owner repo repositoryId 0 directories)
    <= applied env 0 directories
  ∧ (run.1 = Resolved tt <-> all_resolved env 0 directories = true)
  ∧ ∀ k dir,
      directories !! k = Some dir ->
      incr_ok env k = true -> add_ok env k = true ->
      child_job owner repo repositoryId dir ∈ directoryQueue run.2.
Proof.
  intros run key. subst run. unfold queue_subdirectories.
  pose proof (issue_incrs_effect env key 0 directories w) as [H1q H1c].
  pose proof (issue_incrs_outcomes env key 0 directories w) as H1o.
  fold key.
  destruct (issue_incrs env key 0 directories w) as [incrs0 w1].
  pose proof (issue_adds_effect env owner repo repositoryId 0 directories w1)
    as (H2r & _).
  pose proof (issue_adds_exact env owner repo repositoryId 0 directories w1)
    as [H2q H2o].
  destruct (issue_adds env owner repo repositoryId 0 directories w1)
    as [adds0 w2].
  simpl in *. rewrite applied_incrs in H1c.
  assert (Hq : directoryQueue w2
               = directoryQueue w
                 ++ enqueued env owner repo repositoryId 0 directories)
    by now rewrite H2q, H1q.
  assert (Hc : counter w2 key
               = (counter w key + Z.of_nat (applied env 0 directories))%Z).
  { unfold counter at 1. rewrite H2r. fold (counter w1 key). exact H1c. }
  assert (Hres : (if forallb id incrs0
                  then if forallb id adds0
                       then (Resolved (), w2) else (Rejected QueueError, w2)
                  else (Rejected CounterStoreError, w2)).1 = Resolved ()
                 <-> all_resolved env 0 directories = true).
  { rewrite H1o, H2o. split.
    - destruct (forallb (incr_ok env) (seq 0 (length directories)));
        [ | discriminate ].
      destruct (all_resolved env 0 directories); [ reflexivity | discriminate ].
    - intros Hall. rewrite (all_resolved_incrs env 0 directories Hall), Hall.
      reflexivity. }
  assert (Hsame : ∀ X (f : World -> X),
            f (if forallb id incrs0
               then if forallb id adds0
                    then (Resolved (), w2) else (Rejected QueueError, w2)
               else (Rejected CounterStoreError, w2)).2 = f w2)
    by (intros; repeat case_match; reflexivity).
  rewrite (Hsame _ directoryQueue), (Hsame _ (fun w => counter w key)).
  split; [ exact Hq | ]. split; [ exact Hc | ].
  split; [ apply enqueued_applied | ]. split; [ exact Hres | ].
  intros k dir Hk Hi Ha. rewrite Hq. apply elem_of_app. right.
  now apply (enqueued_member env owner repo repositoryId 0 directories k dir).
Qed.

Lemma queueing_outlives_a_failure_witness :
  let run := queue_subdirectories second_add_fails "o" "p" "r1"
               three_directories (one_run no_content "r1" PROCESSING 1) in
  map JobData.path (directoryQueue run.2) = [ "a"; "c" ]
  ∧ counter run.2 (pending_jobs "r1") = 4%Z
  ∧ run.1 ≠ Resolved tt.
Proof.
  pose proof (queueing_outlives_a_failure second_add_fails "o" "p" "r1"
                three_directories (one_run no_content "r1" PROCESSING 1))
    as (Hq & Hc & _ & Hres & _).
  cbv zeta in *. rewrite Hq, Hc.
  split; [ reflexivity | ]. split; [ reflexivity | ].
  intros E. apply Hres in E. discriminate E.
Defined.

(** ** A job and the other runs *)

#[global] Instance other_statuses_preorder r : PreOrder (other_statuses r).
Proof.
  split.
  - intros w r' _. reflexivity.
  - intros x y z H1 H2 r' Hr. rewrite (H2 r' Hr). now apply H1.
Qed.

#[global] Instance other_counters_preorder key : PreOrder (other_counters key).
Proof.
  split.
  - intros w k _. reflexivity.
  - intros x y z H1 H2 k Hk. rewrite (H2 k Hk). now apply H1.
Qed.

#[global] Instance counters_grow_preorder : PreOrder counters_grow.
Proof.
  split.
  - intros w k. lia.
  - intros x y z H1 H2 k. specialize (H1 k). specialize (H2 k). lia.
Qed.

(** Closes [preserves R m] for a single call [m] when [R] speaks of the
    statuses or of the counters. *)
Ltac call_counters :=
  let w := fresh "w" in
  let k := fresh "k" in
  solve [ intros w; unfold_calls; repeat case_match; simpl;
          intros k; intros; unfold status_of, counter; simpl;
          first
            [ reflexivity
            | lia
            | rewrite lookup_insert_ne by congruence; reflexivity
            | match goal with
              | |- context [ <[?key := _]> _ !! k ] =>
                  destruct (decide (k = key)) as [->|];
                  [ rewrite lookup_insert_eq; simpl; lia
                  | rewrite lookup_insert_ne by congruence; reflexivity ]
              end ] ].

Lemma created_directories_run env repositoryId directories :
  Forall (fun d => Directory.repositoryId d = repositoryId)
         (imap (created_directory env)
               (directoryData ∅ repositoryId directories)).
Proof.
  apply Forall_forall. intros d Hd.
  apply elem_of_lookup_imap in Hd as (i & c & -> & Hc). simpl.
  apply list_elem_of_lookup_2, list_elem_of_In, in_map_iff in Hc.
  now destruct Hc as (dir & <- & _).
Qed.

Lemma directoryWorker_directory_run B env data :
  preserves (extends directory
               (fun d => Directory.repositoryId d = JobData.repositoryId data))
            (directoryWorker B env data).
Proof.
  apply directoryWorker_preserves; try typeclasses eauto; intros; try call_frame.
  - intros w. unfold prisma_transaction_directory.
    destruct (directory_tx_ok env); simpl.
    + eexists. split; [ reflexivity | apply created_directories_run ].
    + exists []. simpl. split; [ symmetry; apply app_nil_r | constructor ].
  - apply queue_subdirectories_preserves; try typeclasses eauto;
      intros; call_frame.
Qed.

Lemma directoryWorker_file_run B env data :
  preserves (extends file
               (fun f => File.repositoryId f = JobData.repositoryId data))
            (directoryWorker B env data).
Proof.
  apply directoryWorker_preserves; try typeclasses eauto; intros; try call_frame.
  - intros w. unfold prisma_transaction_file.
    destruct (file_tx_ok env i); simpl.
    + eexists. split; [ reflexivity | ].
      apply Forall_forall. intros f Hf.
      apply list_elem_of_In, in_map_iff in Hf. now destruct Hf as (x & <- & _).
    + exists []. simpl. split; [ symmetry; apply app_nil_r | constructor ].
  - apply queue_subdirectories_preserves; try typeclasses eauto;
      intros; call_frame.
Qed.

Lemma directoryWorker_other_statuses B env data :
  preserves (other_statuses (JobData.repositoryId data))
            (directoryWorker B env data).
Proof.
  apply directoryWorker_preserves; try typeclasses eauto; intros;
    try call_counters.
  apply queue_subdirectories_preserves; try typeclasses eauto;
    intros; call_counters.
Qed.

Lemma directoryWorker_other_counters B env data :
  preserves (other_counters (pending_jobs (JobData.repositoryId data)))
            (directoryWorker B env data).
Proof.
  apply directoryWorker_preserves; try typeclasses eauto; intros;
    try call_counters.
  apply queue_subdirectories_preserves; try typeclasses eauto;
    intros; call_counters.
Qed.

Lemma directoryWorker_counters_grow B env data :
  preserves counters_grow (directoryWorker B env data).
Proof.
  apply directoryWorker_preserves; try typeclasses eauto; intros;
    try call_counters.
  apply queue_subdirectories_preserves; try typeclasses eauto;
    intros; call_counters.
Qed.

Lemma directoryWorker_github B env data :
  preserves (unchanged github) (directoryWorker B env data).
Proof.
  apply directoryWorker_preserves; try typeclasses eauto; intros; try call_frame.
  apply queue_subdirectories_preserves; try typeclasses eauto; intros; call_frame.
Qed.

(** X8. A job only adds, and only to its own run.  One run of the
    processor leaves the rows already in the tables and the jobs already
    waiting where they are and appends to them; every row and every job it
    adds carries the run of the job.  It lowers no counter, changes no
    counter but that of its run, and no status but that of its run.  The
    completion handler, for its part, touches neither the tables nor the
    queue, no status and no counter but those of the run of the job, and
    it takes at most one from that counter. *)
Theorem job_touches_only_its_run (B : nat) (env : Env) (data : JobData.t)
    (w : World) :
  0 < B ->
  let repositoryId := JobData.repositoryId data in
  let key := pending_jobs repositoryId in
  let w1 := (directoryWorker B env data w).2 in
  let w2 := (on_completed env data w).2 in
  ((∃ rows, directory w1 = directory w ++ rows
            ∧ Forall (fun d => Directory.repositoryId d = repositoryId) rows)
   ∧ (∃ rows, file w1 = file w ++ rows
              ∧ Forall (fun f => File.repositoryId f = repositoryId) rows)
   ∧ (∃ jobs, directoryQueue w1 = directoryQueue w ++ jobs
              ∧ Forall (fun j => JobData.repositoryId j = repositoryId) jobs)
   ∧ (∀ r, r ≠ repositoryId -> status_of w1 r = status_of w r)
   ∧ (∀ k, (counter w k <= counter w1 k)%Z)
   ∧ (∀ k, k ≠ key -> counter w1 k = counter w k))
  ∧ (directory w2 = directory w
     ∧ file w2 = file w
     ∧ directoryQueue w2 = directoryQueue w
     ∧ (∀ r, r ≠ repositoryId -> status_of w2 r = status_of w r)
     ∧ (counter w key - 1 <= counter w2 key <= counter w key)%Z
     ∧ (∀ k, k ≠ key -> counter w2 k = counter w k)).
Proof.
  intros _ rid key w1 w2. split.
  - split; [ apply directoryWorker_directory_run | ].
    split; [ apply directoryWorker_file_run | ].
    split; [ apply directoryWorker_queue_jobs | ].
    split; [ apply directoryWorker_other_statuses | ].
    split; [ apply directoryWorker_counters_grow
           | apply directoryWorker_other_counters ].
  - pose proof (on_completed_cases env data w rid)
      as (Hq & _ & Hd & Hf & Hr & Hs).
    cbv zeta in Hr, Hs. fold rid key w2 in Hq, Hd, Hf, Hr, Hs |- *.
    split; [ exact Hd | ]. split; [ exact Hf | ]. split; [ exact Hq | ].
    split; [ | split ].
    + intros r Hne. unfold status_of.
      destruct Hs as [[Hs _]|(_ & _ & _ & Hs & _)]; rewrite Hs;
        [ reflexivity | now apply lookup_insert_ne ].
    + destruct Hr as [Hr|[_ Hr]]; unfold counter at 2 3; rewrite Hr.
      * fold (counter w key). lia.
      * rewrite lookup_insert_eq. simpl. lia.
    + intros k Hne. destruct Hr as [Hr|[_ Hr]]; unfold counter; rewrite Hr;
        [ reflexivity | ]. now rewrite lookup_insert_ne.
Qed.

Lemma job_touches_only_its_run_witness :
  status_of
    (directoryWorker 100 no_faults (JobData.mk "o" "p" "r2" "")
       (one_run small_tree "r1" PROCESSING 1)).2 "r1"
  = Some PROCESSING.
Proof.
  destruct (job_touches_only_its_run 100 no_faults (JobData.mk "o" "p" "r2" "")
              (one_run small_tree "r1" PROCESSING 1) ltac:(lia))
    as [(_ & _ & _ & Hs & _) _].
  rewrite Hs; [ reflexivity | discriminate ].
Defined.

(** ** Failed calls and the completion of a run *)

Lemma failures_app a b : failures (a ++ b) = failures a + failures b.
Proof. unfold failures. now rewrite List.filter_app, length_app. Qed.

Lemma quiet_resolve {A} (a : A) : quiet (resolve a).
Proof. intros w. exists []. simpl. split; [ now rewrite app_nil_r | reflexivity ]. Qed.

Lemma quiet_reject {A} e : quiet (@reject A e).
Proof.
  intros w. exists []. simpl. split; [ now rewrite app_nil_r | discriminate ].
Qed.

Lemma quiet_bind {A C} (m : Async A) (k : A -> Async C) :
  quiet m -> (∀ a, quiet (k a)) -> quiet (bind m k).
Proof.
  intros Hm Hk w. unfold bind. destruct (Hm w) as (e1 & T1 & F1).
  destruct (m w) as [[a|e] w1]; simpl in *.
  - destruct (Hk a w1) as (e2 & T2 & F2). exists (e1 ++ e2). split.
    + now rewrite T2, T1, app_assoc.
    + intros c Hc. now rewrite failures_app, (F1 a eq_refl), (F2 c Hc).
  - exists e1. split; [ exact T1 | discriminate ].
Qed.

(** A handler that rethrows. *)
Lemma quiet_rethrow {A} (body : Async A) (handler : Error -> Async unit) :
  quiet body ->
  (∀ e, preserves (extends trace (fun _ => True)) (handler e)) ->
  quiet (try_catch body (fun e => await _ <- handler e; reject e)).
Proof.
  intros Hbody Hh w. unfold try_catch. destruct (Hbody w) as (e1 & T1 & F1).
  destruct (body w) as [[a|e] w1]; simpl in *.
  - exists e1. split; [ exact T1 | ]. intros c _. now apply (F1 a).
  - destruct (Hh e w1) as (e2 & T2 & _). unfold bind.
    destruct (handler e w1) as [[[]|e'] w2]; simpl in *.
    + exists (e1 ++ e2). split; [ now rewrite T2, T1, app_assoc | discriminate ].
    + exists (e1 ++ e2). split; [ now rewrite T2, T1, app_assoc | discriminate ].
Qed.

(** Closes [quiet m] for a single call [m]. *)
Ltac quiet_call :=
  let w := fresh "w" in
  solve [ intros w; unfold_calls; repeat case_match; simpl;
          eexists; (split; [ reflexivity | ]);
          intros; first [ discriminate | reflexivity ] ].

(** Splits a goal [quiet m] along the binds of [m]. *)
Ltac quiet_struct :=
  cbv zeta;
  repeat lazymatch goal with
    | |- quiet (resolve _) => apply quiet_resolve
    | |- quiet (reject _) => apply quiet_reject
    | |- quiet (bind _ _) => apply quiet_bind; [ | intros ? ]
    end.

Lemma save_batches_quiet env repositoryId currentPath directoryId total i batches :
  quiet (save_batches env repositoryId currentPath directoryId total i batches).
Proof.
  revert i. induction batches as [|batch rest IH]; intros i; simpl.
  - apply quiet_resolve.
  - quiet_struct; [ quiet_call | quiet_call | apply IH ].
Qed.

Lemma processFilesInBatches_quiet B env files repositoryId currentPath directoryId :
  quiet (processFilesInBatches B env files repositoryId currentPath directoryId).
Proof.
  unfold processFilesInBatches. apply quiet_rethrow.
  - quiet_struct; [ quiet_call | apply save_batches_quiet | quiet_call ].
  - intros e w. unfold_calls. simpl. eexists. split; [ reflexivity | ].
    repeat constructor.
Qed.

Lemma incr_events_quiet env key k directories :
  forallb (incr_ok env) (seq k (length directories)) = true ->
  failures (incr_events env key k directories) = 0.
Proof.
  revert k. induction directories as [|dir rest IH]; intros k H; simpl in *.
  - reflexivity.
  - apply andb_prop in H as [Hk H]. unfold failures. simpl. rewrite Hk. simpl.
    now apply IH.
Qed.

Lemma add_events_quiet env owner repo repositoryId k directories :
  all_resolved env k directories = true ->
  failures (add_events env owner repo repositoryId k directories) = 0.
Proof.
  unfold all_resolved. revert k.
  induction directories as [|dir rest IH]; intros k H; simpl in *.
  - reflexivity.
  - apply andb_prop in H as [Hk H]. apply andb_prop in Hk as [Hi Ha].
    rewrite Hi. unfold failures. simpl. rewrite Ha. simpl. now apply IH.
Qed.

Lemma queue_subdirectories_quiet env owner repo repositoryId directories :
  quiet (queue_subdirectories env owner repo repositoryId directories).
Proof.
  intros w. eexists. split; [ apply queue_subdirectories_trace | ].
  intros a Hres. rewrite failures_app.
  pose proof (issue_incrs_outcomes env (pending_jobs repositoryId) 0
                directories w) as Hi.
  unfold queue_subdirectories in Hres.
  destruct (issue_incrs env (pending_jobs repositoryId) 0 directories w)
    as [incrs w1].
  pose proof (issue_adds_exact env owner repo repositoryId 0 directories w1)
    as [_ Ha].
  destruct (issue_adds env owner repo repositoryId 0 directories w1)
    as [adds w2].
  simpl in *.
  destruct (forallb id incrs); [ | discriminate ].
  destruct (forallb id adds); [ | discriminate ].
  rewrite incr_events_quiet, add_events_quiet by (symmetry; assumption).
  reflexivity.
Qed.

Lemma directoryWorker_try_quiet B env data : quiet (directoryWorker_try B env data).
Proof.
  unfold directoryWorker_try. quiet_struct; try quiet_call.
  - apply processFilesInBatches_quiet.
  - apply queue_subdirectories_quiet.
Qed.

(** The calls of one run of the processor, by the way it ends. *)
Lemma directoryWorker_failures B env data w :
  let run := directoryWorker B env data w in
  ∃ evs,
    trace run.2 = trace w ++ evs
    ∧ match run.1 with
      | Resolved (Some _) => failures evs = 0
      | Resolved None =>
          status_of run.2 (JobData.repositoryId data) = Some FAILED
      | Rejected _ => True
      end.
Proof.
  cbv zeta. unfold directoryWorker, try_catch.
  destruct (directoryWorker_try_quiet B env data w) as (evs & T & F).
  destruct (directoryWorker_try B env data w) as [[result|e] w1] eqn:Htry;
    simpl in *.
  - apply directoryWorker_try_result in Htry as (items & _ & ->).
    exists evs. split; [ exact T | eapply F; reflexivity ].
  - unfold directoryWorker_catch, bind, prisma_repository_update.
    destruct (repository w1 !! JobData.repositoryId data);
      [ destruct (repository_update_ok env) | ]; simpl.
    + eexists. split; [ rewrite T, <- !app_assoc; reflexivity | ].
      unfold status_of. simpl. apply lookup_insert_eq.
    + eexists. split; [ rewrite T, <- !app_assoc; reflexivity | exact I ].
    + eexists. split; [ rewrite T, <- !app_assoc; reflexivity | exact I ].
Qed.

(** What the completion handler does to the status, to the counter and to
    the record of the calls. *)
Lemma on_completed_failures env data w :
  let repositoryId := JobData.repositoryId data in
  let key := pending_jobs repositoryId in
  let w' := (on_completed env data w).2 in
  repository w' = repository w
  ∧ completions repositoryId (trace w') = completions repositoryId (trace w)
  ∧ (failures (trace w') = failures (trace w)
     ∧ (counter w key - 1 <= counter w' key)%Z
     ∨ redis w' = redis w
     ∨ counter w' key = 0%Z)
  ∨ status_of w repositoryId = Some PROCESSING
    ∧ counter w key = 1%Z
    ∧ counter w' key = 0%Z
    ∧ status_of w' repositoryId = Some SUCCESS
    ∧ completions repositoryId (trace w') = completions repositoryId (trace w) + 1
    ∧ failures (trace w') = failures (trace w).
Proof.
  intros rid key w'. subst w'. unfold on_completed. fold rid key.
  unfold bind, redis_decr, prisma_repository_findUnique.
  destruct (decr_ok env); simpl.
  2: { left. split; [ reflexivity | ]. split; [ | right; now left ].
       rewrite !completions_app. unfold completions. simpl. lia. }
  assert (Hc : ∀ evs, failures evs = 0 ->
                 (failures ((trace w ++ [Decr key true]) ++ evs)
                  = failures (trace w))).
  { intros evs H. rewrite !failures_app, H. unfold failures. simpl. lia. }
  assert (Hk : (counter w key - 1
                <= default 0 (<[key := counter w key - 1]> (redis w) !! key))%Z).
  { rewrite lookup_insert_eq. simpl. lia. }
  destruct (repository_find_ok env); simpl.
  2: { left. split; [ reflexivity | ]. split; [ | left; split; [ | exact Hk ] ].
       - rewrite !completions_app. unfold completions. simpl. lia.
       - now apply Hc. }
  case_bool_decide as Hd; simpl.
  2: { left. split; [ reflexivity | ]. split; [ | left; split; [ | exact Hk ] ].
       - rewrite !completions_app. unfold completions. simpl. lia.
       - now apply Hc. }
  destruct Hd as [Hv Hs]. unfold prisma_repository_update. simpl.
  rewrite Hs. destruct (repository_update_ok env); simpl.
  2: { left. split; [ reflexivity | ]. split; [ | right; right ].
       - rewrite !completions_app. unfold completions. simpl. lia.
       - unfold counter. simpl. rewrite lookup_insert_eq. simpl. exact Hv. }
  right. split; [ exact Hs | ]. split; [ lia | ].
  split; [ unfold counter; simpl; rewrite lookup_insert_eq; exact Hv | ].
  split; [ unfold status_of; simpl; apply lookup_insert_eq | ].
  split.
  - rewrite !completions_app. unfold completions. simpl.
    rewrite String.eqb_refl. simpl. lia.
  - rewrite <- !app_assoc. rewrite !failures_app. unfold failures. simpl. lia.
Qed.

Lemma initial_completion gh root :
  completion_invariant (JobData.repositoryId root) (initial gh root).
Proof.
  unfold completion_invariant, initial, status_of, completions, failures. simpl.
  rewrite lookup_singleton_eq. split.
  - intros [H|H]; discriminate.
  - lia.
Qed.

Lemma process_completion B repositoryId n env s data :
  run_invariant repositoryId s ->
  completion_invariant repositoryId s ->
  directoryQueue (world s) !! n = Some data ->
  let w0 := set_directoryQueue (delete n (directoryQueue (world s))) (world s) in
  let run := directoryWorker B env data w0 in
  completion_invariant repositoryId
    (mkSystem run.2
       (match run.1 with
        | Resolved _ => completing s ++ [data]
        | Rejected _ => completing s
        end)).
Proof.
  intros (HJ & HK & HS & HC) [K1 K2] Hn w0 run.
  assert (Hdata : JobData.repositoryId data = repositoryId).
  { unfold outstanding in HJ. rewrite Forall_app in HJ. destruct HJ as [HJ _].
    rewrite Forall_forall in HJ. apply HJ. eapply list_elem_of_lookup_2. exact Hn. }
  pose proof (directoryWorker_only_fails B env data w0 repositoryId) as F1.
  pose proof (directoryWorker_queue_bounded B env data w0) as F2.
  pose proof (directoryWorker_no_completion B env data repositoryId w0)
    as (evs & F4 & F4').
  pose proof (directoryWorker_failures B env data w0) as (evs' & F5 & F5').
  fold run in F1, F2, F4, F5, F5'. rewrite Hdata in F2, F5'.
  assert (Hlen : length (delete n (directoryQueue (world s)))
                 = length (directoryQueue (world s)) - 1)
    by (apply length_delete; eauto).
  assert (Hpos : 0 < length (directoryQueue (world s)))
    by (apply lookup_lt_Some in Hn; lia).
  assert (Hout : outstanding s ≠ []).
  { unfold outstanding. intros E. apply app_eq_nil in E as [E _].
    rewrite E in Hn. discriminate. }
  assert (Hnot : status_of (world s) repositoryId ≠ Some SUCCESS)
    by (intros E; now apply HS in E).
  assert (Hnone : completions repositoryId (trace (world s)) ≠ 1).
  { intros E. apply Hnot. now apply K1; right. }
  assert (Hcount : completions repositoryId (trace run.2)
                   = completions repositoryId (trace (world s))).
  { rewrite F4, completions_app. simpl.
    assert (completions repositoryId evs = 0); [ | lia ].
    unfold completions. clear F4. induction evs as [|e evs IH]; [ reflexivity | ].
    apply Forall_cons in F4' as [He Hevs]. simpl. rewrite He. now apply IH. }
  unfold completion_invariant. simpl. split.
  - intros [E|E]; exfalso.
    + destruct F1 as [F1|F1]; rewrite F1 in E; [ now apply Hnot | discriminate ].
    + apply Hnone. now rewrite <- Hcount.
  - intros Hfail. unfold queue_bounded in F2. simpl in F2.
    change (counter w0 (pending_jobs repositoryId))
      with (counter (world s) (pending_jobs repositoryId)) in F2.
    unfold outstanding in *. simpl. rewrite length_app in *.
    rewrite F5, failures_app in Hfail. simpl in Hfail.
    destruct run.1 as [[result|]|e].
    + rewrite F5' in Hfail.
      destruct K2 as [K2|[K2|K2]]; [ lia | | | contradiction ].
      * left. intros E. apply K2.
        destruct F1 as [F1|F1]; rewrite F1 in E; [ exact E | discriminate ].
      * right. left. rewrite length_app. simpl. lia.
    + left. rewrite F5'. discriminate.
    + right. left. lia.
Qed.

Lemma completed_completion repositoryId n env s data :
  run_invariant repositoryId s ->
  completion_invariant repositoryId s ->
  completing s !! n = Some data ->
  completion_invariant repositoryId
    (mkSystem (on_completed env data (world s)).2 (delete n (completing s))).
Proof.
  intros Hinv [K1 K2] Hn.
  pose proof (completed_invariant repositoryId n env s data Hinv Hn)
    as (_ & HK' & _ & _).
  destruct Hinv as (HJ & HK & HS & HC).
  assert (Hdata : JobData.repositoryId data = repositoryId).
  { unfold outstanding in HJ. rewrite Forall_app in HJ. destruct HJ as [_ HJ].
    rewrite Forall_forall in HJ. apply HJ. eapply list_elem_of_lookup_2. exact Hn. }
  pose proof (on_completed_cases env data (world s) repositoryId) as (Cq & _).
  pose proof (on_completed_failures env data (world s)) as C.
  cbv zeta in C, Cq. rewrite Hdata in C.
  set (w' := (on_completed env data (world s)).2) in *.
  assert (Hlen : length (delete n (completing s)) = length (completing s) - 1)
    by (apply length_delete; eauto).
  assert (Hpos : 0 < length (completing s))
    by (apply lookup_lt_Some in Hn; lia).
  assert (Hout : outstanding s ≠ []).
  { unfold outstanding. intros E. apply app_eq_nil in E as [_ E].
    rewrite E in Hn. discriminate. }
  assert (Hnot : status_of (world s) repositoryId ≠ Some SUCCESS)
    by (intros E; now apply HS in E).
  assert (Hnone : completions repositoryId (trace (world s)) ≠ 1).
  { intros E. apply Hnot. now apply K1; right. }
  unfold completion_invariant, outstanding in *. simpl in *.
  rewrite length_app in *. rewrite Cq in *.
  destruct C as [(Cs & Cc & Cf)|(Cp & C1 & C0 & Cs & Cc & Cf)].
  - unfold status_of in *. rewrite Cs, Cc. split.
    + intros [E|E]; [ now apply Hnot in E | now apply Hnone in E ].
    + intros Hfail. destruct Cf as [[Cf Ck]|[Cr|Cz]].
      * rewrite Cf in Hfail.
        destruct (K2 Hfail) as [K|[K|K]]; [ now left | | contradiction ].
        right. left. lia.
      * right. left. unfold counter. rewrite Cr. fold (counter (world s) (pending_jobs repositoryId)). lia.
      * right. right. apply length_zero_iff_nil. rewrite length_app. lia.
  - assert (Hzero : failures (trace (world s)) = 0).
    { destruct (failures (trace (world s))) as [|k] eqn:E; [ reflexivity | ].
      exfalso. destruct K2 as [K|[K|K]]; [ lia | contradiction | lia | contradiction ]. }
    split.
    + intros _. split; [ exact Cs | ]. split; [ | split; [ exact C0 | lia ] ].
      destruct HC as [HC|[_ HC]]; [ lia | contradiction ].
    + intros Hfail. lia.
Qed.

Lemma step_completion B repositoryId l s s' :
  run_invariant repositoryId s -> completion_invariant repositoryId s ->
  step B l s = Some s' ->
  completion_invariant repositoryId s'.
Proof.
  intros Hinv Hcomp Hstep. destruct l as [n env|n env]; simpl in Hstep.
  - destruct (directoryQueue (world s) !! n) as [data|] eqn:Hn; [ | discriminate ].
    pose proof (process_completion B repositoryId n env s data Hinv Hcomp Hn) as H.
    cbv zeta in H.
    destruct (directoryWorker B env data _) as [[a|e] w']; simpl in *;
      injection Hstep as <-; exact H.
  - destruct (completing s !! n) as [data|] eqn:Hn; [ | discriminate ].
    injection Hstep as <-. now apply completed_completion.
Qed.

Lemma run_completion B repositoryId schedule s s' :
  run_invariant repositoryId s -> completion_invariant repositoryId s ->
  run B schedule s = Some s' ->
  run_invariant repositoryId s' ∧ completion_invariant repositoryId s'.
Proof.
  revert s. induction schedule as [|l rest IH]; intros s Hinv Hcomp Hrun;
    simpl in Hrun.
  - injection Hrun as <-. now split.
  - destruct (step B l s) as [s1|] eqn:Hstep; [ | discriminate ].
    eapply IH; [ | | exact Hrun ].
    + eapply step_invariant; eassumption.
    + eapply step_completion; eassumption.
Qed.

Lemma on_completed_trace env data w :
  ∃ evs, trace (on_completed env data w).2 = trace w ++ evs.
Proof.
  unfold on_completed, bind. unfold_calls.
  repeat case_match; simplify_eq; simpl; eexists;
    rewrite <- ?app_assoc; reflexivity.
Qed.

Lemma step_failures B l s s' :
  step B l s = Some s' ->
  failures (trace (world s)) <= failures (trace (world s')).
Proof.
  intros Hstep. destruct l as [n env|n env]; simpl in Hstep.
  - destruct (directoryQueue (world s) !! n) as [data|]; [ | discriminate ].
    match type of Hstep with context [directoryWorker B env data ?w0] =>
      pose proof (directoryWorker_failures B env data w0) as (evs & T & _);
      destruct (directoryWorker B env data w0) as [[a|e] w']
    end; simpl in *; injection Hstep as <-; simpl;
      unfold on_failed; rewrite T, failures_app; lia.
  - destruct (completing s !! n) as [data|]; [ | discriminate ].
    injection Hstep as <-. simpl.
    destruct (on_completed_trace env data (world s)) as (evs & ->).
    rewrite failures_app. lia.
Qed.

Lemma run_failures B schedule s s' :
  run B schedule s = Some s' ->
  failures (trace (world s)) <= failures (trace (world s')).
Proof.
  revert s. induction schedule as [|l rest IH]; intros s Hrun; simpl in Hrun.
  - injection Hrun as <-. lia.
  - destruct (step B l s) as [s1|] eqn:Hstep; [ | discriminate ].
    etransitivity; [ eapply step_failures; eassumption | now apply IH ].
Qed.

(** X9. A run is declared [SUCCESS] only if nothing has failed.  In a run
    started with its counter at 1 for the root job, once a job has failed
    to fetch its listing, to persist a batch of rows, to increment the
    counter or to enqueue a child, or once a decrement or a write of the
    status has failed, the run never becomes [SUCCESS]. *)
Theorem success_means_no_failure (B : nat)
    (gh : string -> string -> string -> option (list GitHubContent.t))
    (root : JobData.t) (schedule : list Label) (s : System) :
  0 < B ->
  run B schedule (initial gh root) = Some s ->
  let r := JobData.repositoryId root in
  (status_of (world s) r = Some SUCCESS -> failures (trace (world s)) = 0)
  ∧ (0 < failures (trace (world s)) ->
     ∀ later s', run B later s = Some s' ->
                 status_of (world s') r ≠ Some SUCCESS).
Proof.
  intros _ Hrun r.
  destruct (run_completion B r schedule _ s (initial_invariant gh root)
              (initial_completion gh root) Hrun) as [Hinv [K1 K2]].
  split; [ intros E; now apply K1; left | ].
  intros Hfail later s' Hlater E.
  destruct (run_completion B r later s s' Hinv (conj K1 K2) Hlater)
    as [_ [K1' _]].
  apply run_failures in Hlater.
  destruct K1' as (_ & _ & _ & Hzero); [ now left | lia ].
Qed.

Lemma success_means_no_failure_witness :
  ∃ s, run 100 small_schedule (initial small_tree root_job) = Some s
       ∧ failures (trace (world s)) = 0.
Proof.
  eexists. split; [ vm_compute; reflexivity | ].
  apply (success_means_no_failure 100 small_tree root_job small_schedule _
           ltac:(lia) ltac:(vm_compute; reflexivity)).
  vm_compute. reflexivity.
Defined.

(** A failed [add] after its INCR: the run stays [PROCESSING] with its
    counter at 1 and no job outstanding. *)
Example lost_job_blocks_the_run :
  ∃ s, run 100 [ Process 0 (mkEnv true (fun _ => true) (fun _ => true)
                               (fun _ => false) false true true
                               (fun k => "dir-" +:+ Number_toString k)) ]
         (initial small_tree root_job) = Some s
       ∧ outstanding s = []
       ∧ counter (world s) (pending_jobs "r1") = 2%Z
       ∧ status_of (world s) "r1" = Some PROCESSING.
Proof. eexists. split; [ vm_compute; reflexivity | ]. now vm_compute. Qed.

(** X10. The completion of a run is announced only after it is stored.
    In a run started with its counter at 1 for the root job, whenever the
    update that declares the run complete has been sent, the stored status
    is [SUCCESS], the counter is at zero and no job of the run is waiting
    or due.  The handler writes the status first and sends the update as
    its next call: a handler that sends the update has stored [SUCCESS]
    for a run that was [PROCESSING], with the write and the update as its
    last two calls, in this order; a handler that does not send it leaves
    every status as it was. *)
Theorem completion_is_announced_after_it_is_stored (B : nat)
    (gh : string -> string -> string -> option (list GitHubContent.t))
    (root : JobData.t) (schedule : list Label) (s : System) :
  0 < B ->
  run B schedule (initial gh root) = Some s ->
  let r := JobData.repositoryId root in
  (completions r (trace (world s)) = 1 ->
   status_of (world s) r = Some SUCCESS
   ∧ counter (world s) (pending_jobs r) = 0%Z
   ∧ outstanding s = [])
  ∧ ∀ env data w,
      JobData.repositoryId data = r ->
      let w' := (on_completed env data w).2 in
      (completions r (trace w') = completions r (trace w)
       ∧ repository w' = repository w)
      ∨ (status_of w r = Some PROCESSING
         ∧ repository w' = <[r := SUCCESS]> (repository w)
         ∧ ∃ evs,
             trace w'
             = trace w ++ evs
               ++ [ RepositoryUpdate r SUCCESS true;
                    Update r SUCCESS
                      "All directories and files have been processed." ]
             ∧ completions r evs = 0).
Proof.
  intros _ Hrun r.
  destruct (run_completion B r schedule _ s (initial_invariant gh root)
              (initial_completion gh root) Hrun)
    as [(_ & _ & HS & _) [K1 _]].
  split.
  - intros E. destruct K1 as (Hs & _ & Hz & _); [ now right | ].
    split; [ exact Hs | ]. split; [ exact Hz | now apply HS ].
  - intros env data w Hdata w'. subst w'. unfold on_completed. rewrite Hdata.
    unfold bind, redis_decr, prisma_repository_findUnique.
    destruct (decr_ok env); simpl.
    2: { left. split; [ | reflexivity ].
         rewrite !completions_app. unfold completions. simpl. lia. }
    destruct (repository_find_ok env); simpl.
    2: { left. split; [ | reflexivity ].
         rewrite !completions_app. unfold completions. simpl. lia. }
    case_bool_decide as Hd; simpl.
    2: { left. split; [ | reflexivity ].
         rewrite !completions_app. unfold completions. simpl. lia. }
    destruct Hd as [Hv Hst]. unfold prisma_repository_update. simpl.
    rewrite Hst. destruct (repository_update_ok env); simpl.
    2: { left. split; [ | reflexivity ].
         rewrite !completions_app. unfold completions. simpl. lia. }
    right. split; [ exact Hst | ]. split; [ reflexivity | ].
    exists [ Decr (pending_jobs r) true; RepositoryFind r true ].
    split; [ now rewrite <- !app_assoc | reflexivity ].
Qed.

Lemma completion_is_announced_after_it_is_stored_witness :
  ∃ s, run 100 small_schedule (initial small_tree root_job) = Some s
       ∧ status_of (world s) "r1" = Some SUCCESS
       ∧ counter (world s) (pending_jobs "r1") = 0%Z.
Proof.
  eexists. split; [ vm_compute; reflexivity | ].
  destruct (completion_is_announced_after_it_is_stored 100 small_tree root_job
              small_schedule _ ltac:(lia) ltac:(vm_compute; reflexivity))
    as [Hsent _].
  destruct Hsent as (Hs & Hz & _); [ vm_compute; reflexivity | ].
  split; [ exact Hs | exact Hz ].
Defined.

(** ** A job and the status of its run *)

Lemma oblivious_resolve {A} (a : A) : oblivious (resolve a).
Proof. intros r w. reflexivity. Qed.

Lemma oblivious_reject {A} e : oblivious (@reject A e).
Proof. intros r w. reflexivity. Qed.

Lemma oblivious_bind {A C} (m : Async A) (k : A -> Async C) :
  oblivious m -> (∀ a, oblivious (k a)) -> oblivious (bind m k).
Proof.
  intros Hm Hk r w. unfold bind. rewrite Hm.
  destruct (m w) as [[a|e] w1]; simpl; [ apply Hk | reflexivity ].
Qed.

Lemma oblivious_try_catch {A} (m : Async A) h :
  oblivious m -> (∀ e, oblivious (h e)) -> oblivious (try_catch m h).
Proof.
  intros Hm Hh r w. unfold try_catch. rewrite Hm.
  destruct (m w) as [[a|e] w1]; simpl; [ reflexivity | apply Hh ].
Qed.

(** Closes [oblivious m] for a single call [m]. *)
Ltac oblivious_call :=
  let r := fresh "r" in
  let w := fresh "w" in
  solve [ intros r w; unfold_calls; simpl; repeat case_match; reflexivity ].

(** Splits a goal [oblivious m] along the binds of [m]. *)
Ltac oblivious_struct :=
  cbv zeta;
  repeat lazymatch goal with
    | |- oblivious (resolve _) => apply oblivious_resolve
    | |- oblivious (reject _) => apply oblivious_reject
    | |- oblivious (bind _ _) => apply oblivious_bind; [ | intros ? ]
    | |- oblivious (try_catch _ _) => apply oblivious_try_catch; [ | intros ? ]
    end.

Lemma save_batches_oblivious env repositoryId currentPath directoryId total i
    batches :
  oblivious (save_batches env repositoryId currentPath directoryId total i batches).
Proof.
  revert i. induction batches as [|batch rest IH]; intros i; simpl.
  - apply oblivious_resolve.
  - oblivious_struct; [ oblivious_call | oblivious_call | apply IH ].
Qed.

Lemma processFilesInBatches_oblivious B env files repositoryId currentPath
    directoryId :
  oblivious (processFilesInBatches B env files repositoryId currentPath directoryId).
Proof.
  unfold processFilesInBatches. oblivious_struct; try oblivious_call.
  apply save_batches_oblivious.
Qed.

Lemma issue_incrs_oblivious env key k directories r w :
  issue_incrs env key k directories (set_repository r w)
  = ((issue_incrs env key k directories w).1,
     set_repository r (issue_incrs env key k directories w).2).
Proof.
  revert k w. induction directories as [|dir rest IH]; intros k w; simpl;
    [ reflexivity | ].
  destruct (redis_incr (incr_ok env k) key w) as [o w1] eqn:E.
  assert (E' : redis_incr (incr_ok env k) key (set_repository r w)
               = (o, set_repository r w1)).
  { unfold redis_incr in *. destruct (incr_ok env k); injection E as <- <-;
      reflexivity. }
  rewrite E', IH.
  destruct (issue_incrs env key (S k) rest w1) as [oks w2]. reflexivity.
Qed.

Lemma issue_adds_oblivious env owner repo repositoryId k directories r w :
  issue_adds env owner repo repositoryId k directories (set_repository r w)
  = ((issue_adds env owner repo repositoryId k directories w).1,
     set_repository r (issue_adds env owner repo repositoryId k directories w).2).
Proof.
  revert k w. induction directories as [|dir rest IH]; intros k w; simpl;
    [ reflexivity | ].
  destruct (incr_ok env k).
  - destruct (directoryQueue_add (add_ok env k) "process-directory"
                (child_job owner repo repositoryId dir) w) as [o w1] eqn:E.
    assert (E' : directoryQueue_add (add_ok env k) "process-directory"
                   (child_job owner repo repositoryId dir) (set_repository r w)
                 = (o, set_repository r w1)).
    { unfold directoryQueue_add in *. destruct (add_ok env k);
        injection E as <- <-; reflexivity. }
    rewrite E', IH.
    destruct (issue_adds env owner repo repositoryId (S k) rest w1) as [oks w2].
    reflexivity.
  - rewrite IH.
    destruct (issue_adds env owner repo repositoryId (S k) rest w) as [oks w2].
    reflexivity.
Qed.

Lemma queue_subdirectories_oblivious env owner repo repositoryId directories :
  oblivious (queue_subdirectories env owner repo repositoryId directories).
Proof.
  intros r w. unfold queue_subdirectories. rewrite issue_incrs_oblivious.
  destruct (issue_incrs env (pending_jobs repositoryId) 0 directories w)
    as [incrs w1]. simpl.
  rewrite issue_adds_oblivious.
  destruct (issue_adds env owner repo repositoryId 0 directories w1)
    as [adds w2]. simpl.
  destruct (forallb id incrs); [ destruct (forallb id adds) | ]; reflexivity.
Qed.

Lemma directoryWorker_try_oblivious B env data :
  oblivious (directoryWorker_try B env data).
Proof.
  unfold directoryWorker_try. oblivious_struct; try oblivious_call.
  - apply processFilesInBatches_oblivious.
  - apply queue_subdirectories_oblivious.
Qed.

(** X11. A job never reads the status of a run.  Whatever statuses are
    stored, the [try] block of the processor makes the same calls with the
    same outcome and leaves the statuses alone; so the job of a run that
    is already [FAILED], or already [SUCCESS], persists the same rows,
    applies the same increments and enqueues the same child jobs as the
    job of a run that is [PROCESSING]: a failure does not stop the
    crawl. *)
Theorem jobs_ignore_the_status (B : nat) (env : Env) (data : JobData.t)
    (r : gmap string RepositoryStatus) (w : World) :
  0 < B ->
  let attempt := directoryWorker_try B env data w in
  let run := directoryWorker B env data w in
  let run' := directoryWorker B env data (set_repository r w) in
  directoryWorker_try B env data (set_repository r w)
  = (attempt.1, set_repository r attempt.2)
  ∧ directory run'.2 = directory run.2
  ∧ file run'.2 = file run.2
  ∧ redis run'.2 = redis run.2
  ∧ directoryQueue run'.2 = directoryQueue run.2.
Proof.
  intros _ attempt run run'.
  pose proof (directoryWorker_try_oblivious B env data r w) as Hob.
  split; [ exact Hob | ].
  subst run run'. unfold directoryWorker, try_catch. rewrite Hob.
  fold attempt. destruct attempt as [[result|e] w1]; simpl.
  - repeat split; reflexivity.
  - pose proof (directoryWorker_catch_fields env data e w1)
      as (_ & Hd & Hf & Hr & Hq).
    pose proof (directoryWorker_catch_fields env data e (set_repository r w1))
      as (_ & Hd' & Hf' & Hr' & Hq').
    cbv zeta in *. simpl in *. repeat split; congruence.
Qed.

Lemma jobs_ignore_the_status_witness :
  directoryQueue
    (directoryWorker 100 no_faults root_job
       (one_run small_tree "r1" FAILED 1)).2
  = [ JobData.mk "o" "p" "r1" "src" ].
Proof.
  destruct (jobs_ignore_the_status 100 no_faults root_job {[ "r1" := FAILED ]}
              (one_run small_tree "r1" PROCESSING 1) ltac:(lia))
    as (_ & _ & _ & _ & Hq).
  etransitivity; [ exact Hq | ]. vm_compute. reflexivity.
Defined.

(** ** The order of the calls of a job *)

Lemma staged_after {A} (m : Async A) :
  preserves (emits (Forall (fun e => is_transaction e = false))) m -> staged m.
Proof.
  intros H w. destruct (H w) as (evs & T & F). exists [], evs.
  split; [ exact T | split; [ constructor | exact F ] ].
Qed.

Lemma staged_bind {A C} (m : Async A) (k : A -> Async C) :
  preserves (emits (Forall (fun e => is_queueing e = false))) m ->
  (∀ a, staged (k a)) -> staged (bind m k).
Proof.
  intros Hm Hk w. unfold bind. destruct (Hm w) as (e1 & T1 & F1).
  destruct (m w) as [[a|e] w1]; simpl in *.
  - destruct (Hk a w1) as (before & after & T2 & Fb & Fa).
    exists (e1 ++ before), after. split; [ | split ].
    + now rewrite T2, T1, <- !app_assoc.
    + now apply Forall_app.
    + exact Fa.
  - exists e1, []. split; [ now rewrite app_nil_r | split; [ exact F1 | constructor ] ].
Qed.

Lemma staged_try_catch {A} (m : Async A) h :
  staged m ->
  (∀ e, preserves (emits (Forall (fun e => is_transaction e = false))) (h e)) ->
  staged (try_catch m h).
Proof.
  intros Hm Hh w. unfold try_catch.
  destruct (Hm w) as (before & after & T & Fb & Fa).
  destruct (m w) as [[a|e] w1]; simpl in *.
  - now exists before, after.
  - destruct (Hh e w1) as (evs & T' & F').
    exists before, (after ++ evs). split; [ | split ].
    + now rewrite T', T, <- !app_assoc.
    + exact Fb.
    + now apply Forall_app.
Qed.

(** Closes [preserves (emits (Forall P)) m] for a single call [m]. *)
Ltac emits_call :=
  let w := fresh "w" in
  solve [ intros w; unfold_calls; repeat case_match; simpl;
          eexists; (split; [ reflexivity | ]); repeat constructor ].

Lemma queue_subdirectories_no_transaction env owner repo repositoryId directories :
  preserves (emits (Forall (fun e => is_transaction e = false)))
            (queue_subdirectories env owner repo repositoryId directories).
Proof.
  intros w. eexists. split; [ apply queue_subdirectories_trace | ].
  apply Forall_app. split.
  - generalize 0. induction directories as [|d rest IH]; intros k; simpl;
      constructor; auto.
  - generalize 0. induction directories as [|d rest IH]; intros k; simpl;
      [ constructor | ].
    destruct (incr_ok env k); [ constructor; auto | auto ].
Qed.

(** X12. Rows come before child jobs.  Within one job, every
    transaction on the tables of the directories and of the files is
    issued before the first INCR and the first [add]: by the time a child
    job is enqueued, the rows of the listing are committed or their
    transaction has failed, and the job writes no row afterwards. *)
Theorem rows_precede_child_jobs (B : nat) (env : Env) (data : JobData.t)
    (w : World) :
  0 < B ->
  ∃ before after,
    trace (directoryWorker B env data w).2 = trace w ++ before ++ after
    ∧ Forall (fun e => is_queueing e = false) before
    ∧ Forall (fun e => is_transaction e = false) after.
Proof.
  intros _. revert w. change (staged (directoryWorker B env data)).
  unfold directoryWorker. apply staged_try_catch.
  - unfold directoryWorker_try. cbv zeta.
    apply staged_bind; [ emits_call | intros items ].
    apply staged_bind; [ emits_call | intros _ ].
    apply staged_bind; [ emits_call | intros createdDirectories ].
    apply staged_bind.
    + apply processFilesInBatches_preserves; try typeclasses eauto;
        intros; emits_call.
    + intros _. apply staged_after. preserves_struct; [ | emits_call ].
      apply queue_subdirectories_no_transaction.
  - intros e. unfold directoryWorker_catch. preserves_struct; emits_call.
Qed.

Lemma rows_precede_child_jobs_witness :
  ∃ before after,
    trace (directoryWorker 100 no_faults root_job
             (one_run small_tree "r1" PROCESSING 1)).2
    = before ++ after
    ∧ Forall (fun e => is_queueing e = false) before
    ∧ Forall (fun e => is_transaction e = false) after.
Proof.
  destruct (rows_precede_child_jobs 100 no_faults root_job
              (one_run small_tree "r1" PROCESSING 1) ltac:(lia))
    as (before & after & T & Fb & Fa).
  exists before, after. split; [ exact T | split; assumption ].
Defined.

(** ** The increment and the child job *)

Lemma applied_app env k l1 l2 :
  applied env k (l1 ++ l2)
  = applied env k l1 + applied env (k + length l1) l2.
Proof.
  revert k. induction l1 as [|d l1 IH]; intros k; simpl.
  - now rewrite Nat.add_0_r.
  - rewrite IH. replace (S k + length l1) with (k + S (length l1)) by lia. lia.
Qed.

Lemma issue_adds_app env owner repo repositoryId k l1 l2 w :
  (issue_adds env owner repo repositoryId k (l1 ++ l2) w).2
  = (issue_adds env owner repo repositoryId (k + length l1) l2
       (issue_adds env owner repo repositoryId k l1 w).2).2.
Proof.
  revert k w. induction l1 as [|d l1 IH]; intros k w; simpl.
  - now rewrite Nat.add_0_r.
  - replace (k + S (length l1)) with (S k + length l1) by lia.
    destruct (incr_ok env k).
    + destruct (directoryQueue_add (add_ok env k) "process-directory"
                  (child_job owner repo repositoryId d) w) as [o w1].
      specialize (IH (S k) w1).
      destruct (issue_adds env owner repo repositoryId (S k) (l1 ++ l2) w1)
        as [oks w2].
      destruct (issue_adds env owner repo repositoryId (S k) l1 w1)
        as [oks' w2']. exact IH.
    + specialize (IH (S k) w).
      destruct (issue_adds env owner repo repositoryId (S k) (l1 ++ l2) w)
        as [oks w2].
      destruct (issue_adds env owner repo repositoryId (S k) l1 w)
        as [oks' w2']. exact IH.
Qed.

Lemma queue_subdirectories_world env owner repo repositoryId directories w :
  (queue_subdirectories env owner repo repositoryId directories w).2
  = (issue_adds env owner repo repositoryId 0 directories
       (issue_incrs env (pending_jobs repositoryId) 0 directories w).2).2.
Proof.
  unfold queue_subdirectories.
  destruct (issue_incrs env (pending_jobs repositoryId) 0 directories w)
    as [incrs0 w1]. simpl.
  destruct (issue_adds env owner repo repositoryId 0 directories w1)
    as [adds0 w2]. simpl.
  repeat case_match; reflexivity.
Qed.

(** The store after the INCR commands and after the [add]s. *)
Lemma issue_incrs_store env key k directories w :
  let w1 := (issue_incrs env key k directories w).2 in
  directoryQueue w1 = directoryQueue w
  ∧ counter w1 key = (counter w key + Z.of_nat (applied env k directories))%Z.
Proof.
  pose proof (issue_incrs_effect env key k directories w) as [Hq Hc].
  cbv zeta in *. rewrite applied_incrs in Hc. now split.
Qed.

Lemma issue_adds_store env owner repo repositoryId k directories w key :
  let w2 := (issue_adds env owner repo repositoryId k directories w).2 in
  directoryQueue w2
  = directoryQueue w ++ enqueued env owner repo repositoryId k directories
  ∧ counter w2 key = counter w key.
Proof.
  pose proof (issue_adds_effect env owner repo repositoryId k directories w)
    as (Hr & _).
  pose proof (issue_adds_exact env owner repo repositoryId k directories w)
    as [Hq _].
  cbv zeta in *. split; [ exact Hq | ]. unfold counter. now rewrite Hr.
Qed.

Lemma queue_subdirectories_store env owner repo repositoryId directories w :
  let w' := (queue_subdirectories env owner repo repositoryId directories w).2 in
  let key := pending_jobs repositoryId in
  directoryQueue w'
  = directoryQueue w ++ enqueued env owner repo repositoryId 0 directories
  ∧ counter w' key = (counter w key + Z.of_nat (applied env 0 directories))%Z.
Proof.
  cbv zeta. rewrite queue_subdirectories_world.
  pose proof (issue_incrs_store env (pending_jobs repositoryId) 0 directories w)
    as [Hq1 Hc1].
  pose proof (issue_adds_store env owner repo repositoryId 0 directories
                (issue_incrs env (pending_jobs repositoryId) 0 directories w).2
                (pending_jobs repositoryId)) as [Hq2 Hc2].
  cbv zeta in *. split; [ now rewrite Hq2, Hq1 | now rewrite Hc2, Hc1 ].
Qed.

Lemma incr_events_children env owner repo repositoryId all key k directories :
  Forall (adds_child_of env owner repo repositoryId all)
         (incr_events env key k directories).
Proof.
  revert k. induction directories as [|d rest IH]; intros k; simpl;
    constructor; [ exact I | apply IH ].
Qed.

Lemma add_events_children env owner repo repositoryId all k directories :
  (∀ j dir, directories !! j = Some dir -> all !! (k + j) = Some dir) ->
  Forall (adds_child_of env owner repo repositoryId all)
         (add_events env owner repo repositoryId k directories).
Proof.
  revert k. induction directories as [|d rest IH]; intros k Hall; simpl;
    [ constructor | ].
  assert (Hrest : Forall (adds_child_of env owner repo repositoryId all)
                    (add_events env owner repo repositoryId (S k) rest)).
  { apply IH. intros j dir Hj. replace (S k + j) with (k + S j) by lia.
    now apply Hall. }
  destruct (incr_ok env k) eqn:Hk; [ | exact Hrest ].
  constructor; [ | exact Hrest ].
  exists k, d. split; [ | now repeat split ].
  rewrite <- (Nat.add_0_r k). now apply Hall.
Qed.

Lemma directoryWorker_children B env data w items :
  github w (JobData.owner data) (JobData.repo data) (JobData.path data)
  = Some items ->
  emits (Forall (adds_child_of env (JobData.owner data) (JobData.repo data)
                   (JobData.repositoryId data) (directories_of items)))
        w (directoryWorker B env data w).2.
Proof.
  intros Hgh.
  set (R := emits (Forall (adds_child_of env (JobData.owner data)
                             (JobData.repo data) (JobData.repositoryId data)
                             (directories_of items)))).
  assert (Hcatch : ∀ e, preserves R (directoryWorker_catch env data e)).
  { intros e. unfold directoryWorker_catch. preserves_struct; emits_call. }
  assert (Hafter : preserves R (after_directories B env data items)).
  { unfold after_directories. preserves_struct.
    - apply processFilesInBatches_preserves; try typeclasses eauto;
        intros; emits_call.
    - intros w0. eexists. split; [ apply queue_subdirectories_trace | ].
      apply Forall_app. split.
      + apply incr_events_children.
      + apply add_events_children. intros j dir Hj. exact Hj.
    - emits_call. }
  unfold directoryWorker, try_catch.
  rewrite (directoryWorker_try_run _ _ _ _ _ Hgh). cbv zeta.
  destruct (directory_tx_ok env).
  - match goal with |- context [after_directories _ _ _ _ ?w0] =>
      assert (H0 : R w w0);
      [ eexists; split;
        [ simpl; rewrite <- !app_assoc; reflexivity | repeat constructor ] | ];
      specialize (Hafter w0);
      destruct (after_directories B env data items w0) as [[a|e'] w1]
    end; simpl in *.
    + etransitivity; eassumption.
    + etransitivity; [ exact H0 | ].
      etransitivity; [ exact Hafter | apply Hcatch ].
  - etransitivity; [ | apply Hcatch ].
    eexists. split; [ simpl; rewrite <- !app_assoc; reflexivity | ].
    repeat constructor.
Qed.

Lemma directoryWorker_try_store B env data w items :
  github w (JobData.owner data) (JobData.repo data) (JobData.path data)
  = Some items ->
  let repositoryId := JobData.repositoryId data in
  let key := pending_jobs repositoryId in
  let directories := directories_of items in
  let w' := (directoryWorker_try B env data w).2 in
  ∃ n jobs,
    counter w' key = (counter w key + Z.of_nat n)%Z
    ∧ directoryQueue w' = directoryQueue w ++ jobs
    ∧ (n = 0 ∧ jobs = []
       ∨ n = applied env 0 directories
         ∧ jobs = enqueued env (JobData.owner data) (JobData.repo data)
                    repositoryId 0 directories).
Proof.
  intros Hgh rid key directories w'. subst w' rid key directories.
  assert (Hfr : ∀ files path did,
            preserves (unchanged redis)
              (processFilesInBatches B env files (JobData.repositoryId data)
                 path did)).
  { intros. apply processFilesInBatches_preserves; try typeclasses eauto;
      intros; call_frame. }
  assert (Hfq : ∀ files path did,
            preserves (unchanged directoryQueue)
              (processFilesInBatches B env files (JobData.repositoryId data)
                 path did)).
  { intros. apply processFilesInBatches_preserves; try typeclasses eauto;
      intros; call_frame. }
  destruct (directoryWorker_try B env data w) as [o wf] eqn:E. simpl.
  rewrite (directoryWorker_try_run _ _ _ _ _ Hgh) in E. cbv zeta in E.
  destruct (directory_tx_ok env).
  - unfold after_directories in E. unfold bind at 1 in E.
    match type of E with
    | context [processFilesInBatches B env ?f ?r ?p ?d ?w0] =>
        pose proof (Hfr f p d w0) as Hr1; pose proof (Hfq f p d w0) as Hq1;
        destruct (processFilesInBatches B env f r p d w0) as [[[]|e] w1]
    end; unfold unchanged in Hr1, Hq1; simpl in Hr1, Hq1.
    + unfold bind at 1 in E.
      pose proof (queue_subdirectories_store env (JobData.owner data)
                    (JobData.repo data) (JobData.repositoryId data)
                    (directories_of items) w1) as [Hq2 Hc2].
      cbv zeta in Hq2, Hc2.
      assert (Hc : ∀ k, counter w1 k = counter w k)
        by (intros; unfold counter; now rewrite Hr1).
      destruct (queue_subdirectories env (JobData.owner data)
                  (JobData.repo data) (JobData.repositoryId data)
                  (directories_of items) w1) as [[[]|e] w2];
        simpl in *; injection E as <- <-;
        (eexists _, _; split; [ | split; [ | right; split; reflexivity ] ];
         [ etransitivity; [ exact Hc2 | now rewrite Hc ]
         | simpl; now rewrite Hq2, Hq1 ]).
    + injection E as <- <-. exists 0, []. rewrite app_nil_r.
      split; [ unfold counter; rewrite Hr1; lia | ].
      split; [ exact Hq1 | now left ].
  - injection E as <- <-. exists 0, []. simpl. rewrite app_nil_r.
    split; [ unfold counter; simpl; lia | ]. split; [ reflexivity | now left ].
Qed.

Lemma directoryWorker_store B env data w items :
  github w (JobData.owner data) (JobData.repo data) (JobData.path data)
  = Some items ->
  let repositoryId := JobData.repositoryId data in
  let key := pending_jobs repositoryId in
  let directories := directories_of items in
  let w' := (directoryWorker B env data w).2 in
  ∃ n jobs,
    counter w' key = (counter w key + Z.of_nat n)%Z
    ∧ directoryQueue w' = directoryQueue w ++ jobs
    ∧ (n = 0 ∧ jobs = []
       ∨ n = applied env 0 directories
         ∧ jobs = enqueued env (JobData.owner data) (JobData.repo data)
                    repositoryId 0 directories).
Proof.
  intros Hgh rid key directories w'. subst w'.
  destruct (directoryWorker_try_store B env data w items Hgh)
    as (n & jobs & Hc & Hq & Hcases).
  fold rid key directories in Hc, Hq, Hcases.
  exists n, jobs. unfold directoryWorker, try_catch.
  destruct (directoryWorker_try B env data w) as [[a|e] w1]; simpl in *.
  - split; [ exact Hc | ]. split; [ exact Hq | exact Hcases ].
  - pose proof (directoryWorker_catch_fields env data e w1)
      as (_ & _ & _ & Hr' & Hq'). cbv zeta in *.
    split; [ unfold counter in *; now rewrite Hr' | ].
    split; [ now rewrite Hq' | exact Hcases ].
Qed.

(** C5. Every child job a job enqueues is that of a subdirectory of its
    listing, and its increment is applied before it is enqueued.  Among
    the calls of the job, every [add] is that of the child job of a
    subdirectory of the listing whose INCR resolved, and when it is
    issued the increments of the run's counter applied so far outnumber
    the jobs added before it.  The store bears the calls out: the counter
    has grown by one for each INCR that resolved and the queue by the
    children whose INCR and [add] both resolved, never by more jobs than
    increments.  And in the world in which the callback of a subdirectory
    goes on after its INCR, which is where it adds its child, the counter
    holds the increments issued, that of the subdirectory among them: it
    has grown by more than the queue. *)
Theorem increment_precedes_enqueue (B : nat) (env : Env) (data : JobData.t)
    (w : World) (items : list GitHubContent.t) :
  0 < B ->
  github w (JobData.owner data) (JobData.repo data) (JobData.path data)
  = Some items ->
  let owner := JobData.owner data in
  let repo := JobData.repo data in
  let repositoryId := JobData.repositoryId data in
  let key := pending_jobs repositoryId in
  let directories := directories_of items in
  let run := directoryWorker B env data w in
  (∃ evs,
     trace run.2 = trace w ++ evs
     ∧ ∀ before jobName child ok after,
         evs = before ++ Add jobName child ok :: after ->
         adds before < incrs key before
         ∧ ∃ k dir, directories !! k = Some dir
                    ∧ incr_ok env k = true
                    ∧ jobName = "process-directory"
                    ∧ child = child_job owner repo repositoryId dir)
  ∧ (∃ n jobs,
       counter run.2 key = (counter w key + Z.of_nat n)%Z
       ∧ directoryQueue run.2 = directoryQueue w ++ jobs
       ∧ length jobs <= n
       ∧ (n = 0 ∧ jobs = []
          ∨ n = applied env 0 directories
            ∧ jobs = enqueued env owner repo repositoryId 0 directories))
  ∧ ∀ (wq : World) k dir,
      directories !! k = Some dir ->
      let w1 := (issue_incrs env key 0 directories wq).2 in
      let wk :=
        (issue_adds env owner repo repositoryId 0 (take k directories) w1).2 in
      (queue_subdirectories env owner repo repositoryId directories wq).2
      = (issue_adds env owner repo repositoryId k
           (dir :: drop (S k) directories) wk).2
      ∧ (incr_ok env k = true ->
         (Z.of_nat (length (directoryQueue wk))
          - Z.of_nat (length (directoryQueue wq))
          < counter wk key - counter wq key)%Z).
Proof.
  intros _ Hgh owner repo rid key directories run.
  split; [ | split ].
  - destruct (directoryWorker_increments_first B env data w) as (evs & E & H).
    destruct (directoryWorker_children B env data w items Hgh)
      as (evs' & E' & F).
    fold run in E, E'. rewrite E in E'. apply app_inv_head in E'. subst evs'.
    exists evs. split; [ exact E | ].
    intros before jobName child ok after Hsplit. split.
    + specialize (H (before ++ [Add jobName child ok]) after).
      rewrite <- app_assoc in H. specialize (H Hsplit).
      rewrite adds_app, incrs_app in H. subst key rid.
      unfold adds, incrs in *. simpl in H. lia.
    + rewrite Hsplit in F. apply Forall_app in F as [_ F].
      apply Forall_cons in F as [F _]. exact F.
  - destruct (directoryWorker_store B env data w items Hgh)
      as (n & jobs & Hc & Hq & Hcases).
    exists n, jobs. split; [ exact Hc | ]. split; [ exact Hq | ].
    split; [ | exact Hcases ].
    destruct Hcases as [[-> ->]|[-> ->]]; [ simpl; lia | ].
    apply enqueued_applied.
  - intros wq k dir Hk w1 wk.
    assert (Hlt : k < length directories) by (eapply lookup_lt_Some; eassumption).
    assert (Hlen : length (take k directories) = k)
      by (rewrite length_take; lia).
    assert (Hsplit : directories
                     = take k directories ++ dir :: drop (S k) directories).
    { rewrite <- (drop_S _ _ _ Hk). symmetry. apply take_drop. }
    split.
    + rewrite queue_subdirectories_world. fold key w1.
      rewrite Hsplit at 1. rewrite issue_adds_app. fold wk.
      now rewrite Hlen.
    + intros Hincr.
      pose proof (issue_incrs_store env key 0 directories wq) as [Hq1 Hc1].
      pose proof (issue_adds_store env owner repo rid 0 (take k directories)
                    w1 key) as [Hq2 Hc2].
      cbv zeta in Hq1, Hc1, Hq2, Hc2. fold w1 in Hq1, Hc1. fold wk in Hq2, Hc2.
      pose proof (enqueued_applied env owner repo rid 0 (take k directories))
        as Hle.
      assert (Happ : applied env 0 directories
                     = applied env 0 (take k directories) + 1
                       + applied env (S k) (drop (S k) directories)).
      { rewrite Hsplit at 1. rewrite applied_app, Hlen. simpl.
        rewrite Hincr. lia. }
      rewrite Hq2, Hq1, length_app, Hc2, Hc1. lia.
Qed.

Lemma increment_precedes_enqueue_witness :
  adds [ Fetch "o" "p" "" "r1" true;
         Update "r1" PROCESSING "Processing directory: root";
         DirectoryTx [ DirectoryCreate.mk "src" "r1" None ] true;
         Update "r1" PROCESSING "Processing 0 files in batches for root";
         Update "r1" SUCCESS "Finished processing 0 files in root";
         Incr "repo:r1:pending_jobs" true ]
  < incrs "repo:r1:pending_jobs"
      [ Fetch "o" "p" "" "r1" true;
        Update "r1" PROCESSING "Processing directory: root";
        DirectoryTx [ DirectoryCreate.mk "src" "r1" None ] true;
        Update "r1" PROCESSING "Processing 0 files in batches for root";
        Update "r1" SUCCESS "Finished processing 0 files in root";
        Incr "repo:r1:pending_jobs" true ]
  ∧ counter (directoryWorker 100 no_faults root_job
               (world (initial one_subdirectory root_job))).2
      "repo:r1:pending_jobs" = 2%Z
  ∧ directoryQueue (directoryWorker 100 no_faults root_job
                      (world (initial one_subdirectory root_job))).2
    = [ root_job; JobData.mk "o" "p" "r1" "src" ].
Proof.
  destruct (increment_precedes_enqueue 100 no_faults root_job
              (world (initial one_subdirectory root_job))
              [ GitHubContent.mk "src" "src" "dir" None ]
              ltac:(lia) eq_refl)
    as [(evs & E & H) [(n & jobs & Hc & Hq & _ & Hcases) _]].
  split.
  - apply (H _ "process-directory" (JobData.mk "o" "p" "r1" "src") true
             [ Update "r1" PROCESSING "Finished processing directory: root" ]).
    vm_compute in E. now subst evs.
  - vm_compute. split; reflexivity.
Defined.
